(** * Decaf front end: the scanner and the recursive-descent parser

    A shallow embedding of [my_parser.py]: the [Lexer] class (a priority-ordered
    alternation of regular expressions driven by [finditer]) and the [Parser]
    class (a cursor over the token list and string-building productions).

    Characters are Rocq [ascii] values read as the code points U+0000..U+00FF;
    the classes [\d], [\w] and [.] are Python's, restricted to that range.
    Python strings are [string]; a Python value that may be [None] is an
    [option].  The parser's methods are functions of the cursor in a small
    state-and-error monad.  They are given twice.  In [Parser] a recursion
    budget stands for the calls and loop turns that Python leaves unbounded:
    this is a run for which the interpreter's stack is deep enough.  In
    [Limited] every call takes a frame of the interpreter's stack, and a call
    nested deeper than the recursion limit raises [RecursionError]. *)

From Stdlib Require Import String Ascii List Arith Bool Lia Sorted.
Import ListNotations.

Open Scope list_scope.
Open Scope string_scope.

(** ** Characters and strings *)

Definition LF : ascii := "010"%char.
Definition CR : ascii := "013"%char.
Definition TAB : ascii := "009"%char.
Definition DQUOTE : ascii := "034"%char.

Definition nl : string := String LF "".

Definition between (lo hi : nat) (c : ascii) : bool :=
  Nat.leb lo (nat_of_ascii c) && Nat.leb (nat_of_ascii c) hi.

(** [\d] : the decimal digits; below U+0100 these are [0-9] only. *)
Definition is_digit (c : ascii) : bool := between 48 57 c.

(** [[a-zA-Z_]] *)
Definition is_ident_start (c : ascii) : bool :=
  between 97 122 c || between 65 90 c || Ascii.eqb c "_".

(** [\w] : alphanumeric code points and the underscore.  Above U+007F the
    alphanumeric code points of Latin-1 are U+00AA, U+00B2, U+00B3, U+00B5,
    U+00B9, U+00BA, U+00BC..U+00BE, U+00C0..U+00D6, U+00D8..U+00F6 and
    U+00F8..U+00FF. *)
Definition is_word (c : ascii) : bool :=
  is_ident_start c || is_digit c
  || between 170 170 c || between 178 179 c || between 181 181 c
  || between 185 186 c || between 188 190 c
  || between 192 214 c || between 216 246 c || between 248 255 c.

(** [[ \t]] *)
Definition is_blank (c : ascii) : bool := Ascii.eqb c " " || Ascii.eqb c TAB.

Definition not_dquote (c : ascii) : bool := negb (Ascii.eqb c DQUOTE).

Definition head (s : string) : option ascii :=
  match s with
  | "" => None
  | String c _ => Some c
  end.

Fixpoint last_char (d : option ascii) (s : string) : option ascii :=
  match s with
  | "" => d
  | String c s' => last_char (Some c) s'
  end.

(** [strip_prefix p s] is the rest of [s] after the literal [p], if [s] starts
    with [p]. *)
Fixpoint strip_prefix (p s : string) : option string :=
  match p with
  | "" => Some s
  | String a p' =>
      match s with
      | "" => None
      | String b s' => if Ascii.eqb a b then strip_prefix p' s' else None
      end
  end.

(** The longest prefix of [s] whose characters satisfy [f], and what follows. *)
Fixpoint span (f : ascii -> bool) (s : string) : string * string :=
  match s with
  | "" => ("", "")
  | String c s' =>
      if f c then let (a, b) := span f s' in (String c a, b) else ("", s)
  end.

Fixpoint str_filter (f : ascii -> bool) (s : string) : string :=
  match s with
  | "" => ""
  | String c s' => if f c then String c (str_filter f s') else str_filter f s'
  end.

Fixpoint str_forall (f : ascii -> bool) (s : string) : bool :=
  match s with
  | "" => true
  | String c s' => f c && str_forall f s'
  end.

Fixpoint str_count (f : ascii -> bool) (s : string) : nat :=
  match s with
  | "" => 0
  | String c s' => (if f c then 1 else 0) + str_count f s'
  end.

Fixpoint str_take (n : nat) (s : string) : string :=
  match n, s with
  | S n', String c s' => String c (str_take n' s')
  | _, _ => ""
  end.

Fixpoint str_lower (s : string) : string :=
  match s with
  | "" => ""
  | String c s' =>
      String (if between 65 90 c then ascii_of_nat (nat_of_ascii c + 32) else c)
             (str_lower s')
  end.

(** ** The scanner *)

Module Lexer.

(** A regular expression of [token_specification], tried at one position: it
    sees the character before the position (for [\b]) and the text from the
    position on, and gives the matched text and the text after it. *)
Definition matcher := option ascii -> string -> option (string * string).

Definition is_word_opt (o : option ascii) : bool :=
  match o with
  | Some c => is_word c
  | None => false
  end.

(** [\b] between the characters [before] and [after] (either may be absent at
    an end of the text). *)
Definition word_boundary (before after : option ascii) : bool :=
  xorb (is_word_opt before) (is_word_opt after).

(** A literal. *)
Definition lit (p : string) : matcher := fun _ s =>
  match strip_prefix p s with
  | Some rest => Some (p, rest)
  | None => None
  end.

(** [\bkw\b] *)
Definition keyword (kw : string) : matcher := fun prev s =>
  if word_boundary prev (head s) then
    match strip_prefix kw s with
    | Some rest =>
        if word_boundary (last_char prev kw) (head rest) then Some (kw, rest)
        else None
    | None => None
    end
  else None.

(** [a|b|...] : the first alternative that matches. *)
Fixpoint alt (ms : list matcher) : matcher := fun prev s =>
  match ms with
  | [] => None
  | m :: ms' =>
      match m prev s with
      | Some r => Some r
      | None => alt ms' prev s
      end
  end.

(** [[f]+] : a greedy run, at least one character. *)
Definition plus (f : ascii -> bool) : matcher := fun _ s =>
  match span f s with
  | ("", _) => None
  | (a, rest) => Some (a, rest)
  end.

(** A double quote, [[^q]*] with q the double quote, a double quote: the
    greedy run of non-quote characters stops at the first quote or at the end
    of the text; giving characters back cannot help, since each of them is not
    a quote. *)
Definition string_constant : matcher := fun _ s =>
  match s with
  | String q s' =>
      if Ascii.eqb q DQUOTE then
        match span not_dquote s' with
        | (body, String q' rest) =>
            if Ascii.eqb q' DQUOTE
            then Some (String q (body ++ String q' ""), rest)
            else None
        | (_, "") => None
        end
      else None
  | "" => None
  end.

(** [[a-zA-Z_]\w*] *)
Definition identifier : matcher := fun _ s =>
  match s with
  | String c s' =>
      if is_ident_start c
      then let (w, rest) := span is_word s' in Some (String c w, rest)
      else None
  | "" => None
  end.

(** [.] : any character but the line feed. *)
Definition any_char : matcher := fun _ s =>
  match s with
  | String c rest => if Ascii.eqb c LF then None else Some (String c "", rest)
  | "" => None
  end.

Definition token_specification : list (string * matcher) :=
  [ ("T_Void", keyword "void");
    ("T_Int", keyword "int");
    ("T_Bool", keyword "bool");
    ("T_If", keyword "if");
    ("T_For", keyword "for");
    ("T_Return", keyword "return");
    ("T_Print", keyword "Print");
    ("T_LessEqual", alt [lit "<="; lit ">="; lit "=="; lit "!="]);
    ("T_Assign", lit "=");
    ("T_Less", lit "<");
    ("T_Greater", lit ">");
    ("T_Add", lit "+");
    ("T_Sub", lit "-");
    ("T_Mul", lit "*");
    ("T_Div", lit "/");
    ("T_Mod", lit "%");
    ("T_And", lit "&&");
    ("T_Or", lit "||");
    ("T_Not", lit "!");
    ("T_Semicolon", lit ";");
    ("T_Comma", lit ",");
    ("T_LParen", lit "(");
    ("T_RParen", lit ")");
    ("T_LBrace", lit "{");
    ("T_RBrace", lit "}");
    ("T_IntConstant", plus is_digit);
    ("T_StringConstant", string_constant);
    ("T_Identifier", identifier);
    ("WHITESPACE", plus is_blank);
    ("NEWLINE", lit nl);
    ("MISMATCH", any_char) ].

(** [token_regex] at one position: the named groups joined by [|], so the
    first pattern of the list that matches decides; the result carries the
    name of that group ([lastgroup]). *)
Fixpoint first_match (spec : list (string * matcher))
    (prev : option ascii) (s : string) : option (string * string * string) :=
  match spec with
  | [] => None
  | (name, m) :: spec' =>
      match m prev s with
      | Some (lexeme, rest) => Some (name, lexeme, rest)
      | None => first_match spec' prev s
      end
  end.

Definition token_regex : option ascii -> string -> option (string * string * string) :=
  first_match token_specification.

(** A match object: [lastgroup], [group(kind)], [start()] and [end()]. *)
Record Match := mkMatch {
  lastgroup : string;
  group : string;
  mstart : nat;
  mend : nat
}.

(** [token_regex.finditer]: the matches from left to right, each search
    starting where the last match ended; a position where nothing matches is
    stepped over.  No pattern matches the empty text, so [fuel] goes down at
    least as fast as the text does. *)
Fixpoint finditer_from (fuel : nat) (prev : option ascii) (s : string)
    (pos : nat) : list Match :=
  match fuel with
  | 0 => []
  | S fuel' =>
      match s with
      | "" => []
      | String c s' =>
          match token_regex prev s with
          | Some (kind, lexeme, rest) =>
              mkMatch kind lexeme pos (pos + String.length lexeme)
              :: finditer_from fuel' (last_char prev lexeme) rest
                   (pos + String.length lexeme)
          | None => finditer_from fuel' (Some c) s' (S pos)
          end
      end
  end.

Definition finditer (code : string) : list Match :=
  finditer_from (String.length code) None code 0.

Record Token := mkToken {
  type : string;
  value : string;
  line : nat;
  start_col : nat;
  end_col : nat
}.

(** What [tokenize] gives: the token list, or the [RuntimeError] whose message
    holds the offending text and the line. *)
Inductive lex_result : Type :=
| Tokens (tokens : list Token)
| RuntimeError (unexpected : string) (on_line : nat).

(** The body of the [for mo in ... finditer] loop, with the loop's variables
    [tokens], [line] and [current_position]. *)
Fixpoint tokenize_loop (ms : list Match) (tokens : list Token)
    (line current_position : nat) : lex_result :=
  match ms with
  | [] => Tokens tokens
  | mo :: ms' =>
      let kind := lastgroup mo in
      let value := group mo in
      let start_col := mstart mo - current_position in
      let end_col := mend mo - current_position in
      if kind =? "NEWLINE" then
        tokenize_loop ms' tokens (line + 1) (mend mo)
      else if kind =? "WHITESPACE" then
        tokenize_loop ms' tokens line current_position
      else if kind =? "MISMATCH" then
        RuntimeError value line
      else
        tokenize_loop ms'
          (tokens ++ [mkToken kind value line (start_col + 1) end_col])%list
          line current_position
  end.

Definition tokenize (code : string) : lex_result :=
  tokenize_loop (finditer code) [] 1 0.

End Lexer.


(** ** The parser *)

Module Parser.
Import Lexer.

(** The faults the parser can run into: reading [.type] or [.value] of [None],
    [+=] of [None] to a string, and a call nested deeper than the interpreter
    allows (raised by the productions of [Limited] below only). *)
Inductive exn : Type :=
| AttributeError
| TypeError
| RecursionError.

(** A call returns, raises, or is cut off by the recursion budget of the
    model (the loop over the parameters of a function may not end). *)
Inductive outcome (A : Type) : Type :=
| Ok (a : A)
| Raise (e : exn)
| OutOfFuel.

Arguments Ok {A} a.
Arguments Raise {A} e.
Arguments OutOfFuel {A}.

(** A method of [Parser]: it reads [self.tokens] and updates
    [self.position]. *)
Definition M (A : Type) : Type := nat -> outcome (A * nat).

Definition ret {A : Type} (a : A) : M A := fun position => Ok (a, position).

Definition bind {A B : Type} (m : M A) (k : A -> M B) : M B :=
  fun position =>
    match m position with
    | Ok (a, position') => k a position'
    | Raise e => Raise e
    | OutOfFuel => OutOfFuel
    end.

Definition raise {A : Type} (e : exn) : M A := fun _ => Raise e.

Definition out_of_fuel {A : Type} : M A := fun _ => OutOfFuel.

Notation "x <- m ;; k" := (bind m (fun x => k))
  (at level 61, m at next level, right associativity).
Notation "m ;;; k" := (bind m (fun _ => k))
  (at level 61, right associativity).

(** [token.type] and [token.value], where [token] may be [None]. *)
Definition get_type (token : option Token) : M string :=
  match token with
  | Some t => ret (type t)
  | None => raise AttributeError
  end.

Definition get_value (token : option Token) : M string :=
  match token with
  | Some t => ret (value t)
  | None => raise AttributeError
  end.

(** [acc += piece], where [piece] may be [None]. *)
Definition add_str (acc : string) (piece : option string) : M string :=
  match piece with
  | Some s => ret (acc ++ s)
  | None => raise TypeError
  end.

(** How an f-string shows a value that may be [None]. *)
Definition fmt (o : option string) : string :=
  match o with
  | Some s => s
  | None => "None"
  end.

(** [ty in names] *)
Definition type_in (ty : string) (names : list string) : bool :=
  existsb (String.eqb ty) names.

(** [token and token.type != name], the test of the two inner loops. *)
Definition present_and_not (name : string) (token : option Token) : bool :=
  match token with
  | Some t => negb (type t =? name)
  | None => false
  end.

(** [token and token.type == name] *)
Definition present_and (name : string) (token : option Token) : bool :=
  match token with
  | Some t => type t =? name
  | None => false
  end.

Section WithTokens.

Variable tokens : list Token.

Definition current_token : M (option Token) :=
  fun position => Ok (nth_error tokens position, position).

Definition consume : M unit := fun position => Ok (tt, position + 1).

Definition binary (label operator : string) (left right : option string) : string :=
  label ++ ": " ++ operator ++ nl ++ "            " ++ fmt left
        ++ nl ++ "            " ++ fmt right.

Fixpoint parse_expression (fuel : nat) : M (option string) :=
  match fuel with
  | 0 => out_of_fuel
  | S fuel' =>
      token <- current_token ;;
      ty <- get_type token ;;
      if type_in ty ["T_IntConstant"; "T_Identifier"] then
        value <- get_value token ;;
        consume ;;;
        ret (Some ("FieldAccess: " ++ value))
      else if (ty =? "T_Add") || (ty =? "T_Sub") then
        operator <- get_value token ;;
        consume ;;;
        left <- parse_expression fuel' ;;
        right <- parse_expression fuel' ;;
        ret (Some (binary "ArithmeticExpr" operator left right))
      else if (ty =? "T_And") || (ty =? "T_Or") then
        operator <- get_value token ;;
        consume ;;;
        left <- parse_expression fuel' ;;
        right <- parse_expression fuel' ;;
        ret (Some (binary "LogicalExpr" operator left right))
      else if (ty =? "T_LessEqual") || (ty =? "T_Equal") then
        operator <- get_value token ;;
        consume ;;;
        left <- parse_expression fuel' ;;
        right <- parse_expression fuel' ;;
        ret (Some (binary "RelationalExpr" operator left right))
      else if ty =? "T_Not" then
        consume ;;;
        expr <- parse_expression fuel' ;;
        ret (Some ("LogicalExpr: !" ++ nl ++ "            " ++ fmt expr))
      else ret None
  end.

Definition parse_return (fuel : nat) : M string :=
  consume ;;;
  expression <- parse_expression fuel ;;
  ret (nl ++ "        Return:" ++ nl ++ "            " ++ fmt expression).

Definition parse_print (fuel : nat) : M string :=
  consume ;;;
  expression <- parse_expression fuel ;;
  ret (nl ++ "        Print:" ++ nl ++ "            " ++ fmt expression).

Definition parse_expression_statement (fuel : nat) : M (option string) :=
  left <- parse_expression fuel ;;
  token <- current_token ;;
  ty <- get_type token ;;
  if ty =? "T_Assign" then
    consume ;;;
    right <- parse_expression fuel ;;
    ret (Some (nl ++ "        ExpressionStatement:" ++ nl
               ++ "            AssignExpr: =" ++ nl
               ++ "                " ++ fmt left ++ nl
               ++ "                " ++ fmt right))
  else ret left.

(** The text of an [IfElse] node. *)
Definition if_else_text (condition : option string) (block else_block : string)
  : string :=
  nl ++ "        IfElse:" ++ nl ++ "            " ++ fmt condition ++ nl
     ++ "            Block:" ++ nl ++ block ++ nl
     ++ "            Block:" ++ nl ++ else_block.

(** The [while] loop of [parse_function] over the parameters, with the string
    built so far.  A token that is neither [T_RParen] nor a parameter type is
    not consumed, and the loop meets it again. *)
Fixpoint parse_parameters (fuel : nat) (function : string) : M string :=
  match fuel with
  | 0 => out_of_fuel
  | S fuel' =>
      token <- current_token ;;
      if present_and_not "T_RParen" token then
        ty <- get_type token ;;
        if type_in ty ["T_Int"; "T_Bool"] then
          consume ;;;
          name_token <- current_token ;;
          parameter_name <- get_value name_token ;;
          consume ;;;
          let function :=
            function ++ nl ++ "        Parameter: t_" ++ str_lower ty ++ " "
                     ++ parameter_name in
          next <- current_token ;;
          next_ty <- get_type next ;;
          if next_ty =? "T_Comma" then
            consume ;;;
            parse_parameters fuel' function
          else parse_parameters fuel' function
        else parse_parameters fuel' function
      else ret function
  end.

(** The productions that call each other through [parse_block];
    [parse_statements] is the [while] loop of [parse_block], with the string
    built so far. *)
Fixpoint parse_declaration_or_function (fuel : nat) : M (option string) :=
  match fuel with
  | 0 => out_of_fuel
  | S fuel' =>
      token <- current_token ;;
      ty <- get_type token ;;
      if type_in ty ["T_Int"; "T_Void"] then
        consume ;;;
        identifier <- current_token ;;
        consume ;;;
        token <- current_token ;;
        ty <- get_type token ;;
        if ty =? "T_LParen" then
          name <- get_value identifier ;;
          function <- parse_function fuel' name ;;
          ret (Some function)
        else if ty =? "T_Semicolon" then
          consume ;;;
          name <- get_value identifier ;;
          ret (Some (nl ++ "    Declaration: " ++ name))
        else ret None
      else ret None
  end

with parse_function (fuel : nat) (name : string) : M string :=
  match fuel with
  | 0 => out_of_fuel
  | S fuel' =>
      let function := nl ++ "    Function: " ++ name in
      consume ;;;
      function <- parse_parameters fuel' function ;;
      consume ;;;
      token <- current_token ;;
      if present_and "T_LBrace" token then
        block <- parse_block fuel' ;;
        ret (function ++ block)
      else ret function
  end

with parse_block (fuel : nat) : M string :=
  match fuel with
  | 0 => out_of_fuel
  | S fuel' =>
      consume ;;;
      block <- parse_statements fuel' "" ;;
      consume ;;;
      ret block
  end

with parse_statements (fuel : nat) (block : string) : M string :=
  match fuel with
  | 0 => out_of_fuel
  | S fuel' =>
      token <- current_token ;;
      if present_and_not "T_RBrace" token then
        ty <- get_type token ;;
        block <-
          (if type_in ty ["T_Int"; "T_Void"] then
             piece <- parse_declaration_or_function fuel' ;;
             add_str block piece
           else if ty =? "T_If" then
             piece <- parse_if_else fuel' ;;
             ret (block ++ piece)
           else if ty =? "T_Return" then
             piece <- parse_return fuel' ;;
             ret (block ++ piece)
           else if ty =? "T_Print" then
             piece <- parse_print fuel' ;;
             ret (block ++ piece)
           else if ty =? "T_Identifier" then
             piece <- parse_expression_statement fuel' ;;
             add_str block piece
           else ret block) ;;
        consume ;;;
        parse_statements fuel' block
      else ret block
  end

with parse_if_else (fuel : nat) : M string :=
  match fuel with
  | 0 => out_of_fuel
  | S fuel' =>
      consume ;;;
      condition <- parse_expression fuel' ;;
      block <- parse_block fuel' ;;
      token <- current_token ;;
      if present_and "T_Else" token then
        consume ;;;
        else_block <- parse_block fuel' ;;
        ret (if_else_text condition block else_block)
      else ret (if_else_text condition block "")
  end.

(** The [while] loop of [parse], with [program] built so far. *)
Fixpoint parse_program (fuel : nat) (program : string) : M string :=
  match fuel with
  | 0 => out_of_fuel
  | S fuel' =>
      token <- current_token ;;
      match token with
      | Some t =>
          if type_in (type t) ["T_Int"; "T_Void"] then
            piece <- parse_declaration_or_function fuel' ;;
            program <- add_str program piece ;;
            parse_program fuel' program
          else
            consume ;;;
            parse_program fuel' program
      | None => ret program
      end
  end.

End WithTokens.

(** [Parser(tokens).parse()]: the text of the tree and the final cursor. *)
Definition parse (fuel : nat) (tokens : list Token) : outcome (string * nat) :=
  parse_program tokens fuel "Program:" 0.

End Parser.

(** ** The parser under the recursion limit *)

(** The productions of [Parser] describe a run for which the stack of the
    interpreter is deep enough.  Here they are again with the limit: every
    method takes the number of [frames] that still fit on the stack when it is
    called.  A call with no frame left raises [RecursionError]; otherwise the
    body runs, and the calls it makes find one frame less.  Only calls of the
    methods of [Parser] count, as in CPython from 3.12 on; earlier versions
    may also count a builtin ([len], a comparison, [str.lower]) while it runs,
    one level more at the innermost call, and the theorems that promise a
    result leave one frame to spare for it.  With the limit bounding the
    recursion, the budget [fuel] is left to bound the turns of each [while]
    loop. *)
Module Limited.
Import Lexer Parser.

Section WithTokens.

Variable tokens : list Token.

(** The turns allowed to each [while] loop, a budget of the model alone. *)
Variable fuel : nat.

Definition current_token (frames : nat) : M (option Token) :=
  match frames with
  | 0 => raise RecursionError
  | S _ => Parser.current_token tokens
  end.

Definition consume (frames : nat) : M unit :=
  match frames with
  | 0 => raise RecursionError
  | S _ => Parser.consume
  end.

Fixpoint parse_expression (frames : nat) : M (option string) :=
  match frames with
  | 0 => raise RecursionError
  | S below =>
      token <- current_token below ;;
      ty <- get_type token ;;
      if type_in ty ["T_IntConstant"; "T_Identifier"] then
        value <- get_value token ;;
        consume below ;;;
        ret (Some ("FieldAccess: " ++ value))
      else if (ty =? "T_Add") || (ty =? "T_Sub") then
        operator <- get_value token ;;
        consume below ;;;
        left <- parse_expression below ;;
        right <- parse_expression below ;;
        ret (Some (binary "ArithmeticExpr" operator left right))
      else if (ty =? "T_And") || (ty =? "T_Or") then
        operator <- get_value token ;;
        consume below ;;;
        left <- parse_expression below ;;
        right <- parse_expression below ;;
        ret (Some (binary "LogicalExpr" operator left right))
      else if (ty =? "T_LessEqual") || (ty =? "T_Equal") then
        operator <- get_value token ;;
        consume below ;;;
        left <- parse_expression below ;;
        right <- parse_expression below ;;
        ret (Some (binary "RelationalExpr" operator left right))
      else if ty =? "T_Not" then
        consume below ;;;
        expr <- parse_expression below ;;
        ret (Some ("LogicalExpr: !" ++ nl ++ "            " ++ fmt expr))
      else ret None
  end.

Definition parse_return (frames : nat) : M string :=
  match frames with
  | 0 => raise RecursionError
  | S below =>
      consume below ;;;
      expression <- parse_expression below ;;
      ret (nl ++ "        Return:" ++ nl ++ "            " ++ fmt expression)
  end.

Definition parse_print (frames : nat) : M string :=
  match frames with
  | 0 => raise RecursionError
  | S below =>
      consume below ;;;
      expression <- parse_expression below ;;
      ret (nl ++ "        Print:" ++ nl ++ "            " ++ fmt expression)
  end.

Definition parse_expression_statement (frames : nat) : M (option string) :=
  match frames with
  | 0 => raise RecursionError
  | S below =>
      left <- parse_expression below ;;
      token <- current_token below ;;
      ty <- get_type token ;;
      if ty =? "T_Assign" then
        consume below ;;;
        right <- parse_expression below ;;
        ret (Some (nl ++ "        ExpressionStatement:" ++ nl
                   ++ "            AssignExpr: =" ++ nl
                   ++ "                " ++ fmt left ++ nl
                   ++ "                " ++ fmt right))
      else ret left
  end.

(** The [while] loop of [parse_function] over the parameters; [below] is the
    number of frames the calls of [parse_function] find. *)
Fixpoint parse_parameters (below turns : nat) (function : string) : M string :=
  match turns with
  | 0 => out_of_fuel
  | S turns' =>
      token <- current_token below ;;
      if present_and_not "T_RParen" token then
        ty <- get_type token ;;
        if type_in ty ["T_Int"; "T_Bool"] then
          consume below ;;;
          name_token <- current_token below ;;
          parameter_name <- get_value name_token ;;
          consume below ;;;
          let function :=
            function ++ nl ++ "        Parameter: t_" ++ str_lower ty ++ " "
                     ++ parameter_name in
          next <- current_token below ;;
          next_ty <- get_type next ;;
          if next_ty =? "T_Comma" then
            consume below ;;;
            parse_parameters below turns' function
          else parse_parameters below turns' function
        else parse_parameters below turns' function
      else ret function
  end.

(** The statement the loop of [parse_block] runs on a token of type [ty],
    added to [block]; [declaration] and [if_else] are the calls of the two
    productions that come back to [parse_block]. *)
Definition statement (declaration : M (option string)) (if_else : M string)
    (below : nat) (ty block : string) : M string :=
  if type_in ty ["T_Int"; "T_Void"] then
    piece <- declaration ;;
    add_str block piece
  else if ty =? "T_If" then
    piece <- if_else ;;
    ret (block ++ piece)
  else if ty =? "T_Return" then
    piece <- parse_return below ;;
    ret (block ++ piece)
  else if ty =? "T_Print" then
    piece <- parse_print below ;;
    ret (block ++ piece)
  else if ty =? "T_Identifier" then
    piece <- parse_expression_statement below ;;
    add_str block piece
  else ret block.

(** The [while] loop of [parse_block], with the string built so far. *)
Fixpoint parse_statements (run : string -> string -> M string)
    (below turns : nat) (block : string) : M string :=
  match turns with
  | 0 => out_of_fuel
  | S turns' =>
      token <- current_token below ;;
      if present_and_not "T_RBrace" token then
        ty <- get_type token ;;
        block <- run ty block ;;
        consume below ;;;
        parse_statements run below turns' block
      else ret block
  end.

Fixpoint parse_declaration_or_function (frames : nat) : M (option string) :=
  match frames with
  | 0 => raise RecursionError
  | S below =>
      token <- current_token below ;;
      ty <- get_type token ;;
      if type_in ty ["T_Int"; "T_Void"] then
        consume below ;;;
        identifier <- current_token below ;;
        consume below ;;;
        token <- current_token below ;;
        ty <- get_type token ;;
        if ty =? "T_LParen" then
          name <- get_value identifier ;;
          function <- parse_function below name ;;
          ret (Some function)
        else if ty =? "T_Semicolon" then
          consume below ;;;
          name <- get_value identifier ;;
          ret (Some (nl ++ "    Declaration: " ++ name))
        else ret None
      else ret None
  end

with parse_function (frames : nat) (name : string) : M string :=
  match frames with
  | 0 => raise RecursionError
  | S below =>
      let function := nl ++ "    Function: " ++ name in
      consume below ;;;
      function <- parse_parameters below fuel function ;;
      consume below ;;;
      token <- current_token below ;;
      if present_and "T_LBrace" token then
        block <- parse_block below ;;
        ret (function ++ block)
      else ret function
  end

with parse_block (frames : nat) : M string :=
  match frames with
  | 0 => raise RecursionError
  | S below =>
      consume below ;;;
      block <- parse_statements
                 (statement (parse_declaration_or_function below)
                            (parse_if_else below) below)
                 below fuel "" ;;
      consume below ;;;
      ret block
  end

with parse_if_else (frames : nat) : M string :=
  match frames with
  | 0 => raise RecursionError
  | S below =>
      consume below ;;;
      condition <- parse_expression below ;;
      block <- parse_block below ;;
      token <- current_token below ;;
      if present_and "T_Else" token then
        consume below ;;;
        else_block <- parse_block below ;;
        ret (if_else_text condition block else_block)
      else ret (if_else_text condition block "")
  end.

(** The [while] loop of [parse], with [program] built so far. *)
Fixpoint parse_program (below turns : nat) (program : string) : M string :=
  match turns with
  | 0 => out_of_fuel
  | S turns' =>
      token <- current_token below ;;
      match token with
      | Some t =>
          if type_in (type t) ["T_Int"; "T_Void"] then
            piece <- parse_declaration_or_function below ;;
            program <- add_str program piece ;;
            parse_program below turns' program
          else
            consume below ;;;
            parse_program below turns' program
      | None => ret program
      end
  end.

End WithTokens.

(** [Parser(tokens).parse()], called where [frames] more calls can nest. *)
Definition parse (fuel frames : nat) (tokens : list Token)
  : outcome (string * nat) :=
  match frames with
  | 0 => Raise RecursionError
  | S below => parse_program tokens fuel below fuel "Program:" 0
  end.

End Limited.

Import Lexer Parser.

(** ** Notions the properties are stated with *)

Definition dq : string := String DQUOTE "".

(** Space, tab and line feed: the characters of the two discarded patterns. *)
Definition is_space (c : ascii) : bool := is_blank c || Ascii.eqb c LF.

(** The text with its spaces, tabs and line feeds removed. *)
Definition remove_whitespace (s : string) : string :=
  str_filter (fun c => negb (is_space c)) s.

(** The text with the spaces, tabs and line feeds that stand outside double
    quotes removed; [inside] tells whether an opening quote is pending. *)
Fixpoint strip_outside (inside : bool) (s : string) : string :=
  match s with
  | "" => ""
  | String c s' =>
      if Ascii.eqb c DQUOTE then String c (strip_outside (negb inside) s')
      else if inside then String c (strip_outside inside s')
      else if is_space c then strip_outside inside s'
      else String c (strip_outside inside s')
  end.

(** The [value] fields of the tokens, joined in order. *)
Definition concat_values (tokens : list Token) : string :=
  fold_right (fun t acc => value t ++ acc) "" tokens.

(** No position of the text falls to the catch-all pattern. *)
Definition mismatch_free (code : string) : Prop :=
  Forall (fun mo => lastgroup mo <> "MISMATCH") (finditer code).

Definition is_lf (c : ascii) : bool := Ascii.eqb c LF.

(** The 1-based number of the line that holds the character at [offset]:
    one more than the line feeds before it. *)
Definition source_line (code : string) (offset : nat) : nat :=
  1 + str_count is_lf (str_take offset code).

(** The first match of the catch-all pattern, if any. *)
Definition first_mismatch (code : string) : option Match :=
  find (fun mo => lastgroup mo =? "MISMATCH") (finditer code).

(** Source order of two tokens: by line, then by start column. *)
Definition position_lt (a b : Token) : Prop :=
  line a < line b \/ (line a = line b /\ start_col a < start_col b).

(** The token types on which [parse_expression] builds a node. *)
Definition starts_expression (ty : string) : bool :=
  type_in ty ["T_IntConstant"; "T_Identifier"; "T_Add"; "T_Sub"; "T_And";
              "T_Or"; "T_LessEqual"; "T_Equal"; "T_Not"].

(** Top-level input made of tokens that [parse] skips and of declarations
    (a type keyword, one more token read as the name, a semicolon). *)
Inductive top_item : Type :=
| Skipped (t : Token)
| Declared (ty name semi : Token).

Definition item_ok (it : top_item) : Prop :=
  match it with
  | Skipped t => type_in (type t) ["T_Int"; "T_Void"] = false
  | Declared ty _ semi =>
      type_in (type ty) ["T_Int"; "T_Void"] = true /\ type semi = "T_Semicolon"
  end.

Definition item_tokens (it : top_item) : list Token :=
  match it with
  | Skipped t => [t]
  | Declared ty name semi => [ty; name; semi]
  end.

Definition item_text (it : top_item) : string :=
  match it with
  | Skipped _ => ""
  | Declared _ name _ => nl ++ "    Declaration: " ++ value name
  end.

Definition items_tokens (items : list top_item) : list Token :=
  flat_map item_tokens items.

Definition items_text (items : list top_item) : string :=
  fold_right (fun it acc => item_text it ++ acc) "" items.

(** The characters of the operator and punctuation patterns. *)
Definition is_op_char (c : ascii) : bool :=
  existsb (Ascii.eqb c)
    ["="; "<"; ">"; "+"; "-"; "*"; "/"; "%"; "&"; "|"; "!"; ";"; ",";
     "("; ")"; "{"; "}"]%char.

(** The characters a token other than a string constant is made of. *)
Definition is_token_char (c : ascii) : bool := is_word c || is_op_char c.

Definition str_mem (c : ascii) (s : string) : bool :=
  negb (str_forall (fun x => negb (Ascii.eqb x c)) s).

(** The names of the patterns that give a token. *)
Definition token_names : list string :=
  filter (fun name => negb (type_in name ["WHITESPACE"; "NEWLINE"; "MISMATCH"]))
         (map fst token_specification).

(** What the text of a match looks like, by the pattern that matched. *)
Definition lexeme_class (kind lexeme : string) : Prop :=
  if kind =? "NEWLINE" then lexeme = nl
  else if kind =? "WHITESPACE" then
    lexeme <> "" /\ str_forall is_blank lexeme = true
  else if kind =? "MISMATCH" then
    exists c, lexeme = String c "" /\ c <> LF
  else if kind =? "T_StringConstant" then
    exists body,
      lexeme = dq ++ body ++ dq /\ str_forall not_dquote body = true
  else
    In kind token_names /\ lexeme <> ""
    /\ str_forall is_token_char lexeme = true.

(** The texts of the matches, joined: the part of the input they cover. *)
Definition covered (ms : list Match) : string :=
  fold_right (fun mo acc => group mo ++ acc) "" ms.

(** The tokens the loop of [tokenize] appends while it meets no mismatch. *)
Fixpoint emitted (ms : list Match) (line current_position : nat) : list Token :=
  match ms with
  | [] => []
  | mo :: ms' =>
      if lastgroup mo =? "NEWLINE" then emitted ms' (line + 1) (mend mo)
      else if lastgroup mo =? "WHITESPACE" then emitted ms' line current_position
      else
        mkToken (lastgroup mo) (group mo) line
                (mstart mo - current_position + 1) (mend mo - current_position)
        :: emitted ms' line current_position
  end.

(** Matches that follow each other without a gap from offset [pos] on. *)
Fixpoint contiguous (pos : nat) (ms : list Match) : Prop :=
  match ms with
  | [] => True
  | mo :: ms' =>
      mstart mo = pos /\ mend mo = pos + String.length (group mo)
      /\ contiguous (mend mo) ms'
  end.

(** Whether a carriage return stands outside double quotes; [inside] tells
    whether an opening quote is pending. *)
Fixpoint cr_outside (inside : bool) (s : string) : bool :=
  match s with
  | "" => false
  | String c s' =>
      if Ascii.eqb c DQUOTE then cr_outside (negb inside) s'
      else if inside then cr_outside inside s'
      else Ascii.eqb c CR || cr_outside inside s'
  end.

(** The offset of the first carriage return outside double quotes. *)
Fixpoint first_cr_outside (inside : bool) (s : string) : option nat :=
  match s with
  | "" => None
  | String c s' =>
      if Ascii.eqb c DQUOTE then option_map S (first_cr_outside (negb inside) s')
      else if inside then option_map S (first_cr_outside inside s')
      else if Ascii.eqb c CR then Some 0
      else option_map S (first_cr_outside inside s')
  end.

(** The number of line feeds outside double quotes: the line feeds the
    [NEWLINE] pattern can meet. *)
Fixpoint lf_outside (inside : bool) (s : string) : nat :=
  match s with
  | "" => 0
  | String c s' =>
      if Ascii.eqb c DQUOTE then lf_outside (negb inside) s'
      else if inside then lf_outside inside s'
      else (if is_lf c then 1 else 0) + lf_outside inside s'
  end.

(** The offsets at which the emitted tokens start. *)
Definition token_offsets (ms : list Match) : list nat :=
  map mstart
    (filter (fun mo => negb (type_in (lastgroup mo) ["NEWLINE"; "WHITESPACE"])) ms).

(** The characters of the one-character operator and punctuation
    patterns. *)
Definition is_single_op (c : ascii) : bool :=
  existsb (Ascii.eqb c)
    ["="; "<"; ">"; "+"; "-"; "*"; "/"; "%"; "!"; ";"; ",";
     "("; ")"; "{"; "}"]%char.

(** Characters at which some pattern other than the catch-all matches,
    whatever stands around them. *)
Definition is_safe_char (c : ascii) : bool :=
  is_ident_start c || is_digit c || is_single_op c || is_blank c || is_lf c.

(** [token_specification] without its last entry. *)
Definition proper_patterns : list (string * matcher) :=
  removelast token_specification.

(** [later] does what [now] does wherever [now] is not cut off by the
    recursion budget. *)
Definition settles {A : Type} (now later : M A) : Prop :=
  forall position, now position <> OutOfFuel -> later position = now position.

(** The shape every token of a scan has: a line and a start column from 1
    on, and a column span as wide as its text. *)
Definition well_placed (t : Token) : Prop :=
  1 <= line t /\ 1 <= start_col t
  /\ end_col t + 1 = start_col t + String.length (value t).

Definition is_dquote (c : ascii) : bool := Ascii.eqb c DQUOTE.

(** The 1-based column of the character at [offset]: one more than the
    characters between the last line feed before it and itself. *)
Fixpoint column_after (s : string) (acc : nat) : nat :=
  match s with
  | "" => acc
  | String c s' => if is_lf c then column_after s' 0 else column_after s' (S acc)
  end.

Definition source_column (code : string) (offset : nat) : nat :=
  1 + column_after (str_take offset code) 0.

(** The reserved words, with the names of their patterns. *)
Definition keywords : list (string * string) :=
  [("T_Void", "void"); ("T_Int", "int"); ("T_Bool", "bool"); ("T_If", "if");
   ("T_For", "for"); ("T_Return", "return"); ("T_Print", "Print")].

(** [m] returns only with the cursor at least [k] tokens further. *)
Definition advances_by {A : Type} (k : nat) (m : M A) : Prop :=
  forall position a position',
    m position = Ok (a, position') -> position + k <= position'.

(** Expressions in the form [parse_expression] reads: the operator first,
    then its operands. *)
Inductive expr : Type :=
| Leaf (t : Token)
| Binary (op : Token) (left right : expr)
| Negation (op : Token) (operand : expr).

(** The label of the node a binary operator token gives. *)
Definition operator_label (ty : string) : string :=
  if (ty =? "T_Add") || (ty =? "T_Sub") then "ArithmeticExpr"
  else if (ty =? "T_And") || (ty =? "T_Or") then "LogicalExpr"
  else "RelationalExpr".

Fixpoint expr_ok (e : expr) : Prop :=
  match e with
  | Leaf t => In (type t) ["T_IntConstant"; "T_Identifier"]
  | Binary op l r =>
      In (type op) ["T_Add"; "T_Sub"; "T_And"; "T_Or"; "T_LessEqual"; "T_Equal"]
      /\ expr_ok l /\ expr_ok r
  | Negation op e' => type op = "T_Not" /\ expr_ok e'
  end.

Fixpoint expr_tokens (e : expr) : list Token :=
  match e with
  | Leaf t => [t]
  | Binary op l r => op :: (expr_tokens l ++ expr_tokens r)%list
  | Negation op e' => op :: expr_tokens e'
  end.

Fixpoint expr_text (e : expr) : string :=
  match e with
  | Leaf t => "FieldAccess: " ++ value t
  | Binary op l r =>
      binary (operator_label (type op)) (value op)
             (Some (expr_text l)) (Some (expr_text r))
  | Negation _ e' => "LogicalExpr: !" ++ nl ++ "            " ++ expr_text e'
  end.

Fixpoint expr_depth (e : expr) : nat :=
  match e with
  | Leaf _ => 0
  | Binary _ l r => S (Nat.max (expr_depth l) (expr_depth r))
  | Negation _ e' => S (expr_depth e')
  end.

(** A parameter as [parse_function] reads it: a type token, one more token
    read as the name, and a comma or not. *)
Record parameter : Type := mkParameter {
  p_type : Token;
  p_name : Token;
  p_comma : option Token
}.

Definition parameter_ok (p : parameter) : Prop :=
  In (type (p_type p)) ["T_Int"; "T_Bool"]
  /\ match p_comma p with
     | Some c => type c = "T_Comma"
     | None => True
     end.

Definition parameter_tokens (p : parameter) : list Token :=
  p_type p :: p_name p
    :: match p_comma p with
       | Some c => [c]
       | None => []
       end.

Definition parameter_text (p : parameter) : string :=
  nl ++ "        Parameter: t_" ++ str_lower (type (p_type p)) ++ " "
     ++ value (p_name p).

Definition parameters_tokens (ps : list parameter) : list Token :=
  flat_map parameter_tokens ps.

Definition parameters_text (ps : list parameter) : string :=
  fold_right (fun p acc => parameter_text p ++ acc) "" ps.

(** Statements in the form [parse_block] reads them.  After every
    statement the loop consumes one more token, whatever it is: the
    [terminator] of a return, print or expression statement, and the token
    [after] the closing bracket of an [if] block or the semicolon of a
    declaration. *)
Inductive stmt : Type :=
| SReturn (kw : Token) (e : expr) (terminator : Token)
| SPrint (kw : Token) (e : expr) (terminator : Token)
| SAssign (x eq : Token) (e : expr) (terminator : Token)
| SBare (x terminator : Token)
| SIgnored (t : Token)
| SIf (kw : Token) (cond : expr) (lbrace : Token) (body : stmts)
      (rbrace after : Token)
| SDecl (ty name semi after : Token)
with stmts : Type :=
| SNil
| SCons (s : stmt) (rest : stmts).

Fixpoint stmt_ok (s : stmt) : Prop :=
  match s with
  | SReturn kw e _ => type kw = "T_Return" /\ expr_ok e
  | SPrint kw e _ => type kw = "T_Print" /\ expr_ok e
  | SAssign x eq e _ =>
      type x = "T_Identifier" /\ type eq = "T_Assign" /\ expr_ok e
  | SBare x terminator =>
      type x = "T_Identifier" /\ type terminator <> "T_Assign"
  | SIgnored t =>
      type_in (type t)
        ["T_RBrace"; "T_Int"; "T_Void"; "T_If"; "T_Return"; "T_Print";
         "T_Identifier"] = false
  | SIf kw cond _ body rbrace after =>
      type kw = "T_If" /\ expr_ok cond /\ stmts_ok body
      /\ type rbrace = "T_RBrace" /\ type after <> "T_Else"
  | SDecl ty _ semi _ =>
      In (type ty) ["T_Int"; "T_Void"] /\ type semi = "T_Semicolon"
  end
with stmts_ok (ss : stmts) : Prop :=
  match ss with
  | SNil => True
  | SCons s rest => stmt_ok s /\ stmts_ok rest
  end.

Fixpoint stmt_tokens (s : stmt) : list Token :=
  match s with
  | SReturn kw e terminator => kw :: (expr_tokens e ++ [terminator])%list
  | SPrint kw e terminator => kw :: (expr_tokens e ++ [terminator])%list
  | SAssign x eq e terminator =>
      x :: eq :: (expr_tokens e ++ [terminator])%list
  | SBare x terminator => [x; terminator]
  | SIgnored t => [t]
  | SIf kw cond lbrace body rbrace after =>
      kw :: (expr_tokens cond
             ++ lbrace :: (stmts_tokens body ++ [rbrace; after]))%list
  | SDecl ty name semi after => [ty; name; semi; after]
  end
with stmts_tokens (ss : stmts) : list Token :=
  match ss with
  | SNil => []
  | SCons s rest => (stmt_tokens s ++ stmts_tokens rest)%list
  end.

(** What a statement adds to the text of its block. *)
Fixpoint stmt_text (s : stmt) : string :=
  match s with
  | SReturn _ e _ =>
      nl ++ "        Return:" ++ nl ++ "            " ++ expr_text e
  | SPrint _ e _ =>
      nl ++ "        Print:" ++ nl ++ "            " ++ expr_text e
  | SAssign x _ e _ =>
      nl ++ "        ExpressionStatement:" ++ nl
         ++ "            AssignExpr: =" ++ nl
         ++ "                " ++ ("FieldAccess: " ++ value x) ++ nl
         ++ "                " ++ expr_text e
  | SBare x _ => "FieldAccess: " ++ value x
  | SIgnored _ => ""
  | SIf _ cond _ body _ _ =>
      if_else_text (Some (expr_text cond)) (stmts_text body) ""
  | SDecl _ name _ _ => nl ++ "    Declaration: " ++ value name
  end
with stmts_text (ss : stmts) : string :=
  match ss with
  | SNil => ""
  | SCons s rest => stmt_text s ++ stmts_text rest
  end.

(** The frames the calls of [parse_block] must find for a statement, and for
    a list of statements: every nested call takes one, down to the innermost
    [current_token] or [consume]. *)
Fixpoint stmt_frames (s : stmt) : nat :=
  match s with
  | SReturn _ e _ => expr_depth e + 3
  | SPrint _ e _ => expr_depth e + 3
  | SAssign _ _ e _ => expr_depth e + 3
  | SBare _ _ => 3
  | SIgnored _ => 1
  | SIf _ cond _ body _ _ =>
      S (Nat.max (expr_depth cond + 2) (S (stmts_frames body)))
  | SDecl _ _ _ _ => 2
  end
with stmts_frames (ss : stmts) : nat :=
  match ss with
  | SNil => 1
  | SCons s rest => Nat.max (stmt_frames s) (stmts_frames rest)
  end.

Scheme stmt_stmts_ind := Induction for stmt Sort Prop
  with stmts_stmt_ind := Induction for stmts Sort Prop.

Combined Scheme stmt_mutual_ind from stmt_stmts_ind, stmts_stmt_ind.

(** The units of a program [parse] reads: a skipped token, a declaration, a
    function with its parameters and its block, and a function without a
    block, with the token that follows its [)]. *)
Inductive unit_item : Type :=
| USkip (t : Token)
| UDecl (ty name semi : Token)
| UFunction (ty name lparen : Token) (ps : list parameter)
            (rparen lbrace : Token) (body : stmts) (rbrace : Token)
| UPrototype (ty name lparen : Token) (ps : list parameter)
             (rparen after : Token).

Definition unit_ok (u : unit_item) : Prop :=
  match u with
  | USkip t => type_in (type t) ["T_Int"; "T_Void"] = false
  | UDecl ty _ semi =>
      type_in (type ty) ["T_Int"; "T_Void"] = true /\ type semi = "T_Semicolon"
  | UFunction ty _ lparen ps rparen lbrace body rbrace =>
      type_in (type ty) ["T_Int"; "T_Void"] = true
      /\ type lparen = "T_LParen" /\ Forall parameter_ok ps
      /\ type rparen = "T_RParen" /\ type lbrace = "T_LBrace"
      /\ stmts_ok body /\ type rbrace = "T_RBrace"
  | UPrototype ty _ lparen ps rparen after =>
      type_in (type ty) ["T_Int"; "T_Void"] = true
      /\ type lparen = "T_LParen" /\ Forall parameter_ok ps
      /\ type rparen = "T_RParen"
      /\ type_in (type after) ["T_LBrace"; "T_Int"; "T_Void"] = false
  end.

Definition unit_tokens (u : unit_item) : list Token :=
  match u with
  | USkip t => [t]
  | UDecl ty name semi => [ty; name; semi]
  | UFunction ty name lparen ps rparen lbrace body rbrace =>
      ty :: name :: lparen
         :: (parameters_tokens ps
             ++ rparen :: lbrace :: (stmts_tokens body ++ [rbrace]))%list
  | UPrototype ty name lparen ps rparen after =>
      ty :: name :: lparen :: (parameters_tokens ps ++ [rparen; after])%list
  end.

Definition unit_text (u : unit_item) : string :=
  match u with
  | USkip _ => ""
  | UDecl _ name _ => nl ++ "    Declaration: " ++ value name
  | UFunction _ name _ ps _ _ body _ =>
      nl ++ "    Function: " ++ value name ++ parameters_text ps
         ++ stmts_text body
  | UPrototype _ name _ ps _ _ =>
      nl ++ "    Function: " ++ value name ++ parameters_text ps
  end.

(** The frames the calls of [parse] must find for a unit. *)
Definition unit_frames (u : unit_item) : nat :=
  match u with
  | USkip _ => 1
  | UDecl _ _ _ => 2
  | UFunction _ _ _ _ _ _ body _ => 3 + stmts_frames body
  | UPrototype _ _ _ _ _ _ => 3
  end.

Definition units_tokens (us : list unit_item) : list Token :=
  flat_map unit_tokens us.

Definition units_text (us : list unit_item) : string :=
  fold_right (fun u acc => unit_text u ++ acc) "" us.

Definition units_frames (us : list unit_item) : nat :=
  fold_right (fun u acc => Nat.max (unit_frames u) acc) 1 us.

(** The loop of [Limited.parse_block], as [parse_block] runs it where its
    calls find [below] frames. *)
Definition block_loop (tokens : list Token) (fuel below : nat)
  : nat -> string -> M string :=
  Limited.parse_statements tokens
    (Limited.statement tokens
       (Limited.parse_declaration_or_function tokens fuel below)
       (Limited.parse_if_else tokens fuel below) below)
    below.


(** [reference] does what [limited] does, wherever [limited] neither raises
    [RecursionError] nor is cut off by the budget of a loop. *)
Definition within_limit {A : Type} (limited reference : M A) : Prop :=
  forall position,
    limited position <> Raise RecursionError ->
    limited position <> OutOfFuel ->
    reference position = limited position.

(** A budget of [Parser] that covers [frames] nested calls, each with a loop
    of at most [fuel] turns. *)
Definition covering (fuel frames : nat) : nat := frames * (fuel + 1).

(** * Properties *)

(** ** Worked inputs *)

Example tokenize_declaration : tokenize "int x;" =
  Tokens [mkToken "T_Int" "int" 1 1 3; mkToken "T_Identifier" "x" 1 5 5;
          mkToken "T_Semicolon" ";" 1 6 6].
Proof. vm_compute. reflexivity. Qed.

(** A keyword glued to a number is not at a word boundary: it is an
    identifier. *)
Example tokenize_keyword_after_digit : tokenize "1int" =
  Tokens [mkToken "T_IntConstant" "1" 1 1 1; mkToken "T_Identifier" "int" 1 2 4].
Proof. vm_compute. reflexivity. Qed.

(** C4: tokenizing the two characters [<=] gives exactly one token, of type
    [T_LessEqual] and text [<=], on line 1, columns 1 to 2; the
    two-character comparison pattern stands before [T_Less] and [T_Assign] in
    [token_specification] and so decides. *)
Theorem C4_less_equal_is_one_token :
  tokenize "<=" = Tokens [mkToken "T_LessEqual" "<=" 1 1 2]
  /\ token_regex None "<=" = Some ("T_LessEqual", "<=", "")
  /\ lit "<" None "<=" = Some ("<", "=").
Proof. repeat split; vm_compute; reflexivity. Qed.

(** C5: on the tokens [+], [a], [1] (an operator token, an identifier token,
    an integer token, whatever their positions and whatever follows)
    [parse_expression] gives the [ArithmeticExpr] text for [+] with
    [FieldAccess: a] as its left operand and [FieldAccess: 1] as its right
    operand, that is the line [ArithmeticExpr: +] with the two [FieldAccess]
    lines under it in this order, and leaves the cursor after the three
    tokens. *)
Theorem C5_prefix_arithmetic :
  forall (l1 s1 e1 l2 s2 e2 l3 s3 e3 : nat) (rest : list Token) (fuel : nat),
    parse_expression
      (mkToken "T_Add" "+" l1 s1 e1 :: mkToken "T_Identifier" "a" l2 s2 e2
         :: mkToken "T_IntConstant" "1" l3 s3 e3 :: rest)
      (2 + fuel) 0
    = Ok (Some (binary "ArithmeticExpr" "+"
                  (Some "FieldAccess: a") (Some "FieldAccess: 1")), 3)
    /\ binary "ArithmeticExpr" "+" (Some "FieldAccess: a") (Some "FieldAccess: 1")
       = "ArithmeticExpr: +" ++ nl ++ "            FieldAccess: a"
           ++ nl ++ "            FieldAccess: 1".
Proof. intros. split; reflexivity. Qed.

(** C6: the source [void f(int a, bool b) { return a; }] tokenizes into 14
    tokens, and parsing them gives [Program:] with one [Function: f] line, the
    two parameter lines in source order (the first for [int a], the second for
    [bool b]; the type is shown as the lowered token type after [t_]) and one
    [Return:] line over [FieldAccess: a]; all 14 tokens are consumed. *)
Theorem C6_function_with_parameters :
  exists tokens,
    tokenize "void f(int a, bool b) { return a; }" = Tokens tokens
    /\ length tokens = 14
    /\ forall fuel,
         parse (6 + fuel) tokens
         = Ok ("Program:" ++ nl ++ "    Function: f"
                 ++ nl ++ "        Parameter: t_t_int a"
                 ++ nl ++ "        Parameter: t_t_bool b"
                 ++ nl ++ "        Return:"
                 ++ nl ++ "            FieldAccess: a", 14).
Proof.
  eexists. split; [vm_compute; reflexivity|]. split; [reflexivity|].
  intros fuel. reflexivity.
Qed.

(** ** The parser: one step at a time *)

Section ParserSteps.

Variable tokens : list Token.

Lemma type_in_cons (ty name : string) (names : list string) :
  type_in ty (name :: names) = (ty =? name) || type_in ty names.
Proof. reflexivity. Qed.

(** A token that starts no expression: [parse_expression] returns [None] and
    the cursor stays. *)
Lemma parse_expression_absent (fuel position : nat) (t : Token) :
  nth_error tokens position = Some t ->
  starts_expression (type t) = false ->
  parse_expression tokens (S fuel) position = Ok (None, position).
Proof.
  intros Hnth Hstart.
  unfold starts_expression in Hstart.
  repeat (rewrite type_in_cons in Hstart;
          apply orb_false_iff in Hstart; destruct Hstart as [? Hstart]).
  cbn [parse_expression]. unfold bind, current_token.
  rewrite Hnth. cbn [get_type ret].
  repeat rewrite type_in_cons.
  repeat match goal with H : (_ =? _) = false |- _ => rewrite H; clear H end.
  reflexivity.
Qed.

Lemma parse_return_absent (fuel position : nat) (t : Token) :
  nth_error tokens (position + 1) = Some t ->
  starts_expression (type t) = false ->
  parse_return tokens (S fuel) position
  = Ok (nl ++ "        Return:" ++ nl ++ "            None", position + 1).
Proof.
  intros Hnth Hstart. unfold parse_return, bind at 1, consume.
  unfold bind. rewrite (parse_expression_absent fuel _ t Hnth Hstart).
  reflexivity.
Qed.

Lemma parse_print_absent (fuel position : nat) (t : Token) :
  nth_error tokens (position + 1) = Some t ->
  starts_expression (type t) = false ->
  parse_print tokens (S fuel) position
  = Ok (nl ++ "        Print:" ++ nl ++ "            None", position + 1).
Proof.
  intros Hnth Hstart. unfold parse_print, bind at 1, consume.
  unfold bind. rewrite (parse_expression_absent fuel _ t Hnth Hstart).
  reflexivity.
Qed.

(** The top-level loop on a token that is neither [T_Int] nor [T_Void]: one
    token consumed, [program] unchanged. *)
Lemma parse_program_skip (fuel position : nat) (program : string) (t : Token) :
  nth_error tokens position = Some t ->
  type_in (type t) ["T_Int"; "T_Void"] = false ->
  parse_program tokens (S fuel) program position
  = parse_program tokens fuel program (position + 1).
Proof.
  intros Hnth Hty. cbn [parse_program]. unfold bind at 1, current_token.
  rewrite Hnth, Hty. reflexivity.
Qed.

(** The top-level loop at the end of the tokens. *)
Lemma parse_program_done (fuel position : nat) (program : string) :
  nth_error tokens position = None ->
  parse_program tokens (S fuel) program position = Ok (program, position).
Proof.
  intros Hnth. cbn [parse_program]. unfold bind at 1, current_token.
  rewrite Hnth. reflexivity.
Qed.

(** A type keyword, any token, a semicolon: one [Declaration] line. *)
Lemma parse_declaration (fuel position : nat) (ty name semi : Token) :
  nth_error tokens position = Some ty ->
  nth_error tokens (position + 1) = Some name ->
  nth_error tokens (position + 1 + 1) = Some semi ->
  type_in (type ty) ["T_Int"; "T_Void"] = true ->
  type semi = "T_Semicolon" ->
  parse_declaration_or_function tokens (S fuel) position
  = Ok (Some (nl ++ "    Declaration: " ++ value name), position + 1 + 1 + 1).
Proof.
  intros H0 H1 H2 Hty Hsemi.
  cbn [parse_declaration_or_function]. unfold bind, current_token, consume.
  rewrite H0. cbn [get_type ret]. rewrite Hty, H1, H2. cbn [get_type ret].
  rewrite Hsemi. reflexivity.
Qed.

(** The top-level loop on a declaration: one line added to [program]. *)
Lemma parse_program_declaration (fuel position : nat) (program : string)
    (ty name semi : Token) :
  nth_error tokens position = Some ty ->
  nth_error tokens (position + 1) = Some name ->
  nth_error tokens (position + 1 + 1) = Some semi ->
  type_in (type ty) ["T_Int"; "T_Void"] = true ->
  type semi = "T_Semicolon" ->
  parse_program tokens (S (S fuel)) program position
  = parse_program tokens (S fuel)
      (program ++ nl ++ "    Declaration: " ++ value name)
      (position + 1 + 1 + 1).
Proof.
  intros H0 H1 H2 Hty Hsemi.
  cbn [parse_program]. unfold bind at 1, current_token at 1.
  rewrite H0, Hty. unfold bind at 1.
  rewrite (parse_declaration fuel position ty name semi H0 H1 H2 Hty Hsemi).
  reflexivity.
Qed.

(** Without a [T_Else] token among [tokens], [parse_if_else] is the
    production without its else branch. *)
Lemma parse_if_else_no_else (fuel position : nat) :
  Forall (fun t => type t <> "T_Else") tokens ->
  parse_if_else tokens (S fuel) position
  = (consume ;;;
     condition <- parse_expression tokens fuel ;;
     block <- parse_block tokens fuel ;;
     ret (if_else_text condition block "")) position.
Proof.
  intros Hno. cbn [parse_if_else]. unfold bind, consume.
  destruct (parse_expression tokens fuel (position + 1)) as [[c p1]| |]; try reflexivity.
  destruct (parse_block tokens fuel p1) as [[b p2]| |]; try reflexivity.
  unfold current_token.
  destruct (nth_error tokens p2) as [t|] eqn:Hnth; [|reflexivity].
  cbn [present_and].
  rewrite Forall_forall in Hno.
  apply nth_error_In in Hnth. apply Hno in Hnth.
  apply String.eqb_neq in Hnth. rewrite Hnth. reflexivity.
Qed.

End ParserSteps.

Lemma nth_error_after (A : Type) (pre l : list A) (k : nat) :
  nth_error (pre ++ l)%list (length pre + k) = nth_error l k.
Proof.
  rewrite nth_error_app2 by lia. f_equal. lia.
Qed.

Lemma str_app_assoc (a b c : string) : (a ++ b) ++ c = a ++ (b ++ c).
Proof. induction a as [|x a IH]; cbn; [reflexivity | now rewrite IH]. Qed.

Lemma str_app_nil_r (a : string) : a ++ "" = a.
Proof. induction a as [|x a IH]; cbn; [reflexivity | now rewrite IH]. Qed.

Lemma str_length_app (a b : string) :
  String.length (a ++ b) = String.length a + String.length b.
Proof. induction a as [|x a IH]; cbn; [reflexivity | now rewrite IH]. Qed.

(** ** Strings *)

Lemma strip_prefix_app (p s rest : string) :
  strip_prefix p s = Some rest -> s = p ++ rest.
Proof.
  revert s; induction p as [|a p IH]; intros s H; cbn in *.
  - now inversion H.
  - destruct s as [|b s]; [discriminate|].
    destruct (Ascii.eqb a b) eqn:E; [|discriminate].
    apply Ascii.eqb_eq in E. subst b. f_equal. now apply IH.
Qed.

Lemma span_app (f : ascii -> bool) (s a b : string) :
  span f s = (a, b) -> s = a ++ b /\ str_forall f a = true.
Proof.
  revert a b; induction s as [|c s IH]; intros a b H; cbn in H.
  - inversion H. now split.
  - destruct (f c) eqn:E.
    + destruct (span f s) as [a' b'] eqn:Es. inversion H; subst.
      destruct (IH a' b eq_refl) as [-> Ha]. cbn. now rewrite E, Ha.
    + inversion H. now split.
Qed.

Lemma str_forall_app (f : ascii -> bool) (a b : string) :
  str_forall f (a ++ b) = str_forall f a && str_forall f b.
Proof.
  induction a as [|c a IH]; cbn; [reflexivity|]. now rewrite IH, andb_assoc.
Qed.

Lemma str_forall_impl (f g : ascii -> bool) (s : string) :
  (forall c, f c = true -> g c = true) ->
  str_forall f s = true -> str_forall g s = true.
Proof.
  intros Hfg. induction s as [|c s IH]; cbn; [reflexivity|].
  intros H. apply andb_true_iff in H. destruct H as [Hc Hs].
  now rewrite (Hfg c Hc), IH.
Qed.

Lemma str_count_app (f : ascii -> bool) (a b : string) :
  str_count f (a ++ b) = str_count f a + str_count f b.
Proof.
  induction a as [|c a IH]; cbn; [reflexivity|]. rewrite IH. lia.
Qed.

(** ** The patterns *)

Lemma lit_spec (p : string) (prev : option ascii) (s lexeme rest : string) :
  lit p prev s = Some (lexeme, rest) -> lexeme = p /\ s = p ++ rest.
Proof.
  unfold lit. destruct (strip_prefix p s) as [r|] eqn:E; [|discriminate].
  intros H; inversion H; subst. split; [reflexivity|].
  now apply strip_prefix_app.
Qed.

Lemma keyword_spec (kw : string) (prev : option ascii) (s lexeme rest : string) :
  keyword kw prev s = Some (lexeme, rest) -> lexeme = kw /\ s = kw ++ rest.
Proof.
  unfold keyword. destruct (word_boundary prev (head s)); [|discriminate].
  destruct (strip_prefix kw s) as [r|] eqn:E; [|discriminate].
  destruct (word_boundary _ _); [|discriminate].
  intros H; inversion H; subst. split; [reflexivity|].
  now apply strip_prefix_app.
Qed.

Lemma plus_spec (f : ascii -> bool) (prev : option ascii) (s lexeme rest : string) :
  plus f prev s = Some (lexeme, rest) ->
  s = lexeme ++ rest /\ lexeme <> "" /\ str_forall f lexeme = true.
Proof.
  unfold plus. destruct (span f s) as [a b] eqn:E.
  destruct a as [|c a]; [discriminate|].
  intros H; inversion H; subst.
  destruct (span_app _ _ _ _ E) as [Hs Hf]. now repeat split.
Qed.

Lemma string_constant_spec (prev : option ascii) (s lexeme rest : string) :
  string_constant prev s = Some (lexeme, rest) ->
  s = lexeme ++ rest
  /\ exists body, lexeme = dq ++ body ++ dq /\ str_forall not_dquote body = true.
Proof.
  unfold string_constant. destruct s as [|q s]; [discriminate|].
  destruct (Ascii.eqb q DQUOTE) eqn:Eq; [|discriminate].
  apply Ascii.eqb_eq in Eq. subst q.
  destruct (span not_dquote s) as [body r] eqn:E.
  destruct r as [|q' r]; [discriminate|].
  destruct (Ascii.eqb q' DQUOTE) eqn:Eq'; [|discriminate].
  apply Ascii.eqb_eq in Eq'. subst q'.
  intros H; inversion H; subst.
  destruct (span_app _ _ _ _ E) as [Hs Hf]. split.
  - cbn. f_equal. rewrite Hs. now rewrite str_app_assoc.
  - exists body. now split.
Qed.

Lemma identifier_spec (prev : option ascii) (s lexeme rest : string) :
  identifier prev s = Some (lexeme, rest) ->
  s = lexeme ++ rest /\ lexeme <> "" /\ str_forall is_word lexeme = true.
Proof.
  unfold identifier. destruct s as [|c s]; [discriminate|].
  destruct (is_ident_start c) eqn:Ec; [|discriminate].
  destruct (span is_word s) as [w r] eqn:E.
  intros H; inversion H; subst.
  destruct (span_app _ _ _ _ E) as [Hs Hf].
  repeat split; [cbn; now rewrite Hs | discriminate |].
  cbn. rewrite Hf. unfold is_word. now rewrite Ec.
Qed.

Lemma any_char_spec (prev : option ascii) (s lexeme rest : string) :
  any_char prev s = Some (lexeme, rest) ->
  s = lexeme ++ rest /\ exists c, lexeme = String c "" /\ c <> LF.
Proof.
  unfold any_char. destruct s as [|c s]; [discriminate|].
  destruct (Ascii.eqb c LF) eqn:Ec; [discriminate|].
  intros H; inversion H; subst. split; [reflexivity|].
  exists c. split; [reflexivity|]. now apply Ascii.eqb_neq.
Qed.

Lemma comparison_spec (prev : option ascii) (s lexeme rest : string) :
  alt [lit "<="; lit ">="; lit "=="; lit "!="] prev s = Some (lexeme, rest) ->
  s = lexeme ++ rest /\ In lexeme ["<="; ">="; "=="; "!="].
Proof.
  unfold alt.
  repeat match goal with
  | |- context [match lit ?p prev s with _ => _ end] =>
      let E := fresh "E" in
      destruct (lit p prev s) as [[l r]|] eqn:E;
      [ intros H; inversion H; subst; apply lit_spec in E;
        destruct E as [-> ->]; split; [reflexivity | cbn; tauto] | ]
  end.
  discriminate.
Qed.

Lemma digit_is_token_char (c : ascii) : is_digit c = true -> is_token_char c = true.
Proof.
  intros H. unfold is_token_char, is_word. rewrite H.
  now rewrite orb_true_r.
Qed.

Lemma word_is_token_char (c : ascii) : is_word c = true -> is_token_char c = true.
Proof. intros H. unfold is_token_char. now rewrite H. Qed.

(** The first pattern of a list that matches is one of the list. *)
Lemma first_match_sound (P : string -> string -> string -> string -> Prop)
    (spec : list (string * matcher)) :
  Forall (fun km => forall prev s lexeme rest,
            snd km prev s = Some (lexeme, rest) -> P (fst km) s lexeme rest) spec ->
  forall prev s kind lexeme rest,
    first_match spec prev s = Some (kind, lexeme, rest) -> P kind s lexeme rest.
Proof.
  induction 1 as [|[k m] spec Hkm Hspec IH]; intros prev s kind lexeme rest H.
  - discriminate.
  - cbn [first_match] in H. destruct (m prev s) as [[l r]|] eqn:E.
    + inversion H; subst. now apply (Hkm prev).
    + now apply (IH prev).
Qed.

Lemma first_match_complete (spec : list (string * matcher))
    (k : string) (m : matcher) (prev : option ascii) (s : string) :
  In (k, m) spec -> m prev s <> None -> first_match spec prev s <> None.
Proof.
  induction spec as [|[k' m'] spec IH]; intros Hin Hm; [contradiction|].
  cbn [first_match]. destruct (m' prev s) as [[l r]|] eqn:E; [discriminate|].
  destruct Hin as [Heq|Hin]; [inversion Heq; subst; contradiction|].
  now apply IH.
Qed.

Ltac class_of_literal :=
  unfold lexeme_class; cbn [String.eqb Ascii.eqb Bool.eqb];
  split; [vm_compute; tauto | split; [discriminate | reflexivity]].

(** Every match of [token_regex] splits the text at the position into the
    matched text and the rest, and the matched text has the shape of its
    pattern. *)
Lemma token_regex_class (prev : option ascii) (s kind lexeme rest : string) :
  token_regex prev s = Some (kind, lexeme, rest) ->
  s = lexeme ++ rest /\ lexeme_class kind lexeme.
Proof.
  unfold token_regex.
  apply (first_match_sound
           (fun kind s lexeme rest => s = lexeme ++ rest /\ lexeme_class kind lexeme)).
  unfold token_specification.
  repeat (apply Forall_cons; [cbn [fst snd]; clear; intros prev s lexeme rest H|]);
    [..|apply Forall_nil];
    try (apply keyword_spec in H; destruct H as [-> ->];
         split; [reflexivity | class_of_literal]);
    try (apply lit_spec in H; destruct H as [-> ->];
         split; [reflexivity | try class_of_literal]).
  - apply comparison_spec in H. destruct H as [-> Hin]. split; [reflexivity|].
    cbn in Hin.
    repeat (destruct Hin as [<-|Hin]; [class_of_literal|]). contradiction.
  - apply plus_spec in H. destruct H as [-> [Hne Hf]]. split; [reflexivity|].
    unfold lexeme_class; cbn [String.eqb Ascii.eqb Bool.eqb].
    split; [vm_compute; tauto|]. split; [assumption|].
    revert Hf. apply str_forall_impl. exact digit_is_token_char.
  - apply string_constant_spec in H. destruct H as [-> Hbody].
    split; [reflexivity|]. exact Hbody.
  - apply identifier_spec in H. destruct H as [-> [Hne Hf]]. split; [reflexivity|].
    unfold lexeme_class; cbn [String.eqb Ascii.eqb Bool.eqb].
    split; [vm_compute; tauto|]. split; [assumption|].
    revert Hf. apply str_forall_impl. exact word_is_token_char.
  - apply plus_spec in H. destruct H as [-> [Hne Hf]]. split; [reflexivity|].
    unfold lexeme_class; cbn [String.eqb Ascii.eqb Bool.eqb]. now split.
  - reflexivity.
  - apply any_char_spec in H. destruct H as [-> Hc]. split; [reflexivity|].
    exact Hc.
Qed.

Lemma lexeme_class_nonempty (kind lexeme : string) :
  lexeme_class kind lexeme -> lexeme <> "".
Proof.
  unfold lexeme_class.
  destruct (kind =? "NEWLINE"); [intros ->; discriminate|].
  destruct (kind =? "WHITESPACE"); [tauto|].
  destruct (kind =? "MISMATCH"); [intros [c [-> _]]; discriminate|].
  destruct (kind =? "T_StringConstant"); [intros [b [-> _]]; discriminate|].
  tauto.
Qed.

(** At every position of the text some pattern matches: the line feed falls
    to [NEWLINE], any other character at the latest to [MISMATCH]. *)
Lemma token_regex_total (prev : option ascii) (c : ascii) (s : string) :
  token_regex prev (String c s) <> None.
Proof.
  destruct (Ascii.eqb c LF) eqn:E.
  - apply Ascii.eqb_eq in E. subst c.
    apply (first_match_complete _ "NEWLINE" (lit nl)).
    + unfold token_specification. cbn. tauto.
    + cbn. discriminate.
  - apply (first_match_complete _ "MISMATCH" any_char).
    + unfold token_specification. cbn. tauto.
    + cbn. rewrite E. discriminate.
Qed.

(** ** The matches of [finditer] *)

Lemma finditer_from_facts (fuel : nat) :
  forall (prev : option ascii) (s : string) (pos : nat),
    String.length s <= fuel ->
    let ms := finditer_from fuel prev s pos in
    covered ms = s
    /\ Forall (fun mo => lexeme_class (lastgroup mo) (group mo)) ms
    /\ contiguous pos ms.
Proof.
  induction fuel as [|fuel IH]; intros prev s pos Hlen; cbn zeta.
  - destruct s; [|cbn in Hlen; lia]. cbn. repeat split. constructor.
  - destruct s as [|c s]; [cbn; repeat split; constructor|].
    cbn [finditer_from].
    destruct (token_regex prev (String c s)) as [[[kind lexeme] rest]|] eqn:E;
      [|now apply token_regex_total in E].
    apply token_regex_class in E. destruct E as [Hs Hclass].
    assert (Hne := lexeme_class_nonempty _ _ Hclass).
    assert (Hrest : String.length rest <= fuel).
    { assert (Hl : String.length (String c s) = String.length (lexeme ++ rest))
        by now rewrite Hs.
      rewrite str_length_app in Hl. cbn [String.length] in Hlen, Hl.
      destruct lexeme; [contradiction|]. cbn [String.length] in Hl. lia. }
    destruct (IH (last_char prev lexeme) rest (pos + String.length lexeme) Hrest)
      as [Hcov [Hall Hcont]].
    cbn [covered fold_right group contiguous mstart mend].
    fold (covered (finditer_from fuel (last_char prev lexeme) rest
                     (pos + String.length lexeme))).
    rewrite Hcov. repeat split; try assumption; [now symmetry|].
    constructor; assumption.
Qed.

Lemma finditer_covers (code : string) : covered (finditer code) = code.
Proof. now apply (finditer_from_facts (String.length code) None code 0). Qed.

Lemma finditer_classes (code : string) :
  Forall (fun mo => lexeme_class (lastgroup mo) (group mo)) (finditer code).
Proof. now apply (finditer_from_facts (String.length code) None code 0). Qed.

Lemma finditer_contiguous (code : string) : contiguous 0 (finditer code).
Proof. now apply (finditer_from_facts (String.length code) None code 0). Qed.

(** More fuel than the length of the text changes nothing. *)
Lemma finditer_from_fuel (fuel : nat) :
  forall (fuel' : nat) (prev : option ascii) (s : string) (pos : nat),
    String.length s <= fuel -> String.length s <= fuel' ->
    finditer_from fuel prev s pos = finditer_from fuel' prev s pos.
Proof.
  induction fuel as [|fuel IH]; intros fuel' prev s pos H H'.
  - destruct s; [|cbn in H; lia]. destruct fuel'; reflexivity.
  - destruct s as [|c s]; [destruct fuel'; reflexivity|].
    destruct fuel' as [|fuel']; [cbn in H'; lia|].
    cbn [finditer_from].
    destruct (token_regex prev (String c s)) as [[[kind lexeme] rest]|] eqn:E;
      [|now apply token_regex_total in E].
    apply token_regex_class in E. destruct E as [Hs Hclass].
    assert (Hne := lexeme_class_nonempty _ _ Hclass).
    assert (Hl : String.length (String c s) = String.length (lexeme ++ rest))
      by now rewrite Hs.
    rewrite str_length_app in Hl. cbn [String.length] in H, H', Hl.
    destruct lexeme; [contradiction|]. cbn [String.length] in Hl.
    f_equal. apply IH; lia.
Qed.

(** ** The loop of [tokenize] *)

Lemma tokenize_loop_emitted (ms : list Match) :
  Forall (fun mo => lastgroup mo <> "MISMATCH") ms ->
  forall (tokens : list Token) (line current_position : nat),
    tokenize_loop ms tokens line current_position
    = Tokens (tokens ++ emitted ms line current_position)%list.
Proof.
  induction 1 as [|mo ms Hmo Hms IH]; intros tokens line cur.
  - cbn. now rewrite app_nil_r.
  - cbn [tokenize_loop emitted].
    destruct (lastgroup mo =? "NEWLINE"); [apply IH|].
    destruct (lastgroup mo =? "WHITESPACE"); [apply IH|].
    apply String.eqb_neq in Hmo. rewrite Hmo.
    rewrite IH. now rewrite <- app_assoc.
Qed.

(** The first mismatch ends the loop: the error holds its text and the line
    counter, which the [NEWLINE] matches before it have advanced. *)
Lemma tokenize_loop_raises (ms : list Match) :
  Forall (fun mo => lastgroup mo <> "MISMATCH") ms ->
  forall (mo : Match) (ms' : list Match) (tokens : list Token)
         (line current_position : nat),
    lastgroup mo = "MISMATCH" ->
    tokenize_loop (ms ++ mo :: ms')%list tokens line current_position
    = RuntimeError (group mo)
        (line + length (filter (fun m => lastgroup m =? "NEWLINE") ms)).
Proof.
  induction 1 as [|m ms Hm Hms IH]; intros mo ms' tokens line cur Hmo.
  - cbn [app tokenize_loop filter length]. rewrite Hmo. cbn.
    now rewrite Nat.add_0_r.
  - cbn [app tokenize_loop filter].
    destruct (lastgroup m =? "NEWLINE") eqn:En.
    + rewrite IH by assumption. cbn [length]. f_equal. lia.
    + destruct (lastgroup m =? "WHITESPACE"); [now apply IH|].
      apply String.eqb_neq in Hm. rewrite Hm. now apply IH.
Qed.

(** A list of matches either has no mismatch or splits at its first one. *)
Lemma split_at_first_mismatch (ms : list Match) :
  Forall (fun mo => lastgroup mo <> "MISMATCH") ms
  \/ exists before mo after,
       ms = (before ++ mo :: after)%list
       /\ Forall (fun m => lastgroup m <> "MISMATCH") before
       /\ lastgroup mo = "MISMATCH".
Proof.
  induction ms as [|m ms IH]; [left; constructor|].
  destruct (String.eqb_spec (lastgroup m) "MISMATCH") as [E|E].
  - right. exists [], m, ms. repeat split; [constructor | assumption].
  - destruct IH as [IH | [before [mo [after [-> [Hb Hmo]]]]]].
    + left. now constructor.
    + right. exists (m :: before), mo, after.
      repeat split; [now constructor | assumption].
Qed.

Lemma emitted_types (ms : list Match) :
  Forall (fun mo => lexeme_class (lastgroup mo) (group mo)) ms ->
  Forall (fun mo => lastgroup mo <> "MISMATCH") ms ->
  forall line current_position,
    Forall (fun t => In (type t) token_names) (emitted ms line current_position).
Proof.
  induction 1 as [|mo ms Hmo Hms IH]; intros Hno line cur; [constructor|].
  inversion Hno as [|? ? Hmo' Hno']; subst.
  cbn [emitted]. unfold lexeme_class in Hmo.
  destruct (lastgroup mo =? "NEWLINE"); [now apply IH|].
  destruct (lastgroup mo =? "WHITESPACE"); [now apply IH|].
  apply String.eqb_neq in Hmo'. rewrite Hmo' in Hmo.
  constructor; [|now apply IH].
  cbn [type].
  destruct (lastgroup mo =? "T_StringConstant") eqn:Es.
  - apply String.eqb_eq in Es. rewrite Es. vm_compute. tauto.
  - tauto.
Qed.

(** The types of the tokens [tokenize] returns are names of
    [token_specification], and none of the three patterns that give no
    token. *)
Lemma tokenize_types (code : string) (tokens : list Token) :
  tokenize code = Tokens tokens ->
  Forall (fun t => In (type t) token_names) tokens.
Proof.
  unfold tokenize. intros H.
  destruct (split_at_first_mismatch (finditer code))
    as [Hno | [before [mo [after [Hms [Hb Hmo]]]]]].
  - rewrite (tokenize_loop_emitted _ Hno) in H. inversion H; subst.
    cbn [app]. apply emitted_types; [apply finditer_classes | assumption].
  - rewrite Hms, (tokenize_loop_raises _ Hb) in H by assumption. discriminate.
Qed.

(** ** A parameter list without end *)

(** A parameter list with a token that is neither a type nor [)]: the loop
    of [parse_function] never moves past it. *)
Lemma parse_parameters_stuck (tokens : list Token) (position : nat) (t : Token) :
  nth_error tokens position = Some t ->
  type t <> "T_RParen" ->
  type_in (type t) ["T_Int"; "T_Bool"] = false ->
  forall fuel function,
    parse_parameters tokens fuel function position = OutOfFuel.
Proof.
  intros Hnth Hrp Hty fuel. induction fuel as [|fuel IH]; intros function.
  - reflexivity.
  - cbn [parse_parameters]. unfold bind at 1, current_token at 1.
    rewrite Hnth. cbn [present_and_not].
    apply String.eqb_neq in Hrp. rewrite Hrp. cbn [negb].
    unfold bind at 1. cbn [get_type ret]. rewrite Hty. apply IH.
Qed.

(** ** The else branch (C8) *)

(** C8: no pattern of [token_specification] is named [T_Else], the word
    [else] tokenizes as an identifier, and so no token of a scanned text has
    the type [T_Else]; on such tokens every call of [parse_if_else] is the
    production without the else branch: its text ends with an empty second
    block and no token is consumed after the first block. *)
Theorem C8_else_branch_unreachable :
  ~ In "T_Else" (map fst token_specification)
  /\ tokenize "else" = Tokens [mkToken "T_Identifier" "else" 1 1 4]
  /\ forall (code : string) (tokens : list Token),
       tokenize code = Tokens tokens ->
       Forall (fun t => type t <> "T_Else") tokens
       /\ forall (fuel position : nat),
            parse_if_else tokens (S fuel) position
            = (consume ;;;
               condition <- parse_expression tokens fuel ;;
               block <- parse_block tokens fuel ;;
               ret (if_else_text condition block "")) position.
Proof.
  split; [|split].
  - vm_compute. intuition discriminate.
  - vm_compute. reflexivity.
  - intros code tokens Htok.
    assert (Hno : Forall (fun t => type t <> "T_Else") tokens).
    { apply tokenize_types in Htok. revert Htok. apply Forall_impl.
      intros t Hin Helse. rewrite Helse in Hin. vm_compute in Hin.
      intuition discriminate. }
    split; [exact Hno|]. intros fuel position.
    now apply parse_if_else_no_else.
Qed.

Lemma C8_else_branch_witness :
  exists tokens,
    tokenize "void f() { if <= a b { return a; } else { return b; } }"
    = Tokens tokens
    /\ Forall (fun t => type t <> "T_Else") tokens
    /\ forall (fuel position : nat),
         parse_if_else tokens (S fuel) position
         = (consume ;;;
            condition <- parse_expression tokens fuel ;;
            block <- parse_block tokens fuel ;;
            ret (if_else_text condition block "")) position.
Proof.
  eexists. split; [vm_compute; reflexivity|].
  apply (proj2 (proj2 C8_else_branch_unreachable)
           "void f() { if <= a b { return a; } else { return b; } }").
  vm_compute. reflexivity.
Defined.

(** ** Absent expressions (C10) *)

(** C10: when the current token starts no expression, [parse_expression]
    returns [None] and leaves the cursor where it is; [parse_return] and
    [parse_print], called one token before it, then show the text [None] as
    their expression line and have consumed their keyword only.  On the source
    [void f(){return;}] the tree is a [Function: f] with a [Return:] whose
    line is [None]. *)
Theorem C10_absent_expression_shows_None :
  (forall (tokens : list Token) (position : nat) (t : Token) (fuel : nat),
      nth_error tokens (position + 1) = Some t ->
      starts_expression (type t) = false ->
      parse_expression tokens (S fuel) (position + 1) = Ok (None, position + 1)
      /\ parse_return tokens (S fuel) position
         = Ok (nl ++ "        Return:" ++ nl ++ "            None", position + 1)
      /\ parse_print tokens (S fuel) position
         = Ok (nl ++ "        Print:" ++ nl ++ "            None", position + 1))
  /\ exists tokens,
       tokenize "void f(){return;}" = Tokens tokens
       /\ forall fuel,
            parse (6 + fuel) tokens
            = Ok ("Program:" ++ nl ++ "    Function: f"
                    ++ nl ++ "        Return:"
                    ++ nl ++ "            None", 8).
Proof.
  split.
  - intros tokens position t fuel Hnth Hstart. split; [|split].
    + now apply parse_expression_absent with (t := t).
    + now apply parse_return_absent with (t := t).
    + now apply parse_print_absent with (t := t).
  - eexists. split; [vm_compute; reflexivity|]. intros fuel. reflexivity.
Qed.

Lemma C10_absent_expression_witness :
  let toks := [mkToken "T_Return" "return" 1 1 6; mkToken "T_Semicolon" ";" 1 7 7] in
  parse_expression toks 1 1 = Ok (None, 1)
  /\ parse_return toks 1 0
     = Ok (nl ++ "        Return:" ++ nl ++ "            None", 1)
  /\ parse_print toks 1 0
     = Ok (nl ++ "        Print:" ++ nl ++ "            None", 1).
Proof.
  cbv zeta.
  apply (proj1 C10_absent_expression_shows_None
           [mkToken "T_Return" "return" 1 1 6; mkToken "T_Semicolon" ";" 1 7 7]
           0 (mkToken "T_Semicolon" ";" 1 7 7) 0); reflexivity.
Defined.

(** ** Token texts and the input (C2) *)

Lemma token_char_facts (c : ascii) :
  is_token_char c = true ->
  Ascii.eqb c DQUOTE = false /\ is_space c = false /\ Ascii.eqb c CR = false
  /\ is_lf c = false.
Proof.
  destruct c as [b0 b1 b2 b3 b4 b5 b6 b7].
  destruct b0, b1, b2, b3, b4, b5, b6, b7; vm_compute;
    intros H; try discriminate H; repeat split.
Qed.

Lemma blank_facts (c : ascii) :
  is_blank c = true ->
  Ascii.eqb c DQUOTE = false /\ is_space c = true /\ Ascii.eqb c CR = false
  /\ is_lf c = false.
Proof.
  destruct c as [b0 b1 b2 b3 b4 b5 b6 b7].
  destruct b0, b1, b2, b3, b4, b5, b6, b7; vm_compute;
    intros H; try discriminate H; repeat split.
Qed.

Lemma strip_outside_blank (a r : string) :
  str_forall is_blank a = true ->
  strip_outside false (a ++ r) = strip_outside false r.
Proof.
  induction a as [|c a IH]; cbn; [reflexivity|]. intros H.
  apply andb_true_iff in H. destruct H as [Hc Ha].
  destruct (blank_facts c Hc) as [Hq [Hsp _]]. rewrite Hq, Hsp. now apply IH.
Qed.

Lemma strip_outside_token (a r : string) :
  str_forall is_token_char a = true ->
  strip_outside false (a ++ r) = a ++ strip_outside false r.
Proof.
  induction a as [|c a IH]; cbn; [reflexivity|]. intros H.
  apply andb_true_iff in H. destruct H as [Hc Ha].
  destruct (token_char_facts c Hc) as [Hq [Hsp _]]. rewrite Hq, Hsp.
  f_equal. now apply IH.
Qed.

Lemma strip_outside_inside (body r : string) :
  str_forall not_dquote body = true ->
  strip_outside true (body ++ dq ++ r) = body ++ dq ++ strip_outside false r.
Proof.
  induction body as [|c body IH]; intros H.
  - reflexivity.
  - cbn in H. apply andb_true_iff in H. destruct H as [Hc Hb].
    unfold not_dquote in Hc. apply negb_true_iff in Hc.
    cbn [append strip_outside]. rewrite Hc. f_equal. now apply IH.
Qed.

Lemma strip_outside_string (body r : string) :
  str_forall not_dquote body = true ->
  strip_outside false ((dq ++ body ++ dq) ++ r)
  = (dq ++ body ++ dq) ++ strip_outside false r.
Proof.
  intros H. rewrite !str_app_assoc. cbn [dq append strip_outside].
  rewrite Ascii.eqb_refl. cbn [negb]. f_equal.
  now apply (strip_outside_inside body r).
Qed.

Lemma strip_outside_no_quote (s : string) :
  str_mem DQUOTE s = false -> strip_outside false s = remove_whitespace s.
Proof.
  unfold str_mem, remove_whitespace. intros H. apply negb_false_iff in H.
  induction s as [|c s IH]; [reflexivity|].
  cbn in H. apply andb_true_iff in H. destruct H as [Hc Hs].
  apply negb_true_iff in Hc. cbn [strip_outside str_filter]. rewrite Hc.
  destruct (is_space c); cbn [negb]; [now apply IH | f_equal; now apply IH].
Qed.

(** The texts of the emitted tokens are the covered text with the blanks
    and line feeds outside string constants removed. *)
Lemma emitted_values (ms : list Match) :
  Forall (fun mo => lexeme_class (lastgroup mo) (group mo)) ms ->
  Forall (fun mo => lastgroup mo <> "MISMATCH") ms ->
  forall line current_position,
    concat_values (emitted ms line current_position)
    = strip_outside false (covered ms).
Proof.
  induction 1 as [|mo ms Hmo Hms IH]; intros Hno line cur; [reflexivity|].
  inversion Hno as [|? ? Hmo' Hno']; subst.
  cbn [emitted covered fold_right]. fold (covered ms).
  unfold lexeme_class in Hmo.
  destruct (lastgroup mo =? "NEWLINE").
  { rewrite Hmo. cbn. now apply IH. }
  destruct (lastgroup mo =? "WHITESPACE").
  { destruct Hmo as [_ Hb]. rewrite strip_outside_blank by assumption.
    now apply IH. }
  apply String.eqb_neq in Hmo'. rewrite Hmo' in Hmo.
  cbn [concat_values fold_right value].
  fold (concat_values (emitted ms line cur)). rewrite IH by assumption.
  destruct (lastgroup mo =? "T_StringConstant").
  - destruct Hmo as [body [-> Hb]]. now rewrite strip_outside_string.
  - destruct Hmo as [_ [_ Hf]]. now rewrite strip_outside_token.
Qed.

Lemma first_match_app (a b : list (string * matcher))
    (prev : option ascii) (s : string) :
  first_match (a ++ b)%list prev s
  = match first_match a prev s with
    | Some r => Some r
    | None => first_match b prev s
    end.
Proof.
  induction a as [|[k m] a IH]; [reflexivity|].
  cbn [app first_match]. destruct (m prev s) as [[l r]|]; [reflexivity | exact IH].
Qed.

Lemma first_match_name (spec : list (string * matcher))
    (prev : option ascii) (s kind lexeme rest : string) :
  first_match spec prev s = Some (kind, lexeme, rest) -> In kind (map fst spec).
Proof.
  induction spec as [|[k m] spec IH]; [discriminate|].
  cbn [first_match]. destruct (m prev s) as [[l r]|].
  - intros H; inversion H; subst. now left.
  - intros H. right. now apply IH.
Qed.

Ltac in_patterns :=
  unfold proper_patterns, token_specification; cbn [removelast In];
  repeat (first [left; reflexivity | right]).

(** At a safe character a pattern before the catch-all matches. *)
Lemma safe_char_matches (prev : option ascii) (c : ascii) (s : string) :
  is_safe_char c = true ->
  first_match proper_patterns prev (String c s) <> None.
Proof.
  unfold is_safe_char. intros H.
  apply orb_true_iff in H. destruct H as [H|H].
  2: { unfold is_lf in H. apply Ascii.eqb_eq in H. subst c.
       apply (first_match_complete _ "NEWLINE" (lit nl));
         [in_patterns | cbn; discriminate]. }
  apply orb_true_iff in H. destruct H as [H|H].
  2: { apply (first_match_complete _ "WHITESPACE" (plus is_blank));
         [in_patterns|].
       unfold plus. cbn [span]. rewrite H. destruct (span is_blank s).
       discriminate. }
  apply orb_true_iff in H. destruct H as [H|H].
  2: { unfold is_single_op in H. cbn [existsb] in H.
       repeat (apply orb_true_iff in H; destruct H as [H|H]);
         try discriminate H; apply Ascii.eqb_eq in H; subst c;
         match goal with
         | |- first_match _ _ (String ?x _) <> None =>
             eapply (first_match_complete _ _ (lit (String x "")));
               [in_patterns | cbn; discriminate]
         end. }
  apply orb_true_iff in H. destruct H as [H|H].
  - apply (first_match_complete _ "T_Identifier" identifier);
      [in_patterns|].
    unfold identifier. rewrite H. destruct (span is_word s). discriminate.
  - apply (first_match_complete _ "T_IntConstant" (plus is_digit));
      [in_patterns|].
    unfold plus. cbn [span]. rewrite H. destruct (span is_digit s). discriminate.
Qed.

Lemma safe_char_not_mismatch (prev : option ascii) (c : ascii)
    (s kind lexeme rest : string) :
  is_safe_char c = true ->
  token_regex prev (String c s) = Some (kind, lexeme, rest) ->
  kind <> "MISMATCH".
Proof.
  intros Hc H. unfold token_regex in H.
  change token_specification
    with (proper_patterns ++ [("MISMATCH", any_char)])%list in H.
  rewrite first_match_app in H.
  destruct (first_match proper_patterns prev (String c s))
    as [[[k l] r]|] eqn:E.
  - inversion H; subst. apply first_match_name in E.
    intros ->. vm_compute in E. intuition discriminate.
  - now apply safe_char_matches in E.
Qed.

Lemma finditer_from_safe (fuel : nat) :
  forall (prev : option ascii) (s : string) (pos : nat),
    str_forall is_safe_char s = true ->
    Forall (fun mo => lastgroup mo <> "MISMATCH") (finditer_from fuel prev s pos).
Proof.
  induction fuel as [|fuel IH]; intros prev s pos Hs; [constructor|].
  destruct s as [|c s]; [constructor|].
  cbn [finditer_from].
  destruct (token_regex prev (String c s)) as [[[kind lexeme] rest]|] eqn:E;
    [|now apply token_regex_total in E].
  assert (Hc : is_safe_char c = true)
    by (cbn in Hs; now apply andb_true_iff in Hs).
  constructor.
  - cbn [lastgroup]. now apply (safe_char_not_mismatch prev c s kind lexeme rest).
  - apply IH. apply token_regex_class in E. destruct E as [E _].
    rewrite E, str_forall_app in Hs. now apply andb_true_iff in Hs.
Qed.

(** C2, as the code has it: a text made only of safe characters (ASCII
    letters, digits, the underscore, the one-character operators and
    punctuation, spaces, tabs, line feeds) has no position that falls to the
    catch-all pattern; when no position of a text falls to that pattern,
    [tokenize] returns tokens, and their texts joined in order are the input
    with the spaces, tabs and line feeds outside double quotes removed (a
    string constant keeps the blanks and line feeds between its quotes); for a
    text without a double quote this is the input with all its spaces, tabs
    and line feeds removed. *)
Theorem C2_token_texts_rebuild_input :
  (forall code : string,
      str_forall is_safe_char code = true -> mismatch_free code)
  /\ (forall code : string,
        mismatch_free code ->
        exists tokens,
          tokenize code = Tokens tokens
          /\ concat_values tokens = strip_outside false code
          /\ (str_mem DQUOTE code = false ->
              concat_values tokens = remove_whitespace code)).
Proof.
  split; [intros code Hs; now apply finditer_from_safe|].
  intros code Hfree. unfold mismatch_free in Hfree.
  exists (emitted (finditer code) 1 0).
  assert (Hval : concat_values (emitted (finditer code) 1 0)
                 = strip_outside false code).
  { rewrite emitted_values; [|apply finditer_classes | assumption].
    now rewrite finditer_covers. }
  split; [|split].
  - unfold tokenize. now rewrite tokenize_loop_emitted.
  - exact Hval.
  - intros Hq. rewrite Hval. now apply strip_outside_no_quote.
Qed.

Lemma C2_token_texts_witness :
  mismatch_free ("int x;" ++ nl ++ "x = 1;")
  /\ exists tokens,
       tokenize ("x = " ++ dq ++ "a b" ++ dq ++ ";") = Tokens tokens
       /\ concat_values tokens
          = strip_outside false ("x = " ++ dq ++ "a b" ++ dq ++ ";")
       /\ (str_mem DQUOTE ("x = " ++ dq ++ "a b" ++ dq ++ ";") = false ->
           concat_values tokens
           = remove_whitespace ("x = " ++ dq ++ "a b" ++ dq ++ ";")).
Proof.
  split.
  - apply (proj1 C2_token_texts_rebuild_input). reflexivity.
  - apply (proj2 C2_token_texts_rebuild_input
             ("x = " ++ dq ++ "a b" ++ dq ++ ";")).
    unfold mismatch_free. vm_compute finditer.
    repeat constructor; discriminate.
Defined.

(** C2 as stated fails on a string constant with a blank in it: no position
    is a mismatch, the one token keeps the blank, and the input with its
    whitespace removed does not. *)
Lemma C2_counterexample :
  let code := dq ++ "a b" ++ dq in
  mismatch_free code
  /\ tokenize code = Tokens [mkToken "T_StringConstant" code 1 1 5]
  /\ concat_values [mkToken "T_StringConstant" code 1 1 5] = dq ++ "a b" ++ dq
  /\ remove_whitespace code = dq ++ "ab" ++ dq
  /\ concat_values [mkToken "T_StringConstant" code 1 1 5]
     <> remove_whitespace code.
Proof.
  cbv zeta. split; [|split; [|split; [|split]]].
  - unfold mismatch_free. vm_compute finditer. repeat constructor; discriminate.
  - vm_compute. reflexivity.
  - vm_compute. reflexivity.
  - vm_compute. reflexivity.
  - vm_compute. discriminate.
Qed.

(** ** Line feeds, quotes and carriage returns in the matches *)

Lemma str_mem_app (c : ascii) (a b : string) :
  str_mem c (a ++ b) = str_mem c a || str_mem c b.
Proof.
  unfold str_mem. rewrite str_forall_app. apply negb_andb.
Qed.

Lemma str_mem_false_forall (c : ascii) (s : string) :
  str_mem c s = false <-> str_forall (fun x => negb (Ascii.eqb x c)) s = true.
Proof. unfold str_mem. apply negb_false_iff. Qed.

Lemma str_forall_not_mem (f : ascii -> bool) (c : ascii) (s : string) :
  (forall x, f x = true -> Ascii.eqb x c = false) ->
  str_forall f s = true -> str_mem c s = false.
Proof.
  intros Hf H. apply str_mem_false_forall. revert H. apply str_forall_impl.
  intros x Hx. now rewrite (Hf x Hx).
Qed.

Lemma str_forall_count_0 (f g : ascii -> bool) (s : string) :
  (forall x, f x = true -> g x = false) ->
  str_forall f s = true -> str_count g s = 0.
Proof.
  intros Hf. induction s as [|c s IH]; cbn; [reflexivity|].
  intros H. apply andb_true_iff in H. destruct H as [Hc Hs].
  now rewrite (Hf c Hc), IH.
Qed.

Lemma str_take_app (a b : string) : str_take (String.length a) (a ++ b) = a.
Proof. induction a as [|c a IH]; cbn; [now destruct b | now rewrite IH]. Qed.

(** In a stretch of text without double quotes, the [NEWLINE] matches are
    exactly its line feeds. *)
Lemma newline_matches_count (ms : list Match) :
  Forall (fun mo => lexeme_class (lastgroup mo) (group mo)) ms ->
  str_mem DQUOTE (covered ms) = false ->
  length (filter (fun m => lastgroup m =? "NEWLINE") ms)
  = str_count is_lf (covered ms).
Proof.
  induction 1 as [|mo ms Hmo Hms IH]; intros Hq; [reflexivity|].
  cbn [covered fold_right] in *. fold (covered ms) in *.
  rewrite str_mem_app in Hq. apply orb_false_iff in Hq. destruct Hq as [Hq1 Hq2].
  rewrite str_count_app. cbn [filter]. unfold lexeme_class in Hmo.
  destruct (lastgroup mo =? "NEWLINE").
  { rewrite Hmo. cbn [length]. rewrite IH by assumption. reflexivity. }
  rewrite IH by assumption.
  destruct (lastgroup mo =? "WHITESPACE").
  { destruct Hmo as [_ Hb].
    rewrite (str_forall_count_0 is_blank is_lf (group mo)); [reflexivity | | assumption].
    intros x Hx. now apply blank_facts. }
  destruct (lastgroup mo =? "MISMATCH").
  { destruct Hmo as [c [-> Hc]]. cbn. unfold is_lf.
    apply Ascii.eqb_neq in Hc. now rewrite Hc. }
  destruct (lastgroup mo =? "T_StringConstant").
  { destruct Hmo as [body [Hl _]]. rewrite Hl in Hq1. discriminate Hq1. }
  destruct Hmo as [_ [_ Hf]].
  rewrite (str_forall_count_0 is_token_char is_lf (group mo)); [reflexivity | | assumption].
  intros x Hx. now apply token_char_facts.
Qed.

(** Matches without a mismatch, over text without a double quote, cover no
    carriage return. *)
Lemma no_mismatch_no_cr (ms : list Match) :
  Forall (fun mo => lexeme_class (lastgroup mo) (group mo)) ms ->
  Forall (fun mo => lastgroup mo <> "MISMATCH") ms ->
  str_mem DQUOTE (covered ms) = false ->
  str_mem CR (covered ms) = false.
Proof.
  induction 1 as [|mo ms Hmo Hms IH]; intros Hno Hq; [reflexivity|].
  inversion Hno as [|? ? Hmo' Hno']; subst.
  cbn [covered fold_right] in *. fold (covered ms) in *.
  rewrite str_mem_app in Hq. apply orb_false_iff in Hq. destruct Hq as [Hq1 Hq2].
  rewrite str_mem_app, (IH Hno' Hq2), orb_false_r.
  unfold lexeme_class in Hmo.
  destruct (lastgroup mo =? "NEWLINE"); [now rewrite Hmo|].
  destruct (lastgroup mo =? "WHITESPACE").
  { destruct Hmo as [_ Hb]. revert Hb. apply str_forall_not_mem.
    intros x Hx. now apply blank_facts. }
  apply String.eqb_neq in Hmo'. rewrite Hmo' in Hmo.
  destruct (lastgroup mo =? "T_StringConstant").
  { destruct Hmo as [body [Hl _]]. rewrite Hl in Hq1. discriminate Hq1. }
  destruct Hmo as [_ [_ Hf]]. revert Hf. apply str_forall_not_mem.
  intros x Hx. now apply token_char_facts.
Qed.

Lemma contiguous_app (before : list Match) :
  forall (pos : nat) (after : list Match),
    contiguous pos (before ++ after)%list ->
    contiguous (pos + String.length (covered before)) after.
Proof.
  induction before as [|m before IH]; intros pos after H.
  - cbn in *. now rewrite Nat.add_0_r.
  - cbn [app contiguous covered fold_right] in *. fold (covered before).
    destruct H as [Hs [He H]]. apply IH in H.
    rewrite str_length_app. rewrite He in H. now rewrite Nat.add_assoc.
Qed.

Lemma covered_app (a b : list Match) :
  covered (a ++ b)%list = covered a ++ covered b.
Proof.
  induction a as [|m a IH]; cbn; [reflexivity|].
  fold (covered (a ++ b)%list). fold (covered a).
  now rewrite IH, str_app_assoc.
Qed.

(** The scan ends at its first mismatch.  The error holds the mismatched
    character and the line counter, one more than the [NEWLINE] matches before
    it; when no double quote stands before the character, this is the number
    of the line the character is on. *)
Lemma tokenize_raises_at_first_mismatch (code : string) :
  ~ mismatch_free code ->
  exists (before : list Match) (mo : Match) (after : list Match) (c : ascii),
    finditer code = (before ++ mo :: after)%list
    /\ Forall (fun m => lastgroup m <> "MISMATCH") before
    /\ lastgroup mo = "MISMATCH"
    /\ group mo = String c ""
    /\ mstart mo = String.length (covered before)
    /\ code = covered before ++ String c (covered after)
    /\ tokenize code
       = RuntimeError (String c "")
           (1 + length (filter (fun m => lastgroup m =? "NEWLINE") before))
    /\ (str_mem DQUOTE (covered before) = false ->
        tokenize code = RuntimeError (String c "") (source_line code (mstart mo))).
Proof.
  intros Hnot. unfold mismatch_free in Hnot.
  destruct (split_at_first_mismatch (finditer code))
    as [Hno | [before [mo [after [Hms [Hb Hmo]]]]]]; [contradiction|].
  assert (Hcls := finditer_classes code). rewrite Hms in Hcls.
  apply Forall_app in Hcls. destruct Hcls as [Hcb Hca].
  inversion Hca as [|? ? Hcm Hca']; subst.
  unfold lexeme_class in Hcm. rewrite Hmo in Hcm. cbn in Hcm.
  destruct Hcm as [c [Hg Hc]].
  assert (Hcont := finditer_contiguous code). rewrite Hms in Hcont.
  apply contiguous_app in Hcont. cbn in Hcont. destruct Hcont as [Hst _].
  assert (Hcov := finditer_covers code). rewrite Hms, covered_app in Hcov.
  cbn [covered fold_right] in Hcov. fold (covered after) in Hcov.
  rewrite Hg in Hcov. cbn [append] in Hcov.
  assert (Htok : tokenize code
                 = RuntimeError (String c "")
                     (1 + length (filter (fun m => lastgroup m =? "NEWLINE") before))).
  { unfold tokenize. rewrite Hms, (tokenize_loop_raises _ Hb) by assumption.
    now rewrite Hg. }
  exists before, mo, after, c.
  repeat split; try assumption; [now symmetry|].
  intros Hq. rewrite Htok. f_equal. unfold source_line. f_equal.
  rewrite (newline_matches_count _ Hcb Hq).
  rewrite Hst. rewrite <- Hcov at 1. now rewrite str_take_app.
Qed.

(** ** Line numbers (C3, C7) *)

(** C3, at an input where the code departs from it: a string constant that
    holds a line feed, then a character no pattern matches.  The character
    is on line 2 of the text; the error names it and says line 1, since the
    line feed was matched inside the string constant and not by [NEWLINE]. *)
Theorem C3_line_after_multiline_string :
  let code := dq ++ nl ++ dq ++ "@" in
  tokenize code = RuntimeError "@" 1
  /\ first_mismatch code = Some (mkMatch "MISMATCH" "@" 3 4)
  /\ String.get 3 code = Some "@"%char
  /\ source_line code 3 = 2.
Proof. cbv zeta. repeat split; vm_compute; reflexivity. Qed.

(** C7, at an input where the code departs from it: a string constant that
    holds a line feed, then an identifier.  One line feed stands before the
    identifier, which is on line 2 of the text; its token says line 1 and
    counts its column from the start of line 1. *)
Theorem C7_line_after_multiline_string :
  let code := dq ++ nl ++ dq ++ " x" in
  tokenize code
  = Tokens [mkToken "T_StringConstant" (dq ++ nl ++ dq) 1 1 3;
            mkToken "T_Identifier" "x" 1 5 5]
  /\ String.get 4 code = Some "x"%char
  /\ str_count is_lf (str_take 4 code) = 1
  /\ source_line code 4 = 2.
Proof. cbv zeta. repeat split; vm_compute; reflexivity. Qed.

(** ** Carriage returns (C9) *)

(** At a position of the scan, a carriage return falls to [MISMATCH]. *)
Lemma cr_is_mismatch (prev : option ascii) (rest : string) :
  token_regex prev (String CR rest) = Some ("MISMATCH", String CR "", rest).
Proof.
  unfold token_regex, token_specification. cbn [first_match].
  repeat match goal with
  | |- context [keyword ?kw prev ?s] =>
      replace (keyword kw prev s) with (@None (string * string))
        by (unfold keyword; destruct (word_boundary _ _); reflexivity)
  end.
  reflexivity.
Qed.

Lemma cr_outside_blank (a r : string) :
  str_forall is_blank a = true ->
  cr_outside false (a ++ r) = cr_outside false r.
Proof.
  induction a as [|c a IH]; cbn; [reflexivity|]. intros H.
  apply andb_true_iff in H. destruct H as [Hc Ha].
  destruct (blank_facts c Hc) as [Hq [_ [Hcr _]]]. rewrite Hq, Hcr. now apply IH.
Qed.

Lemma cr_outside_token (a r : string) :
  str_forall is_token_char a = true ->
  cr_outside false (a ++ r) = cr_outside false r.
Proof.
  induction a as [|c a IH]; cbn; [reflexivity|]. intros H.
  apply andb_true_iff in H. destruct H as [Hc Ha].
  destruct (token_char_facts c Hc) as [Hq [_ [Hcr _]]]. rewrite Hq, Hcr.
  now apply IH.
Qed.

Lemma cr_outside_inside (body r : string) :
  str_forall not_dquote body = true ->
  cr_outside true (body ++ dq ++ r) = cr_outside false r.
Proof.
  induction body as [|c body IH]; intros H.
  - reflexivity.
  - cbn in H. apply andb_true_iff in H. destruct H as [Hc Hb].
    unfold not_dquote in Hc. apply negb_true_iff in Hc.
    cbn [append cr_outside]. rewrite Hc. now apply IH.
Qed.

Lemma cr_outside_string (body r : string) :
  str_forall not_dquote body = true ->
  cr_outside false ((dq ++ body ++ dq) ++ r) = cr_outside false r.
Proof.
  intros H. rewrite !str_app_assoc. cbn [dq append cr_outside].
  rewrite Ascii.eqb_refl. cbn [negb]. now apply (cr_outside_inside body r).
Qed.

Lemma cr_outside_no_quote (s : string) :
  str_mem DQUOTE s = false -> cr_outside false s = str_mem CR s.
Proof.
  unfold str_mem. intros H. apply negb_false_iff in H.
  induction s as [|c s IH]; [reflexivity|].
  cbn in H. apply andb_true_iff in H. destruct H as [Hc Hs].
  apply negb_true_iff in Hc. cbn [cr_outside str_forall]. rewrite Hc.
  rewrite (IH Hs). rewrite negb_andb, negb_involutive. reflexivity.
Qed.

(** Matches without a mismatch cover no carriage return outside double
    quotes. *)
Lemma no_mismatch_no_cr_outside (ms : list Match) :
  Forall (fun mo => lexeme_class (lastgroup mo) (group mo)) ms ->
  Forall (fun mo => lastgroup mo <> "MISMATCH") ms ->
  cr_outside false (covered ms) = false.
Proof.
  induction 1 as [|mo ms Hmo Hms IH]; intros Hno; [reflexivity|].
  inversion Hno as [|? ? Hmo' Hno']; subst.
  cbn [covered fold_right]. fold (covered ms).
  unfold lexeme_class in Hmo.
  destruct (lastgroup mo =? "NEWLINE"); [rewrite Hmo; cbn; now apply IH|].
  destruct (lastgroup mo =? "WHITESPACE").
  { destruct Hmo as [_ Hb]. rewrite cr_outside_blank by assumption.
    now apply IH. }
  apply String.eqb_neq in Hmo'. rewrite Hmo' in Hmo.
  destruct (lastgroup mo =? "T_StringConstant").
  - destruct Hmo as [body [-> Hb]]. rewrite cr_outside_string by assumption.
    now apply IH.
  - destruct Hmo as [_ [_ Hf]]. rewrite cr_outside_token by assumption.
    now apply IH.
Qed.

(** *** The first mismatch *)

Lemma first_mismatch_found (code : string) (before : list Match) (mo : Match)
    (after : list Match) :
  finditer code = (before ++ mo :: after)%list ->
  Forall (fun m => lastgroup m <> "MISMATCH") before ->
  lastgroup mo = "MISMATCH" ->
  first_mismatch code = Some mo.
Proof.
  intros Hms Hb Hmo. unfold first_mismatch. rewrite Hms. clear Hms.
  induction Hb as [|m before Hm Hb IH]; cbn [app find].
  - now rewrite Hmo.
  - apply String.eqb_neq in Hm. now rewrite Hm.
Qed.

Lemma str_get_app (a : string) (c : ascii) (b : string) :
  String.get (String.length a) (a ++ String c b) = Some c.
Proof. induction a as [|x a IH]; cbn; [reflexivity | exact IH]. Qed.

Lemma lf_outside_blank (a r : string) :
  str_forall is_blank a = true ->
  lf_outside false (a ++ r) = lf_outside false r.
Proof.
  induction a as [|c a IH]; cbn; [reflexivity|]. intros H.
  apply andb_true_iff in H. destruct H as [Hc Ha].
  destruct (blank_facts c Hc) as [Hq [_ [_ Hlf]]]. rewrite Hq, Hlf. now apply IH.
Qed.

Lemma lf_outside_token (a r : string) :
  str_forall is_token_char a = true ->
  lf_outside false (a ++ r) = lf_outside false r.
Proof.
  induction a as [|c a IH]; cbn; [reflexivity|]. intros H.
  apply andb_true_iff in H. destruct H as [Hc Ha].
  destruct (token_char_facts c Hc) as [Hq [_ [_ Hlf]]]. rewrite Hq, Hlf.
  now apply IH.
Qed.

Lemma lf_outside_inside (body r : string) :
  str_forall not_dquote body = true ->
  lf_outside true (body ++ dq ++ r) = lf_outside false r.
Proof.
  induction body as [|c body IH]; intros H.
  - reflexivity.
  - cbn in H. apply andb_true_iff in H. destruct H as [Hc Hb].
    unfold not_dquote in Hc. apply negb_true_iff in Hc.
    cbn [append lf_outside]. rewrite Hc. now apply IH.
Qed.

Lemma lf_outside_string (body r : string) :
  str_forall not_dquote body = true ->
  lf_outside false ((dq ++ body ++ dq) ++ r) = lf_outside false r.
Proof.
  intros H. rewrite !str_app_assoc. cbn [dq append lf_outside].
  rewrite Ascii.eqb_refl. cbn [negb]. now apply (lf_outside_inside body r).
Qed.

(** The [NEWLINE] matches of a stretch without a mismatch are its line feeds
    outside double quotes: a line feed between quotes is part of a string
    constant. *)
Lemma lf_outside_matches (ms : list Match) :
  Forall (fun mo => lexeme_class (lastgroup mo) (group mo)) ms ->
  Forall (fun mo => lastgroup mo <> "MISMATCH") ms ->
  forall r : string,
    lf_outside false (covered ms ++ r)
    = length (filter (fun m => lastgroup m =? "NEWLINE") ms) + lf_outside false r.
Proof.
  induction 1 as [|mo ms Hmo Hms IH]; intros Hno r; [reflexivity|].
  inversion Hno as [|? ? Hmo' Hno']; subst.
  cbn [covered fold_right filter]. fold (covered ms).
  rewrite str_app_assoc. unfold lexeme_class in Hmo.
  destruct (lastgroup mo =? "NEWLINE").
  { rewrite Hmo. cbn. now rewrite IH. }
  destruct (lastgroup mo =? "WHITESPACE").
  { destruct Hmo as [_ Hb]. rewrite lf_outside_blank by assumption.
    now apply IH. }
  apply String.eqb_neq in Hmo'. rewrite Hmo' in Hmo.
  destruct (lastgroup mo =? "T_StringConstant").
  - destruct Hmo as [body [-> Hb]].
    rewrite lf_outside_string by assumption. now apply IH.
  - destruct Hmo as [_ [_ Hf]]. rewrite lf_outside_token by assumption.
    now apply IH.
Qed.

Lemma lf_outside_le (s : string) :
  forall inside, lf_outside inside s <= str_count is_lf s.
Proof.
  induction s as [|c s IH]; intros inside; cbn; [lia|].
  destruct (Ascii.eqb c DQUOTE).
  - specialize (IH (negb inside)). lia.
  - destruct inside; specialize (IH true) as IHt; specialize (IH false); lia.
Qed.

Lemma lf_outside_no_quote (s : string) :
  str_mem DQUOTE s = false -> lf_outside false s = str_count is_lf s.
Proof.
  unfold str_mem. intros H. apply negb_false_iff in H.
  induction s as [|c s IH]; [reflexivity|].
  cbn in H. apply andb_true_iff in H. destruct H as [Hc Hs].
  apply negb_true_iff in Hc. cbn [lf_outside str_count]. rewrite Hc.
  now rewrite (IH Hs).
Qed.

Lemma first_cr_outside_exists (s : string) :
  forall inside, cr_outside inside s = true ->
                 exists k, first_cr_outside inside s = Some k.
Proof.
  induction s as [|c s IH]; intros inside H; [discriminate H|].
  cbn in *. destruct (Ascii.eqb c DQUOTE).
  - destruct (IH _ H) as [k ->]. now exists (S k).
  - destruct inside.
    + destruct (IH _ H) as [k ->]. now exists (S k).
    + destruct (Ascii.eqb c CR); [now exists 0|].
      destruct (IH _ H) as [k ->]. now exists (S k).
Qed.

Lemma first_cr_outside_get (s : string) :
  forall inside k, first_cr_outside inside s = Some k -> String.get k s = Some CR.
Proof.
  induction s as [|c s IH]; intros inside k H; [discriminate H|].
  cbn in H.
  assert (Hrec : forall i, option_map S (first_cr_outside i s) = Some k ->
                           String.get k (String c s) = Some CR).
  { intros i Hi. destruct (first_cr_outside i s) as [k'|] eqn:E; [|discriminate].
    inversion Hi; subst k. cbn. now apply (IH i). }
  destruct (Ascii.eqb c DQUOTE); [now apply (Hrec (negb inside))|].
  destruct inside; [now apply (Hrec true)|].
  destruct (Ascii.eqb_spec c CR) as [->|_]; [|now apply (Hrec false)].
  now inversion H.
Qed.

(** No carriage return outside quotes in the first [n] characters: the first
    one stands at offset [n] or later. *)
Lemma first_cr_outside_after (s : string) :
  forall inside k n,
    first_cr_outside inside s = Some k ->
    cr_outside inside (str_take n s) = false ->
    n <= k.
Proof.
  induction s as [|c s IH]; intros inside k n Hk Hn; [discriminate Hk|].
  destruct n as [|n]; [lia|].
  cbn in Hk, Hn.
  assert (Hrec : forall i, option_map S (first_cr_outside i s) = Some k ->
                           cr_outside i (str_take n s) = false -> S n <= k).
  { intros i Hi Hc. destruct (first_cr_outside i s) as [k'|] eqn:E; [|discriminate].
    inversion Hi; subst k. specialize (IH i k' n E Hc). lia. }
  destruct (Ascii.eqb c DQUOTE); [now apply (Hrec (negb inside))|].
  destruct inside; [now apply (Hrec true)|].
  destruct (Ascii.eqb c CR); [discriminate Hn|].
  now apply (Hrec false).
Qed.

(** The scan stops at the first match of the catch-all pattern.  The error
    holds its character, and the line counter: one more than the line feeds
    outside double quotes before it. *)
Lemma scan_stops_at_first_mismatch (code : string) :
  ~ mismatch_free code ->
  exists (before : list Match) (mo : Match) (after : list Match) (c : ascii),
    finditer code = (before ++ mo :: after)%list
    /\ Forall (fun m => lastgroup m <> "MISMATCH") before
    /\ first_mismatch code = Some mo
    /\ group mo = String c ""
    /\ code = covered before ++ String c (covered after)
    /\ str_take (mstart mo) code = covered before
    /\ String.get (mstart mo) code = Some c
    /\ tokenize code
       = RuntimeError (String c "")
           (1 + lf_outside false (str_take (mstart mo) code)).
Proof.
  intros Hnot.
  destruct (tokenize_raises_at_first_mismatch code Hnot)
    as [before [mo [after [c [Hms [Hb [Hmo [Hg [Hst [Hcode [Htok _]]]]]]]]]]].
  assert (Htake : str_take (mstart mo) code = covered before).
  { rewrite Hst. rewrite Hcode at 1. apply str_take_app. }
  exists before, mo, after, c.
  split; [exact Hms|]. split; [exact Hb|].
  split; [now apply (first_mismatch_found code before mo after)|].
  split; [exact Hg|]. split; [exact Hcode|]. split; [exact Htake|]. split.
  - rewrite Hst. rewrite Hcode at 1. apply str_get_app.
  - rewrite Htok. f_equal. f_equal. rewrite Htake.
    assert (Hcls := finditer_classes code). rewrite Hms in Hcls.
    apply Forall_app in Hcls. destruct Hcls as [Hcb _].
    rewrite <- (str_app_nil_r (covered before)) at 1.
    rewrite (lf_outside_matches before Hcb Hb ""). cbn. lia.
Qed.

(** C9, as the code has it: a carriage return at a position of the scan
    falls to [MISMATCH].  A text with a carriage return outside double quotes
    makes [tokenize] raise at its first mismatched character, the one
    [first_mismatch] finds: it stands at or before the first carriage return
    outside double quotes and is that carriage return when it stands there,
    that is, unless an earlier character is mismatched; the line of the error
    is one more than the line feeds outside double quotes before the
    character.  In a text without double quotes every carriage return counts,
    and the line of the error is the line of the character it names. *)
Theorem C9_carriage_return_outside_quotes :
  (forall (prev : option ascii) (rest : string),
      token_regex prev (String CR rest) = Some ("MISMATCH", String CR "", rest))
  /\ (forall code : string,
        cr_outside false code = true ->
        exists (mo : Match) (c : ascii) (k : nat),
          first_mismatch code = Some mo
          /\ group mo = String c ""
          /\ String.get (mstart mo) code = Some c
          /\ first_cr_outside false code = Some k
          /\ mstart mo <= k
          /\ (mstart mo = k -> c = CR)
          /\ tokenize code
             = RuntimeError (String c "")
                 (1 + lf_outside false (str_take (mstart mo) code)))
  /\ (forall code : string,
        str_mem CR code = true ->
        str_mem DQUOTE code = false ->
        exists (mo : Match) (c : ascii),
          first_mismatch code = Some mo
          /\ group mo = String c ""
          /\ String.get (mstart mo) code = Some c
          /\ str_mem CR (str_take (mstart mo) code) = false
          /\ tokenize code
             = RuntimeError (String c "") (source_line code (mstart mo))).
Proof.
  split; [exact cr_is_mismatch|]. split.
  - intros code Hcr.
    assert (Hnot : ~ mismatch_free code).
    { intros Hfree. unfold mismatch_free in Hfree.
      assert (H := no_mismatch_no_cr_outside _ (finditer_classes code) Hfree).
      rewrite finditer_covers in H. congruence. }
    destruct (scan_stops_at_first_mismatch code Hnot)
      as [before [mo [after [c [Hms [Hb [Hfirst [Hg [Hcode [Htake [Hget Htok]]]]]]]]]]].
    destruct (first_cr_outside_exists code false Hcr) as [k Hk].
    assert (Hcls := finditer_classes code). rewrite Hms in Hcls.
    apply Forall_app in Hcls. destruct Hcls as [Hcb _].
    exists mo, c, k.
    split; [exact Hfirst|]. split; [exact Hg|]. split; [exact Hget|].
    split; [exact Hk|]. split; [|split; [|exact Htok]].
    + apply (first_cr_outside_after code false k (mstart mo) Hk).
      rewrite Htake. now apply no_mismatch_no_cr_outside.
    + intros E. rewrite E, (first_cr_outside_get code false k Hk) in Hget.
      now inversion Hget.
  - intros code Hcr Hq.
    assert (Hnot : ~ mismatch_free code).
    { intros Hfree. unfold mismatch_free in Hfree.
      assert (H := no_mismatch_no_cr _ (finditer_classes code) Hfree).
      rewrite finditer_covers in H. rewrite (H Hq) in Hcr. discriminate. }
    destruct (scan_stops_at_first_mismatch code Hnot)
      as [before [mo [after [c [Hms [Hb [Hfirst [Hg [Hcode [Htake [Hget Htok]]]]]]]]]]].
    assert (Hqb : str_mem DQUOTE (covered before) = false).
    { rewrite Hcode, str_mem_app in Hq. now apply orb_false_iff in Hq. }
    assert (Hcls := finditer_classes code). rewrite Hms in Hcls.
    apply Forall_app in Hcls. destruct Hcls as [Hcb _].
    exists mo, c.
    split; [exact Hfirst|]. split; [exact Hg|]. split; [exact Hget|]. split.
    + rewrite Htake. now apply no_mismatch_no_cr.
    + rewrite Htok. unfold source_line. rewrite Htake.
      now rewrite (lf_outside_no_quote _ Hqb).
Qed.

Lemma C9_carriage_return_witness :
  let code := "int x;" ++ String CR nl ++ "int y;" in
  (exists (mo : Match) (c : ascii) (k : nat),
      first_mismatch code = Some mo
      /\ group mo = String c ""
      /\ String.get (mstart mo) code = Some c
      /\ first_cr_outside false code = Some k
      /\ mstart mo <= k
      /\ (mstart mo = k -> c = CR)
      /\ tokenize code
         = RuntimeError (String c "")
             (1 + lf_outside false (str_take (mstart mo) code)))
  /\ (exists (mo : Match) (c : ascii),
        first_mismatch code = Some mo
        /\ group mo = String c ""
        /\ String.get (mstart mo) code = Some c
        /\ str_mem CR (str_take (mstart mo) code) = false
        /\ tokenize code
           = RuntimeError (String c "") (source_line code (mstart mo))).
Proof.
  cbv zeta. split.
  - apply (proj1 (proj2 C9_carriage_return_outside_quotes)). reflexivity.
  - apply (proj2 (proj2 C9_carriage_return_outside_quotes)); reflexivity.
Defined.

(** C9 as stated fails: between double quotes a carriage return is part of
    a string constant and [tokenize] returns; and after a mismatched
    character the error is raised there, not at the carriage return. *)
Lemma C9_counterexample :
  str_mem CR (dq ++ String CR "" ++ dq) = true
  /\ tokenize (dq ++ String CR "" ++ dq)
     = Tokens [mkToken "T_StringConstant" (dq ++ String CR "" ++ dq) 1 1 3]
  /\ tokenize ("@" ++ String CR "") = RuntimeError "@" 1.
Proof. repeat split; vm_compute; reflexivity. Qed.

(** ** Token positions *)

(** Every token emitted from offset [pos] on, with the line counter at [line]
    and the line start at [current_position], is on a later line or starts
    at a column from [pos - current_position + 1] on. *)
Lemma emitted_lower_bound (ms : list Match) :
  Forall (fun mo => lexeme_class (lastgroup mo) (group mo)) ms ->
  forall (pos line cur : nat),
    contiguous pos ms -> cur <= pos ->
    Forall (fun t => line < Lexer.line t
                     \/ (line = Lexer.line t /\ pos - cur + 1 <= start_col t))
           (emitted ms line cur).
Proof.
  induction 1 as [|mo ms Hmo Hms IH]; intros pos line cur Hcont Hcur;
    [constructor|].
  cbn [contiguous] in Hcont. destruct Hcont as [Hs [He Hcont]].
  assert (Hne := lexeme_class_nonempty _ _ Hmo).
  assert (Hlen : 1 <= String.length (group mo))
    by (destruct (group mo); [contradiction | cbn; lia]).
  cbn [emitted].
  destruct (lastgroup mo =? "NEWLINE").
  { specialize (IH (mend mo) (line + 1) (mend mo) Hcont (Nat.le_refl _)).
    revert IH. apply Forall_impl. intros t Ht. lia. }
  destruct (lastgroup mo =? "WHITESPACE").
  { assert (Hcur' : cur <= mend mo) by lia.
    specialize (IH (mend mo) line cur Hcont Hcur').
    revert IH. apply Forall_impl. intros t Ht. lia. }
  constructor.
  - cbn [Lexer.line start_col]. right. split; [reflexivity | lia].
  - assert (Hcur' : cur <= mend mo) by lia.
    specialize (IH (mend mo) line cur Hcont Hcur').
    revert IH. apply Forall_impl. intros t Ht. lia.
Qed.

Lemma emitted_sorted (ms : list Match) :
  Forall (fun mo => lexeme_class (lastgroup mo) (group mo)) ms ->
  forall (pos line cur : nat),
    contiguous pos ms -> cur <= pos ->
    StronglySorted position_lt (emitted ms line cur).
Proof.
  induction 1 as [|mo ms Hmo Hms IH]; intros pos line cur Hcont Hcur;
    [constructor|].
  assert (Hcont' := Hcont).
  cbn [contiguous] in Hcont. destruct Hcont as [Hs [He Hcont]].
  assert (Hne := lexeme_class_nonempty _ _ Hmo).
  assert (Hlen : 1 <= String.length (group mo))
    by (destruct (group mo); [contradiction | cbn; lia]).
  cbn [emitted].
  destruct (lastgroup mo =? "NEWLINE");
    [apply (IH (mend mo)); [assumption | lia]|].
  destruct (lastgroup mo =? "WHITESPACE");
    [apply (IH (mend mo)); [assumption | lia]|].
  constructor.
  - apply (IH (mend mo)); [assumption | lia].
  - assert (Hcur' : cur <= mend mo) by lia.
    assert (Hb := emitted_lower_bound ms Hms (mend mo) line cur Hcont Hcur').
    revert Hb. apply Forall_impl. intros t Ht.
    unfold position_lt. cbn [Lexer.line start_col]. lia.
Qed.

(** The tokens of a scanned text stand in strictly increasing source order,
    and none of them has the type of a discarded pattern. *)
Lemma tokenize_order_and_types (code : string) (tokens : list Token) :
  tokenize code = Tokens tokens ->
  StronglySorted position_lt tokens
  /\ Forall (fun t => type t <> "WHITESPACE" /\ type t <> "NEWLINE"
                      /\ type t <> "MISMATCH") tokens.
Proof.
  intros Htok. split.
  - unfold tokenize in Htok.
    destruct (split_at_first_mismatch (finditer code))
      as [Hno | [before [mo [after [Hms [Hb Hmo]]]]]].
    + rewrite (tokenize_loop_emitted _ Hno) in Htok. inversion Htok; subst.
      cbn [app].
      apply (emitted_sorted _ (finditer_classes code) 0);
        [apply finditer_contiguous | lia].
    + rewrite Hms, (tokenize_loop_raises _ Hb) in Htok by assumption.
      discriminate.
  - apply tokenize_types in Htok. revert Htok. apply Forall_impl.
    intros t Hin.
    repeat split; intros E; rewrite E in Hin; vm_compute in Hin;
      intuition discriminate.
Qed.

(** In a text without a double quote, the line of every token is the line
    of the text its first character is on. *)
Lemma emitted_lines (ms : list Match) :
  Forall (fun mo => lexeme_class (lastgroup mo) (group mo)) ms ->
  Forall (fun mo => lastgroup mo <> "MISMATCH") ms ->
  str_mem DQUOTE (covered ms) = false ->
  forall (pre : string) (line cur : nat),
    contiguous (String.length pre) ms ->
    line = 1 + str_count is_lf pre ->
    Forall2 (fun t off => Lexer.line t = source_line (pre ++ covered ms) off)
            (emitted ms line cur) (token_offsets ms).
Proof.
  induction 1 as [|mo ms Hmo Hms IH]; intros Hno Hq pre line cur Hcont Hline;
    [constructor|].
  inversion Hno as [|? ? Hmo' Hno']; subst.
  cbn [contiguous] in Hcont. destruct Hcont as [Hs [He Hcont]].
  cbn [covered fold_right] in *. fold (covered ms) in *.
  rewrite str_mem_app in Hq. apply orb_false_iff in Hq. destruct Hq as [Hq1 Hq2].
  assert (Hlen : mend mo = String.length (pre ++ group mo))
    by (rewrite str_length_app; exact He).
  rewrite Hlen in Hcont.
  rewrite <- str_app_assoc.
  unfold token_offsets. cbn [emitted filter type_in existsb].
  unfold lexeme_class in Hmo.
  destruct (lastgroup mo =? "NEWLINE").
  { cbn [orb negb]. apply (IH Hno' Hq2 (pre ++ group mo)); [assumption|].
    rewrite str_count_app, Hmo. cbn. lia. }
  destruct (lastgroup mo =? "WHITESPACE").
  { cbn [orb negb]. apply (IH Hno' Hq2 (pre ++ group mo)); [assumption|].
    rewrite str_count_app.
    destruct Hmo as [_ Hb].
    rewrite (str_forall_count_0 is_blank is_lf (group mo)); [lia | | assumption].
    intros x Hx. now apply blank_facts. }
  apply String.eqb_neq in Hmo'. rewrite Hmo' in Hmo.
  destruct (lastgroup mo =? "T_StringConstant").
  { destruct Hmo as [body [Hl _]]. rewrite Hl in Hq1. discriminate Hq1. }
  destruct Hmo as [_ [_ Hf]].
  cbn [orb negb map]. constructor.
  - cbn [Lexer.line]. unfold source_line. rewrite Hs.
    rewrite str_app_assoc, str_take_app. reflexivity.
  - apply (IH Hno' Hq2 (pre ++ group mo)); [assumption|].
    rewrite str_count_app.
    rewrite (str_forall_count_0 is_token_char is_lf (group mo));
      [lia | | assumption].
    intros x Hx. now apply token_char_facts.
Qed.

Lemma tokenize_lines_without_quotes (code : string) (tokens : list Token) :
  str_mem DQUOTE code = false ->
  tokenize code = Tokens tokens ->
  Forall2 (fun t off => line t = source_line code off)
          tokens (token_offsets (finditer code)).
Proof.
  intros Hq Htok. unfold tokenize in Htok.
  destruct (split_at_first_mismatch (finditer code))
    as [Hno | [before [mo [after [Hms [Hb Hmo]]]]]].
  - rewrite (tokenize_loop_emitted _ Hno) in Htok. inversion Htok; subst.
    cbn [app].
    assert (H := emitted_lines _ (finditer_classes code) Hno).
    rewrite finditer_covers in H.
    exact (H Hq "" 1 0 (finditer_contiguous code) eq_refl).
  - rewrite Hms, (tokenize_loop_raises _ Hb) in Htok by assumption.
    discriminate.
Qed.

(** ** The recursion budget *)

Lemma settles_refl (A : Type) (m : M A) : settles m m.
Proof. intros position _. reflexivity. Qed.

Lemma settles_out_of_fuel (A : Type) (m : M A) : settles out_of_fuel m.
Proof. intros position H. now contradiction H. Qed.

Lemma settles_bind (A B : Type) (m m' : M A) (k k' : A -> M B) :
  settles m m' -> (forall a, settles (k a) (k' a)) ->
  settles (bind m k) (bind m' k').
Proof.
  intros Hm Hk position H. unfold bind in *.
  destruct (m position) as [[a p]| |] eqn:E.
  - rewrite (Hm position) by (rewrite E; discriminate). rewrite E.
    now apply Hk.
  - rewrite (Hm position) by (rewrite E; discriminate). now rewrite E.
  - now contradiction H.
Qed.

Ltac settle :=
  repeat first
    [ assumption
    | apply settles_refl
    | apply settles_out_of_fuel
    | apply settles_bind; [|intros ?]
    | match goal with
      | |- settles (if ?b then _ else _) (if ?b then _ else _) => destruct b
      | |- settles (match ?x with _ => _ end) (match ?x with _ => _ end) =>
          destruct x
      | H : forall _, settles _ _ |- settles _ _ => apply H
      end ].

Section Budget.

Variable tokens : list Token.

Lemma parse_expression_settles (fuel : nat) :
  settles (parse_expression tokens fuel) (parse_expression tokens (S fuel)).
Proof.
  induction fuel as [|fuel IH]; [apply settles_out_of_fuel|].
  remember (S fuel) as fuel1 eqn:E. rewrite E at 1.
  cbn [parse_expression]. settle.
Qed.

Lemma parse_return_settles (fuel : nat) :
  settles (parse_return tokens fuel) (parse_return tokens (S fuel)).
Proof.
  pose proof (parse_expression_settles fuel). unfold parse_return. settle.
Qed.

Lemma parse_print_settles (fuel : nat) :
  settles (parse_print tokens fuel) (parse_print tokens (S fuel)).
Proof.
  pose proof (parse_expression_settles fuel). unfold parse_print. settle.
Qed.

Lemma parse_expression_statement_settles (fuel : nat) :
  settles (parse_expression_statement tokens fuel)
          (parse_expression_statement tokens (S fuel)).
Proof.
  pose proof (parse_expression_settles fuel).
  unfold parse_expression_statement. settle.
Qed.

Lemma parse_parameters_settles (fuel : nat) :
  forall function,
    settles (parse_parameters tokens fuel function)
            (parse_parameters tokens (S fuel) function).
Proof.
  induction fuel as [|fuel IH]; intros function; [apply settles_out_of_fuel|].
  remember (S fuel) as fuel1 eqn:E. rewrite E at 1.
  cbn [parse_parameters]. settle.
Qed.

Lemma parse_productions_settle (fuel : nat) :
  settles (parse_declaration_or_function tokens fuel)
          (parse_declaration_or_function tokens (S fuel))
  /\ (forall name, settles (parse_function tokens fuel name)
                           (parse_function tokens (S fuel) name))
  /\ settles (parse_block tokens fuel) (parse_block tokens (S fuel))
  /\ (forall block, settles (parse_statements tokens fuel block)
                            (parse_statements tokens (S fuel) block))
  /\ settles (parse_if_else tokens fuel) (parse_if_else tokens (S fuel)).
Proof.
  induction fuel as [|fuel IH].
  - repeat split; intros; apply settles_out_of_fuel.
  - destruct IH as [Hd [Hf [Hb [Hs Hi]]]].
    pose proof (parse_expression_settles fuel) as He.
    pose proof (parse_return_settles fuel) as Hr.
    pose proof (parse_print_settles fuel) as Hp.
    pose proof (parse_expression_statement_settles fuel) as Hx.
    pose proof (parse_parameters_settles fuel) as Hprm.
    remember (S fuel) as fuel1 eqn:E.
    repeat split; intros; rewrite E at 1.
    + cbn [parse_declaration_or_function]. settle.
    + cbn [parse_function]. settle.
    + cbn [parse_block]. settle.
    + cbn [parse_statements]. settle.
    + cbn [parse_if_else]. settle.
Qed.

Lemma parse_program_settles (fuel : nat) :
  forall program,
    settles (parse_program tokens fuel program)
            (parse_program tokens (S fuel) program).
Proof.
  induction fuel as [|fuel IH]; intros program; [apply settles_out_of_fuel|].
  pose proof (proj1 (parse_productions_settle fuel)) as Hd.
  remember (S fuel) as fuel1 eqn:E. rewrite E at 1.
  cbn [parse_program]. settle.
Qed.

End Budget.

(** Once [parse] returns or raises within a budget, it does the same within
    every larger one: only the budget running out depends on the budget. *)
Lemma parse_more_fuel (tokens : list Token) (fuel extra : nat) :
  parse fuel tokens <> OutOfFuel ->
  parse (extra + fuel) tokens = parse fuel tokens.
Proof.
  intros H. induction extra as [|extra IH]; [reflexivity|].
  cbn [Nat.add]. unfold parse in *.
  rewrite (parse_program_settles tokens (extra + fuel) "Program:" 0).
  - exact IH.
  - rewrite IH. exact H.
Qed.

(** * Further properties of the scanner *)

(** X1: the matches of [finditer] split the whole text: joined in order they
    are the text again, each starts where the one before it ended, the first
    at offset 0, and none is empty.  No character is stepped over, because
    [NEWLINE] and [MISMATCH] between them take any character. *)
Theorem X1_matches_partition_the_text :
  forall code : string,
    covered (finditer code) = code
    /\ contiguous 0 (finditer code)
    /\ Forall (fun mo => group mo <> "") (finditer code).
Proof.
  intros code. split; [apply finditer_covers|]. split; [apply finditer_contiguous|].
  assert (H := finditer_classes code). revert H. apply Forall_impl.
  intros mo. apply lexeme_class_nonempty.
Qed.

(** X2: the tokens of a scanned text stand in strictly increasing source
    order, by line and then by start column, and none has the type
    [WHITESPACE], [NEWLINE] or [MISMATCH]. *)
Theorem X2_tokens_in_source_order :
  forall (code : string) (tokens : list Token),
    tokenize code = Tokens tokens ->
    StronglySorted position_lt tokens
    /\ Forall (fun t => type t <> "WHITESPACE" /\ type t <> "NEWLINE"
                        /\ type t <> "MISMATCH") tokens.
Proof. exact tokenize_order_and_types. Qed.

Lemma X2_tokens_in_source_order_witness :
  exists tokens,
    tokenize ("int x;" ++ nl ++ "  x = 1;") = Tokens tokens
    /\ StronglySorted position_lt tokens
    /\ Forall (fun t => type t <> "WHITESPACE" /\ type t <> "NEWLINE"
                        /\ type t <> "MISMATCH") tokens.
Proof.
  eexists. split; [vm_compute; reflexivity|].
  apply (X2_tokens_in_source_order ("int x;" ++ nl ++ "  x = 1;")).
  vm_compute. reflexivity.
Defined.

Lemma emitted_well_placed (ms : list Match) :
  forall (pos line cur : nat),
    contiguous pos ms -> cur <= pos -> 1 <= line ->
    Forall well_placed (emitted ms line cur).
Proof.
  induction ms as [|mo ms IH]; intros pos line cur Hcont Hcur Hline;
    [constructor|].
  cbn [contiguous] in Hcont. destruct Hcont as [Hs [He Hcont]].
  cbn [emitted].
  destruct (lastgroup mo =? "NEWLINE");
    [apply (IH (mend mo)); [assumption | lia | lia]|].
  destruct (lastgroup mo =? "WHITESPACE");
    [apply (IH (mend mo)); [assumption | lia | lia]|].
  constructor; [|apply (IH (mend mo)); [assumption | lia | lia]].
  unfold well_placed. cbn [Lexer.line start_col end_col value]. lia.
Qed.

(** X3: every token of a scanned text has a line and a start column of at
    least 1, and its columns span exactly its text:
    [end_col = start_col + len(value) - 1]. *)
Theorem X3_token_columns_span_the_text :
  forall (code : string) (tokens : list Token),
    tokenize code = Tokens tokens -> Forall well_placed tokens.
Proof.
  intros code tokens Htok. unfold tokenize in Htok.
  destruct (split_at_first_mismatch (finditer code))
    as [Hno | [before [mo [after [Hms [Hb Hmo]]]]]].
  - rewrite (tokenize_loop_emitted _ Hno) in Htok. inversion Htok; subst.
    cbn [app].
    apply (emitted_well_placed _ 0); [apply finditer_contiguous | lia | lia].
  - rewrite Hms, (tokenize_loop_raises _ Hb) in Htok by assumption.
    discriminate.
Qed.

Lemma X3_token_columns_witness :
  exists tokens,
    tokenize ("return" ++ nl ++ "   count;") = Tokens tokens
    /\ Forall well_placed tokens.
Proof.
  eexists. split; [vm_compute; reflexivity|].
  apply (X3_token_columns_span_the_text ("return" ++ nl ++ "   count;")).
  vm_compute. reflexivity.
Defined.

Lemma column_after_app (a b : string) :
  forall acc, column_after (a ++ b) acc = column_after b (column_after a acc).
Proof.
  induction a as [|c a IH]; intros acc; cbn; [reflexivity|].
  destruct (is_lf c); apply IH.
Qed.

Lemma column_after_no_lf (a : string) :
  str_count is_lf a = 0 ->
  forall acc, column_after a acc = acc + String.length a.
Proof.
  induction a as [|c a IH]; intros H acc; cbn in *; [lia|].
  destruct (is_lf c); [discriminate|]. rewrite IH by assumption. lia.
Qed.

Lemma substring_app (pre a r : string) :
  String.substring (String.length pre) (String.length a) (pre ++ a ++ r) = a.
Proof.
  induction pre as [|c pre IH]; cbn [String.length append String.substring].
  - induction a as [|x a IHa]; cbn; [now destruct r | now rewrite IHa].
  - exact IH.
Qed.

(** In a stretch of text without double quotes and without a mismatch, every
    emitted token sits where its text is. *)
Lemma emitted_placed (ms : list Match) :
  Forall (fun mo => lexeme_class (lastgroup mo) (group mo)) ms ->
  Forall (fun mo => lastgroup mo <> "MISMATCH") ms ->
  str_mem DQUOTE (covered ms) = false ->
  forall (pre : string) (line cur : nat),
    contiguous (String.length pre) ms ->
    line = 1 + str_count is_lf pre ->
    cur + column_after pre 0 = String.length pre ->
    Forall2 (fun t off =>
               Lexer.line t = source_line (pre ++ covered ms) off
               /\ start_col t = source_column (pre ++ covered ms) off
               /\ String.substring off (String.length (value t))
                    (pre ++ covered ms) = value t)
            (emitted ms line cur) (token_offsets ms).
Proof.
  induction 1 as [|mo ms Hmo Hms IH];
    intros Hno Hq pre line cur Hcont Hline Hcur; [constructor|].
  inversion Hno as [|? ? Hmo' Hno']; subst.
  cbn [contiguous] in Hcont. destruct Hcont as [Hs [He Hcont]].
  cbn [covered fold_right] in *. fold (covered ms) in *.
  rewrite str_mem_app in Hq. apply orb_false_iff in Hq. destruct Hq as [Hq1 Hq2].
  assert (Hlen : mend mo = String.length (pre ++ group mo))
    by (rewrite str_length_app; exact He).
  rewrite Hlen in Hcont.
  unfold token_offsets. cbn [emitted filter type_in existsb].
  unfold lexeme_class in Hmo.
  destruct (lastgroup mo =? "NEWLINE").
  { cbn [orb negb]. rewrite <- str_app_assoc.
    apply (IH Hno' Hq2 (pre ++ group mo)); [assumption | |].
    - rewrite str_count_app, Hmo. cbn. lia.
    - rewrite Hlen, column_after_app, Hmo. cbn. lia. }
  destruct (lastgroup mo =? "WHITESPACE").
  { cbn [orb negb]. rewrite <- str_app_assoc.
    destruct Hmo as [_ Hb].
    assert (H0 : str_count is_lf (group mo) = 0).
    { apply (str_forall_count_0 is_blank is_lf); [|assumption].
      intros x Hx. now apply blank_facts. }
    apply (IH Hno' Hq2 (pre ++ group mo)); [assumption | |].
    - rewrite str_count_app, H0. lia.
    - rewrite column_after_app, (column_after_no_lf _ H0), str_length_app. lia. }
  apply String.eqb_neq in Hmo'. rewrite Hmo' in Hmo.
  destruct (lastgroup mo =? "T_StringConstant").
  { destruct Hmo as [body [Hl _]]. rewrite Hl in Hq1. discriminate Hq1. }
  destruct Hmo as [_ [_ Hf]].
  assert (H0 : str_count is_lf (group mo) = 0).
  { apply (str_forall_count_0 is_token_char is_lf); [|assumption].
    intros x Hx. now apply token_char_facts. }
  cbn [orb negb map]. constructor.
  - cbn [Lexer.line start_col value]. rewrite Hs.
    unfold source_line, source_column. rewrite str_take_app.
    repeat split; [lia | apply substring_app].
  - rewrite <- str_app_assoc.
    apply (IH Hno' Hq2 (pre ++ group mo)); [assumption | |].
    + rewrite str_count_app, H0. lia.
    + rewrite column_after_app, (column_after_no_lf _ H0), str_length_app. lia.
Qed.

(** X4: in a text without a double quote, every token tells where it is:
    taking the tokens in order with the offsets at which their matches
    start, the [line] of a token is the line of the text its first character
    is on, its [start_col] is the column of that character on this line, and
    its [value] is the text found at that offset. *)
Theorem X4_positions_without_quotes :
  forall (code : string) (tokens : list Token),
    str_mem DQUOTE code = false ->
    tokenize code = Tokens tokens ->
    Forall2 (fun t off =>
               line t = source_line code off
               /\ start_col t = source_column code off
               /\ String.substring off (String.length (value t)) code = value t)
            tokens (token_offsets (finditer code)).
Proof.
  intros code tokens Hq Htok. unfold tokenize in Htok.
  destruct (split_at_first_mismatch (finditer code))
    as [Hno | [before [mo [after [Hms [Hb Hmo]]]]]].
  - rewrite (tokenize_loop_emitted _ Hno) in Htok. inversion Htok; subst.
    cbn [app].
    assert (H := emitted_placed _ (finditer_classes code) Hno).
    rewrite finditer_covers in H.
    exact (H Hq "" 1 0 (finditer_contiguous code) eq_refl eq_refl).
  - rewrite Hms, (tokenize_loop_raises _ Hb) in Htok by assumption.
    discriminate.
Qed.

Lemma X4_positions_witness :
  let code := "int x;" ++ nl ++ "  x = 12;" in
  exists tokens,
    tokenize code = Tokens tokens
    /\ Forall2 (fun t off =>
                  line t = source_line code off
                  /\ start_col t = source_column code off
                  /\ String.substring off (String.length (value t)) code
                     = value t)
               tokens (token_offsets (finditer code)).
Proof.
  cbv zeta. eexists. split; [vm_compute; reflexivity|].
  apply (X4_positions_without_quotes ("int x;" ++ nl ++ "  x = 12;"));
    vm_compute; reflexivity.
Defined.

(** Every match of [finditer] is what [token_regex] found at some position,
    in front of some rest of the text. *)
Lemma finditer_from_origin (fuel : nat) :
  forall (prev : option ascii) (s : string) (pos : nat),
    Forall (fun mo => exists prev' rest,
              token_regex prev' (group mo ++ rest)
              = Some (lastgroup mo, group mo, rest))
           (finditer_from fuel prev s pos).
Proof.
  induction fuel as [|fuel IH]; intros prev s pos; [constructor|].
  destruct s as [|c s]; [constructor|].
  cbn [finditer_from].
  destruct (token_regex prev (String c s)) as [[[kind lexeme] rest]|] eqn:E;
    [|now apply token_regex_total in E].
  constructor; [|apply IH].
  cbn [group lastgroup]. exists prev, rest.
  destruct (token_regex_class _ _ _ _ _ E) as [Hs _]. now rewrite <- Hs.
Qed.

(** X5: when [tokenize] raises, the error names the first character of the
    text that fell to [MISMATCH], the one [first_mismatch] finds.  It is
    neither a line feed nor a safe character.  The line of the error is one
    more than the line feeds outside double quotes before the character: at
    most the line the character is on, and that line when no double quote
    stands before the character. *)
Theorem X5_error_names_a_character :
  forall (code unexpected : string) (on_line : nat),
    tokenize code = RuntimeError unexpected on_line ->
    exists (mo : Match) (c : ascii),
      first_mismatch code = Some mo
      /\ group mo = String c ""
      /\ unexpected = String c ""
      /\ String.get (mstart mo) code = Some c
      /\ c <> LF
      /\ is_safe_char c = false
      /\ on_line = 1 + lf_outside false (str_take (mstart mo) code)
      /\ on_line <= source_line code (mstart mo)
      /\ (str_mem DQUOTE (str_take (mstart mo) code) = false ->
          on_line = source_line code (mstart mo)).
Proof.
  intros code unexpected on_line Htok.
  assert (Hnot : ~ mismatch_free code).
  { intros Hfree. unfold tokenize in Htok.
    rewrite (tokenize_loop_emitted _ Hfree) in Htok. discriminate. }
  destruct (scan_stops_at_first_mismatch code Hnot)
    as [before [mo [after [c [Hms [Hb [Hfirst [Hg [Hcode [Htake [Hget Hraise]]]]]]]]]]].
  rewrite Hraise in Htok. inversion Htok; subst unexpected on_line.
  assert (Hmo : lastgroup mo = "MISMATCH").
  { unfold first_mismatch in Hfirst. apply find_some in Hfirst.
    now apply String.eqb_eq. }
  assert (Hcls := finditer_classes code). rewrite Hms in Hcls.
  apply Forall_app in Hcls. destruct Hcls as [Hcb Hca].
  apply Forall_inv in Hca. rename Hca into Hcm.
  assert (Horg := finditer_from_origin (String.length code) None code 0).
  fold (finditer code) in Horg. rewrite Hms in Horg.
  apply Forall_app in Horg. destruct Horg as [_ Horg].
  apply Forall_inv in Horg. destruct Horg as [prev' [rest Hre]].
  rewrite Hg, Hmo in Hre. cbn [append] in Hre.
  unfold lexeme_class in Hcm. rewrite Hmo, Hg in Hcm. cbn in Hcm.
  destruct Hcm as [c' [Hc' Hlf]]. inversion Hc'; subst c'.
  exists mo, c.
  split; [exact Hfirst|]. split; [exact Hg|]. split; [reflexivity|].
  split; [exact Hget|]. split; [exact Hlf|]. split; [|split; [reflexivity|split]].
  - destruct (is_safe_char c) eqn:Hsafe; [|reflexivity].
    exfalso. now apply (safe_char_not_mismatch _ _ _ _ _ _ Hsafe Hre).
  - unfold source_line.
    assert (Hle := lf_outside_le (str_take (mstart mo) code) false). lia.
  - intros Hq. unfold source_line. now rewrite (lf_outside_no_quote _ Hq).
Qed.

Lemma X5_error_witness :
  let code := "int x;" ++ nl ++ "x @ 1;" in
  exists (mo : Match) (c : ascii),
    first_mismatch code = Some mo
    /\ group mo = String c ""
    /\ "@" = String c ""
    /\ String.get (mstart mo) code = Some c
    /\ c <> LF
    /\ is_safe_char c = false
    /\ 2 = 1 + lf_outside false (str_take (mstart mo) code)
    /\ 2 <= source_line code (mstart mo)
    /\ (str_mem DQUOTE (str_take (mstart mo) code) = false ->
        2 = source_line code (mstart mo)).
Proof.
  cbv zeta.
  apply (X5_error_names_a_character ("int x;" ++ nl ++ "x @ 1;") "@" 2).
  vm_compute. reflexivity.
Defined.

(** ** Double quotes *)

Lemma quotes_even_without_mismatch (ms : list Match) :
  Forall (fun mo => lexeme_class (lastgroup mo) (group mo)) ms ->
  Forall (fun mo => lastgroup mo <> "MISMATCH") ms ->
  Nat.even (str_count is_dquote (covered ms)) = true.
Proof.
  induction 1 as [|mo ms Hmo Hms IH]; intros Hno; [reflexivity|].
  inversion Hno as [|? ? Hmo' Hno']; subst.
  cbn [covered fold_right]. fold (covered ms).
  rewrite str_count_app, Nat.even_add, (IH Hno').
  unfold lexeme_class in Hmo.
  destruct (lastgroup mo =? "NEWLINE"); [now rewrite Hmo|].
  destruct (lastgroup mo =? "WHITESPACE").
  { destruct Hmo as [_ Hb].
    rewrite (str_forall_count_0 is_blank is_dquote (group mo));
      [reflexivity | | assumption].
    intros x Hx. now apply blank_facts. }
  apply String.eqb_neq in Hmo'. rewrite Hmo' in Hmo.
  destruct (lastgroup mo =? "T_StringConstant").
  - destruct Hmo as [body [-> Hb]].
    rewrite !str_count_app.
    rewrite (str_forall_count_0 not_dquote is_dquote body);
      [reflexivity | | assumption].
    intros x Hx. unfold not_dquote in Hx. now apply negb_true_iff in Hx.
  - destruct Hmo as [_ [_ Hf]].
    rewrite (str_forall_count_0 is_token_char is_dquote (group mo));
      [reflexivity | | assumption].
    intros x Hx. now apply token_char_facts.
Qed.

(** X6: a text with an odd number of double quotes never tokenizes: a quote
    that opens a string constant needs a later quote to close it, and the
    one left over falls to [MISMATCH], so [tokenize] raises. *)
Theorem X6_odd_quotes_raise :
  forall code : string,
    Nat.odd (str_count is_dquote code) = true ->
    exists unexpected on_line, tokenize code = RuntimeError unexpected on_line.
Proof.
  intros code Hodd.
  assert (Hnot : ~ mismatch_free code).
  { intros Hfree.
    assert (H := quotes_even_without_mismatch _ (finditer_classes code) Hfree).
    rewrite finditer_covers in H. unfold Nat.odd in Hodd.
    rewrite H in Hodd. discriminate. }
  destruct (tokenize_raises_at_first_mismatch code Hnot)
    as [before [mo [after [c [_ [_ [_ [_ [_ [_ [Hraise _]]]]]]]]]]].
  eexists _, _. exact Hraise.
Qed.

Lemma X6_odd_quotes_witness :
  exists unexpected on_line,
    tokenize ("Print " ++ dq ++ "hello;") = RuntimeError unexpected on_line.
Proof.
  apply (X6_odd_quotes_raise ("Print " ++ dq ++ "hello;")). reflexivity.
Defined.

(** ** Text without tokens *)

Lemma space_is_safe (c : ascii) : is_space c = true -> is_safe_char c = true.
Proof.
  unfold is_space, is_safe_char, is_lf. intros H.
  apply orb_true_iff in H. destruct H as [H|H]; rewrite H;
    now rewrite ?orb_true_r.
Qed.

Lemma emitted_of_spaces (ms : list Match) :
  Forall (fun mo => lexeme_class (lastgroup mo) (group mo)) ms ->
  Forall (fun mo => lastgroup mo <> "MISMATCH") ms ->
  str_forall is_space (covered ms) = true ->
  forall line cur, emitted ms line cur = [].
Proof.
  induction 1 as [|mo ms Hmo Hms IH]; intros Hno Hsp line cur; [reflexivity|].
  inversion Hno as [|? ? Hmo' Hno']; subst.
  cbn [covered fold_right] in Hsp. fold (covered ms) in Hsp.
  rewrite str_forall_app in Hsp. apply andb_true_iff in Hsp.
  destruct Hsp as [Hsp1 Hsp2].
  cbn [emitted]. unfold lexeme_class in Hmo.
  destruct (lastgroup mo =? "NEWLINE"); [now apply IH|].
  destruct (lastgroup mo =? "WHITESPACE"); [now apply IH|].
  exfalso.
  apply String.eqb_neq in Hmo'. rewrite Hmo' in Hmo.
  destruct (lastgroup mo =? "T_StringConstant").
  - destruct Hmo as [body [Hl _]]. rewrite Hl in Hsp1. discriminate Hsp1.
  - destruct Hmo as [_ [Hne Hf]].
    destruct (group mo) as [|c g]; [contradiction|].
    cbn in Hsp1, Hf. apply andb_true_iff in Hsp1, Hf.
    destruct Hsp1 as [Hc _]. destruct Hf as [Hc' _].
    destruct (token_char_facts c Hc') as [_ [Hns _]]. congruence.
Qed.

(** X7: a text made only of spaces, tabs and line feeds (the empty text
    among them) gives no token at all, and [parse] on no tokens returns the
    bare root. *)
Theorem X7_blank_text_is_empty_program :
  forall code : string,
    str_forall is_space code = true ->
    tokenize code = Tokens []
    /\ forall fuel, parse (S fuel) [] = Ok ("Program:", 0).
Proof.
  intros code Hsp. split; [|reflexivity].
  assert (Hfree : mismatch_free code).
  { apply finditer_from_safe. revert Hsp. apply str_forall_impl.
    exact space_is_safe. }
  unfold tokenize. rewrite (tokenize_loop_emitted _ Hfree). cbn [app].
  rewrite emitted_of_spaces;
    [reflexivity | apply finditer_classes | exact Hfree |].
  now rewrite finditer_covers.
Qed.

Lemma X7_blank_text_witness :
  tokenize ("  " ++ nl ++ String TAB nl) = Tokens []
  /\ forall fuel, parse (S fuel) [] = Ok ("Program:", 0).
Proof.
  apply (X7_blank_text_is_empty_program ("  " ++ nl ++ String TAB nl)).
  reflexivity.
Defined.

(** ** Words *)

Lemma span_all (f : ascii -> bool) (s : string) :
  str_forall f s = true -> span f s = (s, "").
Proof.
  induction s as [|c s IH]; cbn; [reflexivity|]. intros H.
  apply andb_true_iff in H. destruct H as [Hc Hs]. now rewrite Hc, IH.
Qed.

(** On a word that is not the keyword, the keyword's pattern fails: either
    the letters differ, or the word goes on and there is no word boundary
    after the keyword. *)
Lemma keyword_fails_on_other_word (kw : string) (prev : option ascii)
    (word : string) :
  str_forall is_word word = true ->
  word <> kw ->
  is_word_opt (last_char prev kw) = true ->
  keyword kw prev word = None.
Proof.
  intros Hw Hne Hlast. unfold keyword.
  destruct (word_boundary prev (head word)); [|reflexivity].
  destruct (strip_prefix kw word) as [rest|] eqn:E; [|reflexivity].
  apply strip_prefix_app in E. subst word.
  destruct rest as [|c rest]; [now rewrite str_app_nil_r in Hne|].
  rewrite str_forall_app in Hw. apply andb_true_iff in Hw.
  destruct Hw as [_ Hw]. cbn in Hw. apply andb_true_iff in Hw.
  destruct Hw as [Hc _].
  unfold word_boundary. rewrite Hlast. cbn [head is_word_opt]. now rewrite Hc.
Qed.

Lemma word_is_identifier (a : ascii) (w : string) :
  is_ident_start a = true ->
  str_forall is_word w = true ->
  ~ In (String a w) (map snd keywords) ->
  token_regex None (String a w) = Some ("T_Identifier", String a w, "").
Proof.
  intros Ha Hw Hkw.
  assert (Hword : str_forall is_word (String a w) = true).
  { cbn. rewrite Hw. unfold is_word. now rewrite Ha. }
  unfold token_regex, token_specification. cbn [first_match].
  repeat match goal with
  | |- context [keyword ?kw None (String a w)] =>
      rewrite (keyword_fails_on_other_word kw None (String a w) Hword);
        [ | intros E; apply Hkw; rewrite E; cbn; tauto | reflexivity ]
  end.
  clear Hkw Hword.
  destruct a as [b0 b1 b2 b3 b4 b5 b6 b7].
  destruct b0, b1, b2, b3, b4, b5, b6, b7; try discriminate Ha;
    cbn; rewrite (span_all is_word w Hw); reflexivity.
Qed.

Lemma finditer_from_empty (fuel : nat) (prev : option ascii) (pos : nat) :
  finditer_from fuel prev "" pos = [].
Proof. destruct fuel; reflexivity. Qed.

(** X8: reserved words are matched as whole words only.  Each of the seven
    reserved words alone gives its keyword token; every other word (a
    letter or underscore followed by word characters), such as [else],
    [while] or [intx], gives one [T_Identifier] token that spans it. *)
Theorem X8_words_are_keywords_or_identifiers :
  Forall (fun kw => tokenize (snd kw)
                    = Tokens [mkToken (fst kw) (snd kw) 1 1
                                      (String.length (snd kw))]) keywords
  /\ forall (a : ascii) (w : string),
       is_ident_start a = true ->
       str_forall is_word w = true ->
       ~ In (String a w) (map snd keywords) ->
       tokenize (String a w)
       = Tokens [mkToken "T_Identifier" (String a w) 1 1
                         (String.length (String a w))].
Proof.
  split; [repeat constructor|].
  intros a w Ha Hw Hkw. unfold tokenize, finditer.
  cbn [String.length finditer_from].
  rewrite (word_is_identifier a w Ha Hw Hkw).
  rewrite finditer_from_empty. reflexivity.
Qed.

Lemma X8_words_witness :
  tokenize "else"
  = Tokens [mkToken "T_Identifier" "else" 1 1 (String.length "else")].
Proof.
  apply (proj2 X8_words_are_keywords_or_identifiers "e"%char "lse").
  - reflexivity.
  - reflexivity.
  - cbn. intuition discriminate.
Defined.

(** ** The texts of the tokens *)

Lemma emitted_shapes (ms : list Match) :
  Forall (fun mo => lexeme_class (lastgroup mo) (group mo)) ms ->
  Forall (fun mo => lastgroup mo <> "MISMATCH") ms ->
  forall line cur,
    Forall (fun t =>
              value t <> ""
              /\ (type t = "T_StringConstant" ->
                  exists body, value t = dq ++ body ++ dq
                               /\ str_mem DQUOTE body = false)
              /\ (type t <> "T_StringConstant" ->
                  str_forall is_token_char (value t) = true))
           (emitted ms line cur).
Proof.
  induction 1 as [|mo ms Hmo Hms IH]; intros Hno line cur; [constructor|].
  inversion Hno as [|? ? Hmo' Hno']; subst.
  cbn [emitted].
  assert (Hne := lexeme_class_nonempty _ _ Hmo).
  unfold lexeme_class in Hmo.
  destruct (lastgroup mo =? "NEWLINE"); [now apply IH|].
  destruct (lastgroup mo =? "WHITESPACE"); [now apply IH|].
  constructor; [|now apply IH].
  cbn [type value]. split; [exact Hne|].
  apply String.eqb_neq in Hmo'. rewrite Hmo' in Hmo.
  destruct (String.eqb_spec (lastgroup mo) "T_StringConstant") as [E|E].
  - split; [|contradiction]. intros _.
    destruct Hmo as [body [Hl Hb]]. exists body. split; [exact Hl|].
    apply str_mem_false_forall. exact Hb.
  - split; [contradiction|]. intros _. tauto.
Qed.

(** X9: the text of every token of a scanned text is not empty; a string
    constant is a double quote, a body without double quotes, and a double
    quote; every other token is made of word characters and operator
    characters only, so it holds no space, tab, line feed, carriage return
    or double quote. *)
Theorem X9_token_texts :
  (forall c, is_token_char c = true ->
             Ascii.eqb c DQUOTE = false /\ is_space c = false
             /\ Ascii.eqb c CR = false /\ is_lf c = false)
  /\ forall (code : string) (tokens : list Token),
       tokenize code = Tokens tokens ->
       Forall (fun t =>
                 value t <> ""
                 /\ (type t = "T_StringConstant" ->
                     exists body, value t = dq ++ body ++ dq
                                  /\ str_mem DQUOTE body = false)
                 /\ (type t <> "T_StringConstant" ->
                     str_forall is_token_char (value t) = true))
              tokens.
Proof.
  split; [exact token_char_facts|].
  intros code tokens Htok. unfold tokenize in Htok.
  destruct (split_at_first_mismatch (finditer code))
    as [Hno | [before [mo [after [Hms [Hb Hmo]]]]]].
  - rewrite (tokenize_loop_emitted _ Hno) in Htok. inversion Htok; subst.
    cbn [app]. apply emitted_shapes; [apply finditer_classes | assumption].
  - rewrite Hms, (tokenize_loop_raises _ Hb) in Htok by assumption.
    discriminate.
Qed.

Lemma X9_token_texts_witness :
  exists tokens,
    tokenize ("Print " ++ dq ++ "a b" ++ dq ++ ";") = Tokens tokens
    /\ Forall (fun t =>
                 value t <> ""
                 /\ (type t = "T_StringConstant" ->
                     exists body, value t = dq ++ body ++ dq
                                  /\ str_mem DQUOTE body = false)
                 /\ (type t <> "T_StringConstant" ->
                     str_forall is_token_char (value t) = true))
              tokens.
Proof.
  eexists. split; [vm_compute; reflexivity|].
  apply (proj2 X9_token_texts ("Print " ++ dq ++ "a b" ++ dq ++ ";")).
  vm_compute. reflexivity.
Defined.

(** X10: no pattern is named [T_Equal]: the text [==] scans as one
    [T_LessEqual] token, no token of a scanned text has the type [T_Equal],
    and so on scanned tokens the [T_Equal] test of [parse_expression] never
    holds: a [RelationalExpr] comes from a [T_LessEqual] token only. *)
Theorem X10_equal_type_never_scanned :
  tokenize "==" = Tokens [mkToken "T_LessEqual" "==" 1 1 2]
  /\ forall (code : string) (tokens : list Token),
       tokenize code = Tokens tokens ->
       Forall (fun t => type t <> "T_Equal"
                        /\ ((type t =? "T_LessEqual") || (type t =? "T_Equal")
                            = (type t =? "T_LessEqual"))) tokens.
Proof.
  split; [vm_compute; reflexivity|].
  intros code tokens Htok. apply tokenize_types in Htok.
  revert Htok. apply Forall_impl. intros t Hin.
  assert (Hne : type t <> "T_Equal").
  { intros E. rewrite E in Hin. vm_compute in Hin. intuition discriminate. }
  split; [exact Hne|]. apply String.eqb_neq in Hne. rewrite Hne.
  apply orb_false_r.
Qed.

Lemma X10_equal_type_witness :
  exists tokens,
    tokenize "return == a b;" = Tokens tokens
    /\ Forall (fun t => type t <> "T_Equal"
                        /\ ((type t =? "T_LessEqual") || (type t =? "T_Equal")
                            = (type t =? "T_LessEqual"))) tokens.
Proof.
  eexists. split; [vm_compute; reflexivity|].
  apply (proj2 X10_equal_type_never_scanned "return == a b;").
  vm_compute. reflexivity.
Defined.

(** * Further properties of the parser *)

(** ** The cursor *)

Lemma advances_weaken (A : Type) (j k : nat) (m : M A) :
  j <= k -> advances_by k m -> advances_by j m.
Proof. intros Hjk H p a p' E. apply H in E. lia. Qed.

Lemma advances_bind (A B : Type) (j k : nat) (m : M A) (f : A -> M B) :
  advances_by j m -> (forall a, advances_by k (f a)) ->
  advances_by (j + k) (bind m f).
Proof.
  intros Hm Hf p b p' E. unfold bind in E.
  destruct (m p) as [[a p1]| |] eqn:Em; try discriminate.
  apply Hm in Em. apply Hf in E. lia.
Qed.

Lemma advances_bind0 (A B : Type) (m : M A) (f : A -> M B) :
  advances_by 0 m -> (forall a, advances_by 0 (f a)) ->
  advances_by 0 (bind m f).
Proof. apply (advances_bind A B 0 0). Qed.

Lemma advances_ret (A : Type) (a : A) : advances_by 0 (ret a).
Proof. intros p x p' E. inversion E. lia. Qed.

Lemma advances_raise (A : Type) (k : nat) (e : exn) :
  advances_by k (@raise A e).
Proof. intros p x p' E. discriminate. Qed.

Lemma advances_out_of_fuel (A : Type) (k : nat) :
  advances_by k (@out_of_fuel A).
Proof. intros p x p' E. discriminate. Qed.

Lemma advances_consume : advances_by 1 consume.
Proof. intros p x p' E. inversion E. lia. Qed.

Lemma advances_consume0 : advances_by 0 consume.
Proof. apply (advances_weaken _ 0 1); [lia | exact advances_consume]. Qed.

Lemma advances_current (tokens : list Token) :
  advances_by 0 (current_token tokens).
Proof. intros p x p' E. inversion E. lia. Qed.

Lemma advances_get_type (o : option Token) : advances_by 0 (get_type o).
Proof. destruct o; [apply advances_ret | apply advances_raise]. Qed.

Lemma advances_get_value (o : option Token) : advances_by 0 (get_value o).
Proof. destruct o; [apply advances_ret | apply advances_raise]. Qed.

Lemma advances_add_str (acc : string) (o : option string) :
  advances_by 0 (add_str acc o).
Proof. destruct o; [apply advances_ret | apply advances_raise]. Qed.

Ltac advance :=
  repeat first
    [ assumption
    | apply advances_ret
    | apply advances_raise
    | apply advances_out_of_fuel
    | apply advances_consume0
    | apply advances_current
    | apply advances_get_type
    | apply advances_get_value
    | apply advances_add_str
    | apply advances_bind0; [|intros ?]
    | match goal with
      | |- advances_by 0 (if ?b then _ else _) => destruct b
      | |- advances_by 0 (match ?x with _ => _ end) => destruct x
      | H : forall _, advances_by 0 _ |- advances_by 0 _ => apply H
      | H : advances_by ?k ?m |- advances_by 0 ?m =>
          apply (advances_weaken _ 0 k); [lia | exact H]
      end ].

Section Cursor.

Variable tokens : list Token.

Lemma parse_expression_advances (fuel : nat) :
  advances_by 0 (parse_expression tokens fuel).
Proof.
  induction fuel as [|fuel IH]; [apply advances_out_of_fuel|].
  cbn [parse_expression]. advance.
Qed.

Lemma parse_return_advances (fuel : nat) :
  advances_by 1 (parse_return tokens fuel).
Proof.
  unfold parse_return. apply (advances_bind _ _ 1 0); [apply advances_consume|].
  intros _. pose proof (parse_expression_advances fuel). advance.
Qed.

Lemma parse_print_advances (fuel : nat) :
  advances_by 1 (parse_print tokens fuel).
Proof.
  unfold parse_print. apply (advances_bind _ _ 1 0); [apply advances_consume|].
  intros _. pose proof (parse_expression_advances fuel). advance.
Qed.

Lemma parse_expression_statement_advances (fuel : nat) :
  advances_by 0 (parse_expression_statement tokens fuel).
Proof.
  pose proof (parse_expression_advances fuel).
  unfold parse_expression_statement. advance.
Qed.

Lemma parse_parameters_advances (fuel : nat) :
  forall function, advances_by 0 (parse_parameters tokens fuel function).
Proof.
  induction fuel as [|fuel IH]; intros function; [apply advances_out_of_fuel|].
  cbn [parse_parameters]. advance.
Qed.

Lemma parse_productions_advance (fuel : nat) :
  advances_by 0 (parse_declaration_or_function tokens fuel)
  /\ (forall name, advances_by 2 (parse_function tokens fuel name))
  /\ advances_by 2 (parse_block tokens fuel)
  /\ (forall block, advances_by 0 (parse_statements tokens fuel block))
  /\ advances_by 3 (parse_if_else tokens fuel).
Proof.
  induction fuel as [|fuel IH].
  - repeat split; intros; apply advances_out_of_fuel.
  - destruct IH as [Hd [Hf [Hb [Hs Hi]]]].
    pose proof (parse_expression_advances fuel) as He.
    pose proof (parse_return_advances fuel) as Hr.
    pose proof (parse_print_advances fuel) as Hp.
    pose proof (parse_expression_statement_advances fuel) as Hx.
    pose proof (parse_parameters_advances fuel) as Hprm.
    assert (Hf0 : forall name, advances_by 0 (parse_function tokens fuel name))
      by (intros name; apply (advances_weaken _ 0 2); [lia | apply Hf]).
    assert (Hb0 : advances_by 0 (parse_block tokens fuel))
      by (apply (advances_weaken _ 0 2); [lia | apply Hb]).
    assert (Hi0 : advances_by 0 (parse_if_else tokens fuel))
      by (apply (advances_weaken _ 0 3); [lia | apply Hi]).
    assert (Hr0 : advances_by 0 (parse_return tokens fuel))
      by (apply (advances_weaken _ 0 1); [lia | apply Hr]).
    assert (Hp0 : advances_by 0 (parse_print tokens fuel))
      by (apply (advances_weaken _ 0 1); [lia | apply Hp]).
    repeat split; intros.
    + cbn [parse_declaration_or_function]. advance.
    + cbn [parse_function].
      apply (advances_bind _ _ 1 1); [apply advances_consume|]. intros _.
      apply (advances_bind _ _ 0 1); [apply Hprm|]. intros f.
      apply (advances_bind _ _ 1 0); [apply advances_consume|]. intros _.
      advance.
    + cbn [parse_block].
      apply (advances_bind _ _ 1 1); [apply advances_consume|]. intros _.
      apply (advances_bind _ _ 0 1); [apply Hs|]. intros b.
      apply (advances_bind _ _ 1 0); [apply advances_consume|]. intros _.
      apply advances_ret.
    + cbn [parse_statements]. advance.
    + cbn [parse_if_else].
      apply (advances_bind _ _ 1 2); [apply advances_consume|]. intros _.
      apply (advances_bind _ _ 0 2); [apply He|]. intros c.
      apply (advances_bind _ _ 2 0); [apply Hb|]. intros b.
      advance.
Qed.

Lemma parse_program_advances (fuel : nat) :
  forall program, advances_by 0 (parse_program tokens fuel program).
Proof.
  induction fuel as [|fuel IH]; intros program; [apply advances_out_of_fuel|].
  pose proof (proj1 (parse_productions_advance fuel)) as Hd.
  cbn [parse_program]. advance.
Qed.

End Cursor.

(** X11: the cursor never moves back.  Whenever a production returns, the
    cursor is where it was or further: at least one token further after
    [parse_return] and [parse_print], at least two after [parse_function] and
    [parse_block] (which consume their brackets unchecked, also past the end
    of the tokens), and at least three after [parse_if_else]. *)
Theorem X11_cursor_never_moves_back :
  forall (tokens : list Token) (fuel position position' : nat),
    (forall r, parse_expression tokens fuel position = Ok (r, position') ->
               position <= position')
    /\ (forall r, parse_expression_statement tokens fuel position
                  = Ok (r, position') -> position <= position')
    /\ (forall r, parse_return tokens fuel position = Ok (r, position') ->
                  position + 1 <= position')
    /\ (forall r, parse_print tokens fuel position = Ok (r, position') ->
                  position + 1 <= position')
    /\ (forall r, parse_declaration_or_function tokens fuel position
                  = Ok (r, position') -> position <= position')
    /\ (forall name r, parse_function tokens fuel name position
                       = Ok (r, position') -> position + 2 <= position')
    /\ (forall r, parse_block tokens fuel position = Ok (r, position') ->
                  position + 2 <= position')
    /\ (forall r, parse_if_else tokens fuel position = Ok (r, position') ->
                  position + 3 <= position')
    /\ (forall program r, parse_program tokens fuel program position
                          = Ok (r, position') -> position <= position').
Proof.
  intros tokens fuel position position'.
  destruct (parse_productions_advance tokens fuel) as [Hd [Hf [Hb [Hs Hi]]]].
  repeat split; intros.
  - apply (parse_expression_advances tokens fuel) in H. lia.
  - apply (parse_expression_statement_advances tokens fuel) in H. lia.
  - now apply (parse_return_advances tokens fuel) in H.
  - now apply (parse_print_advances tokens fuel) in H.
  - apply Hd in H. lia.
  - now apply Hf in H.
  - now apply Hb in H.
  - now apply Hi in H.
  - apply (parse_program_advances tokens fuel) in H. lia.
Qed.

Lemma X11_cursor_witness :
  let tokens := [mkToken "T_LBrace" "{" 1 1 1; mkToken "T_Return" "return" 1 3 8;
                 mkToken "T_Identifier" "a" 1 10 10;
                 mkToken "T_Semicolon" ";" 1 11 11;
                 mkToken "T_RBrace" "}" 1 13 13] in
  0 + 2 <= 5.
Proof.
  cbv zeta.
  apply (proj1 (proj2 (proj2 (proj2 (proj2 (proj2 (proj2
           (X11_cursor_never_moves_back
              [mkToken "T_LBrace" "{" 1 1 1; mkToken "T_Return" "return" 1 3 8;
               mkToken "T_Identifier" "a" 1 10 10;
               mkToken "T_Semicolon" ";" 1 11 11;
               mkToken "T_RBrace" "}" 1 13 13] 4 0 5)))))))
           (nl ++ "        Return:" ++ nl ++ "            FieldAccess: a")).
  reflexivity.
Defined.

(** ** Expressions *)

Lemma starts_expression_of_test (ty : string) :
  starts_expression ty
  = type_in ty ["T_IntConstant"; "T_Identifier"]
    || ((ty =? "T_Add") || (ty =? "T_Sub"))
    || ((ty =? "T_And") || (ty =? "T_Or"))
    || ((ty =? "T_LessEqual") || (ty =? "T_Equal"))
    || (ty =? "T_Not").
Proof.
  unfold starts_expression, type_in. cbn [existsb].
  rewrite !orb_false_r, !orb_assoc. reflexivity.
Qed.

(** X12: what [parse_expression] returns tells what it read.  When it
    returns, there was a current token; it returns [None] exactly on a token
    that starts no expression, and then the cursor has not moved; on a token
    that starts an expression it returns a text and the cursor is at least one
    token further. *)
Theorem X12_expression_result :
  forall (tokens : list Token) (fuel position position' : nat)
         (r : option string),
    parse_expression tokens fuel position = Ok (r, position') ->
    exists t,
      nth_error tokens position = Some t
      /\ ((r = None /\ starts_expression (type t) = false
           /\ position' = position)
          \/ (exists s, r = Some s /\ starts_expression (type t) = true
                        /\ position < position')).
Proof.
  intros tokens fuel position position' r H.
  destruct fuel as [|fuel]; [discriminate|].
  cbn [parse_expression] in H. unfold bind at 1, current_token at 1 in H.
  destruct (nth_error tokens position) as [t|] eqn:Hnth; [|discriminate].
  exists t. split; [reflexivity|]. unfold bind at 1 in H. cbn [get_type ret] in H.
  rewrite starts_expression_of_test.
  pose proof (parse_expression_advances tokens fuel) as Hadv.
  destruct (type_in (type t) ["T_IntConstant"; "T_Identifier"]).
  { right. cbn in H. inversion H; subst. eexists. repeat split. lia. }
  destruct ((type t =? "T_Add") || (type t =? "T_Sub")).
  { right. unfold bind, get_value, ret, consume in H.
    destruct (parse_expression tokens fuel (position + 1)) as [[l p1]| |] eqn:E1;
      try discriminate.
    destruct (parse_expression tokens fuel p1) as [[rr p2]| |] eqn:E2;
      try discriminate.
    inversion H; subst. apply Hadv in E1, E2. eexists. repeat split. lia. }
  destruct ((type t =? "T_And") || (type t =? "T_Or")).
  { right. unfold bind, get_value, ret, consume in H.
    destruct (parse_expression tokens fuel (position + 1)) as [[l p1]| |] eqn:E1;
      try discriminate.
    destruct (parse_expression tokens fuel p1) as [[rr p2]| |] eqn:E2;
      try discriminate.
    inversion H; subst. apply Hadv in E1, E2. eexists. repeat split. lia. }
  destruct ((type t =? "T_LessEqual") || (type t =? "T_Equal")).
  { right. unfold bind, get_value, ret, consume in H.
    destruct (parse_expression tokens fuel (position + 1)) as [[l p1]| |] eqn:E1;
      try discriminate.
    destruct (parse_expression tokens fuel p1) as [[rr p2]| |] eqn:E2;
      try discriminate.
    inversion H; subst. apply Hadv in E1, E2. eexists. repeat split. lia. }
  destruct (type t =? "T_Not").
  { right. unfold bind, ret, consume in H.
    destruct (parse_expression tokens fuel (position + 1)) as [[l p1]| |] eqn:E1;
      try discriminate.
    inversion H; subst. apply Hadv in E1. eexists. repeat split. lia. }
  left. inversion H; subst. repeat split.
Qed.

Lemma X12_expression_result_witness :
  exists t,
    nth_error [mkToken "T_Not" "!" 1 1 1; mkToken "T_Identifier" "a" 1 2 2] 0
    = Some t
    /\ ((Some ("LogicalExpr: !" ++ nl ++ "            FieldAccess: a") = None
         /\ starts_expression (type t) = false /\ 2 = 0)
        \/ (exists s,
              Some ("LogicalExpr: !" ++ nl ++ "            FieldAccess: a")
              = Some s
              /\ starts_expression (type t) = true /\ 0 < 2)).
Proof.
  apply (X12_expression_result
           [mkToken "T_Not" "!" 1 1 1; mkToken "T_Identifier" "a" 1 2 2] 2 0 2).
  reflexivity.
Defined.

Lemma nth_error_skipn (A : Type) (l : list A) (p : nat) (x : A) (rest : list A) :
  skipn p l = x :: rest -> nth_error l p = Some x.
Proof.
  revert l; induction p as [|p IH]; intros l H.
  - cbn in H. now subst l.
  - destruct l as [|y l]; [discriminate|]. cbn in *. now apply IH.
Qed.

Lemma skipn_step (A : Type) (l : list A) (p : nat) (x : A) (rest : list A) :
  skipn p l = x :: rest -> skipn (p + 1) l = rest.
Proof.
  revert l; induction p as [|p IH]; intros l H.
  - cbn in H. now subst l.
  - destruct l as [|y l]; [discriminate|]. cbn in *. now apply IH.
Qed.

Lemma skipn_steps (A : Type) (l : list A) (p : nat) (a rest : list A) :
  skipn p l = (a ++ rest)%list -> skipn (p + length a) l = rest.
Proof.
  revert p; induction a as [|x a IH]; intros p H.
  - now rewrite Nat.add_0_r.
  - cbn [app] in H. apply skipn_step in H. apply IH in H.
    cbn [length]. now replace (p + S (length a)) with (p + 1 + length a) by lia.
Qed.

(** ** The end of the tokens *)

(** X14: what each production does when the cursor is at or past the end of
    the tokens.  The productions that read the current token's type raise
    [AttributeError]: [parse_expression], [parse_expression_statement],
    [parse_declaration_or_function], and through them [parse_return],
    [parse_print] and [parse_if_else].  [parse_block] and [parse_function] do
    not look before they consume: they return, with an empty block and a bare
    function line, and leave the cursor two further.  The top-level loop
    returns what it has. *)
Theorem X14_productions_at_end_of_tokens :
  forall (tokens : list Token) (position fuel : nat),
    length tokens <= position ->
    parse_expression tokens (S fuel) position = Raise AttributeError
    /\ parse_expression_statement tokens (S fuel) position = Raise AttributeError
    /\ parse_declaration_or_function tokens (S fuel) position
       = Raise AttributeError
    /\ parse_return tokens (S fuel) position = Raise AttributeError
    /\ parse_print tokens (S fuel) position = Raise AttributeError
    /\ parse_if_else tokens (S (S fuel)) position = Raise AttributeError
    /\ parse_block tokens (S (S fuel)) position = Ok ("", position + 1 + 1)
    /\ (forall name,
          parse_function tokens (S (S fuel)) name position
          = Ok (nl ++ "    Function: " ++ name, position + 1 + 1))
    /\ (forall program,
          parse_program tokens (S fuel) program position = Ok (program, position)).
Proof.
  intros tokens position fuel Hend.
  assert (Hnone : forall k, nth_error tokens (position + k) = None)
    by (intros k; apply nth_error_None; lia).
  assert (H0 : nth_error tokens position = None)
    by (apply nth_error_None; lia).
  assert (He : forall f p, length tokens <= p ->
                           parse_expression tokens (S f) p = Raise AttributeError).
  { intros f p Hp. cbn [parse_expression]. unfold bind at 1, current_token at 1.
    rewrite (proj2 (nth_error_None tokens p) Hp). reflexivity. }
  repeat split; intros.
  - apply He. lia.
  - unfold parse_expression_statement, bind at 1. rewrite He by lia. reflexivity.
  - cbn [parse_declaration_or_function]. unfold bind at 1, current_token at 1.
    rewrite H0. reflexivity.
  - unfold parse_return, bind, consume. rewrite He by lia. reflexivity.
  - unfold parse_print, bind, consume. rewrite He by lia. reflexivity.
  - cbn [parse_if_else]. unfold bind, consume. rewrite He by lia. reflexivity.
  - cbn [parse_block parse_statements]. unfold bind, consume, current_token.
    rewrite Hnone. reflexivity.
  - cbn [parse_function parse_parameters]. unfold bind, consume, current_token.
    rewrite Hnone. cbn [present_and_not ret].
    replace (position + 1 + 1) with (position + 2) by lia.
    rewrite Hnone. reflexivity.
  - now apply parse_program_done.
Qed.

Lemma X14_end_of_tokens_witness :
  let tokens := [mkToken "T_Return" "return" 1 1 6] in
  parse_expression tokens 1 1 = Raise AttributeError
  /\ parse_expression_statement tokens 1 1 = Raise AttributeError
  /\ parse_declaration_or_function tokens 1 1 = Raise AttributeError
  /\ parse_return tokens 1 1 = Raise AttributeError
  /\ parse_print tokens 1 1 = Raise AttributeError
  /\ parse_if_else tokens 2 1 = Raise AttributeError
  /\ parse_block tokens 2 1 = Ok ("", 1 + 1 + 1)
  /\ (forall name,
        parse_function tokens 2 name 1
        = Ok (nl ++ "    Function: " ++ name, 1 + 1 + 1))
  /\ (forall program, parse_program tokens 1 program 1 = Ok (program, 1)).
Proof.
  cbv zeta.
  apply (X14_productions_at_end_of_tokens
           [mkToken "T_Return" "return" 1 1 6] 1 0).
  cbn. lia.
Defined.

(** ** Declarations that go wrong *)

(** The top-level loop over skipped tokens and declarations, with more tokens
    after them. *)
Lemma parse_program_items_then (items : list top_item) :
  Forall item_ok items ->
  forall (pre rest : list Token) (program : string) (fuel : nat),
    parse_program (pre ++ items_tokens items ++ rest)%list
                  (length items + S fuel) program (length pre)
    = parse_program (pre ++ items_tokens items ++ rest)%list (S fuel)
                    (program ++ items_text items)
                    (length pre + length (items_tokens items)).
Proof.
  induction 1 as [|it items Hit Hitems IH]; intros pre rest program fuel.
  - cbn. now rewrite str_app_nil_r, Nat.add_0_r.
  - cbn [length Nat.add].
    destruct it as [t | ty name semi]; cbn [item_ok] in Hit;
      cbn [items_tokens flat_map item_tokens items_text fold_right item_text];
      fold (items_tokens items); fold (items_text items).
    + rewrite (parse_program_skip _ _ (length pre) program t).
      * replace (pre ++ ([t] ++ items_tokens items) ++ rest)%list
          with ((pre ++ [t]) ++ items_tokens items ++ rest)%list
          by (now rewrite <- !app_assoc).
        replace (length pre + 1) with (length (pre ++ [t])%list)
          by (rewrite length_app; reflexivity).
        rewrite IH. rewrite !length_app. cbn [length "++"%list].
        f_equal. lia.
      * rewrite <- (Nat.add_0_r (length pre)) at 1.
        now rewrite nth_error_after.
      * exact Hit.
    + destruct Hit as [Hty Hsemi].
      rewrite Nat.add_succ_r.
      rewrite (parse_program_declaration _ _ (length pre) program ty name semi);
        try assumption.
      * rewrite <- Nat.add_succ_r.
        replace (pre ++ ([ty; name; semi] ++ items_tokens items) ++ rest)%list
          with ((pre ++ [ty; name; semi]) ++ items_tokens items ++ rest)%list
          by (now rewrite <- !app_assoc).
        replace (length pre + 1 + 1 + 1)
          with (length (pre ++ [ty; name; semi])%list)
          by (rewrite length_app; cbn [length]; lia).
        rewrite IH. rewrite !length_app. cbn [length]. rewrite !str_app_assoc.
        f_equal. lia.
      * rewrite <- (Nat.add_0_r (length pre)) at 1.
        now rewrite nth_error_after.
      * now rewrite nth_error_after.
      * rewrite <- Nat.add_assoc. now rewrite nth_error_after.
Qed.

(** X15: a declaration cut short by the end of the tokens.  After any run
    of skipped tokens and declarations, a type keyword that is the last token,
    or is followed by one last token, makes [parse] raise [AttributeError]
    (the type of the absent token is read): [int] and [int x] without the
    semicolon do not parse. *)
Theorem X15_truncated_declaration_raises :
  forall (items : list top_item) (ty : Token) (tail : list Token) (fuel : nat),
    Forall item_ok items ->
    type_in (type ty) ["T_Int"; "T_Void"] = true ->
    length tail <= 1 ->
    parse (length items + S (S fuel)) (items_tokens items ++ ty :: tail)
    = Raise AttributeError.
Proof.
  intros items ty tail fuel Hok Hty Htail. unfold parse.
  rewrite (parse_program_items_then items Hok [] (ty :: tail)).
  cbn [app length Nat.add].
  set (tokens := (items_tokens items ++ ty :: tail)%list).
  set (n := length (items_tokens items)).
  assert (H0 : nth_error tokens n = Some ty).
  { unfold tokens, n. rewrite <- (Nat.add_0_r (length _)).
    now rewrite nth_error_after. }
  assert (H2 : nth_error tokens (n + 1 + 1) = None).
  { apply nth_error_None. unfold tokens, n. rewrite length_app.
    cbn [length]. lia. }
  cbn [parse_program]. unfold bind at 1, current_token at 1.
  rewrite H0, Hty. unfold bind at 1.
  cbn [parse_declaration_or_function]. unfold bind, current_token, consume.
  rewrite H0. cbn [get_type ret]. rewrite Hty, H2. reflexivity.
Qed.

Lemma X15_truncated_declaration_witness :
  parse (1 + 2)
        (items_tokens [Declared (mkToken "T_Int" "int" 1 1 3)
                                (mkToken "T_Identifier" "x" 1 5 5)
                                (mkToken "T_Semicolon" ";" 1 6 6)]
           ++ mkToken "T_Int" "int" 2 1 3 :: [mkToken "T_Identifier" "y" 2 5 5])
  = Raise AttributeError.
Proof.
  apply (X15_truncated_declaration_raises
           [Declared (mkToken "T_Int" "int" 1 1 3)
                     (mkToken "T_Identifier" "x" 1 5 5)
                     (mkToken "T_Semicolon" ";" 1 6 6)]
           (mkToken "T_Int" "int" 2 1 3)
           [mkToken "T_Identifier" "y" 2 5 5] 0).
  - repeat constructor.
  - reflexivity.
  - cbn. lia.
Defined.

(** X16: a declaration that goes on with something else.  After any run of
    skipped tokens and declarations, a type keyword, one more token and a
    token that is neither [(] nor [;] make [parse_declaration_or_function]
    return [None] with two tokens consumed, and the [+=] of the top-level loop
    raise [TypeError]: a declaration with an initializer, [int x = 1;], does
    not parse. *)
Theorem X16_declaration_without_semicolon_raises :
  forall (items : list top_item) (ty name other : Token) (rest : list Token)
         (fuel : nat),
    Forall item_ok items ->
    type_in (type ty) ["T_Int"; "T_Void"] = true ->
    type other <> "T_LParen" ->
    type other <> "T_Semicolon" ->
    parse_declaration_or_function (ty :: name :: other :: rest) (S fuel) 0
    = Ok (None, 2)
    /\ parse (length items + S (S fuel))
             (items_tokens items ++ ty :: name :: other :: rest)
       = Raise TypeError.
Proof.
  intros items ty name other rest fuel Hok Hty Hlp Hsemi.
  apply String.eqb_neq in Hlp, Hsemi. split.
  - cbn [parse_declaration_or_function]. unfold bind, current_token, consume.
    cbn [nth_error get_type ret Nat.add]. rewrite Hty.
    cbn [nth_error get_type ret Nat.add]. rewrite Hlp, Hsemi. reflexivity.
  - unfold parse.
    rewrite (parse_program_items_then items Hok [] (ty :: name :: other :: rest)).
    cbn [app length Nat.add].
    set (tokens := (items_tokens items ++ ty :: name :: other :: rest)%list).
    set (n := length (items_tokens items)).
    assert (H0 : nth_error tokens n = Some ty).
    { unfold tokens, n. rewrite <- (Nat.add_0_r (length _)).
      now rewrite nth_error_after. }
    assert (H2 : nth_error tokens (n + 1 + 1) = Some other).
    { unfold tokens, n. rewrite <- Nat.add_assoc. now rewrite nth_error_after. }
    cbn [parse_program]. unfold bind at 1, current_token at 1.
    rewrite H0, Hty. unfold bind at 1.
    cbn [parse_declaration_or_function]. unfold bind, current_token, consume.
    rewrite H0. cbn [get_type ret]. rewrite Hty, H2. cbn [get_type ret].
    rewrite Hlp, Hsemi. reflexivity.
Qed.

Lemma X16_declaration_without_semicolon_witness :
  let ty := mkToken "T_Int" "int" 1 1 3 in
  let name := mkToken "T_Identifier" "x" 1 5 5 in
  let other := mkToken "T_Assign" "=" 1 7 7 in
  let rest := [mkToken "T_IntConstant" "1" 1 9 9;
               mkToken "T_Semicolon" ";" 1 10 10] in
  parse_declaration_or_function (ty :: name :: other :: rest) 1 0 = Ok (None, 2)
  /\ parse (0 + 2) (items_tokens [] ++ ty :: name :: other :: rest)
     = Raise TypeError.
Proof.
  cbv zeta.
  apply (X16_declaration_without_semicolon_raises
           [] (mkToken "T_Int" "int" 1 1 3) (mkToken "T_Identifier" "x" 1 5 5)
           (mkToken "T_Assign" "=" 1 7 7)
           [mkToken "T_IntConstant" "1" 1 9 9;
            mkToken "T_Semicolon" ";" 1 10 10] 0).
  - constructor.
  - reflexivity.
  - discriminate.
  - discriminate.
Defined.

(** ** Parameter lists *)

Lemma parse_function_stuck (tokens : list Token) (position : nat) (t : Token) :
  nth_error tokens (position + 1) = Some t ->
  type t <> "T_RParen" ->
  type_in (type t) ["T_Int"; "T_Bool"] = false ->
  forall fuel name, parse_function tokens fuel name position = OutOfFuel.
Proof.
  intros Hnth Hrp Hty fuel name. destruct fuel as [|fuel]; [reflexivity|].
  cbn [parse_function]. unfold bind at 1, consume at 1. unfold bind at 1.
  now rewrite (parse_parameters_stuck tokens (position + 1) t).
Qed.

Lemma parse_program_items_stuck (items : list top_item) :
  Forall item_ok items ->
  forall (pre rest : list Token),
    (forall fuel program,
        parse_program (pre ++ items_tokens items ++ rest)%list fuel program
                      (length pre + length (items_tokens items)) = OutOfFuel) ->
    forall fuel program,
      parse_program (pre ++ items_tokens items ++ rest)%list fuel program
                    (length pre) = OutOfFuel.
Proof.
  induction 1 as [|it items Hit Hitems IH]; intros pre rest Hrest fuel program.
  - specialize (Hrest fuel program). cbn in Hrest.
    now rewrite Nat.add_0_r in Hrest.
  - destruct fuel as [|fuel]; [reflexivity|].
    destruct it as [t | ty name semi]; cbn [item_ok] in Hit;
      cbn [items_tokens flat_map item_tokens] in *;
      fold (items_tokens items) in *.
    + rewrite (parse_program_skip _ _ (length pre) program t).
      * revert Hrest.
        replace (pre ++ ([t] ++ items_tokens items) ++ rest)%list
          with ((pre ++ [t]) ++ items_tokens items ++ rest)%list
          by (now rewrite <- !app_assoc).
        replace (length pre + 1) with (length (pre ++ [t])%list)
          by (rewrite length_app; reflexivity).
        intros Hrest. apply IH. intros f prog.
        rewrite <- (Hrest f prog). f_equal.
        rewrite !length_app. cbn [length]. lia.
      * rewrite <- (Nat.add_0_r (length pre)) at 1.
        now rewrite nth_error_after.
      * exact Hit.
    + destruct Hit as [Hty Hsemi].
      assert (H0 : nth_error (pre ++ ([ty; name; semi] ++ items_tokens items)
                                  ++ rest)%list (length pre) = Some ty).
      { rewrite <- (Nat.add_0_r (length pre)) at 1.
        now rewrite nth_error_after. }
      destruct fuel as [|fuel].
      { cbn [parse_program]. unfold bind at 1, current_token at 1.
        rewrite H0, Hty. reflexivity. }
      rewrite (parse_program_declaration _ _ (length pre) program ty name semi);
        try assumption.
      * revert Hrest.
        replace (pre ++ ([ty; name; semi] ++ items_tokens items) ++ rest)%list
          with ((pre ++ [ty; name; semi]) ++ items_tokens items ++ rest)%list
          by (now rewrite <- !app_assoc).
        replace (length pre + 1 + 1 + 1)
          with (length (pre ++ [ty; name; semi])%list)
          by (rewrite length_app; cbn [length]; lia).
        intros Hrest. apply IH. intros f prog.
        rewrite <- (Hrest f prog). f_equal.
        rewrite !length_app. cbn [length]. lia.
      * now rewrite nth_error_after.
      * rewrite <- Nat.add_assoc. now rewrite nth_error_after.
Qed.

(** X17: a parameter list [parse_function] cannot leave.  When the token
    after the opening parenthesis of a function is neither [)] nor a
    parameter type, the loop over the parameters consumes nothing and meets
    the same token again: [parse_function] neither returns nor raises, whatever
    the budget, and neither does [parse] on a program that reaches such a
    function, as in [void f(x)]. *)
Theorem X17_parameter_loop_never_ends :
  forall (items : list top_item) (ty name lparen t : Token)
         (rest : list Token),
    Forall item_ok items ->
    type_in (type ty) ["T_Int"; "T_Void"] = true ->
    type lparen = "T_LParen" ->
    type t <> "T_RParen" ->
    type_in (type t) ["T_Int"; "T_Bool"] = false ->
    (forall fuel fname,
        parse_function (ty :: name :: lparen :: t :: rest) fuel fname 2
        = OutOfFuel)
    /\ forall fuel,
         parse fuel (items_tokens items ++ ty :: name :: lparen :: t :: rest)
         = OutOfFuel.
Proof.
  intros items ty name lparen t rest Hok Hty Hlp Hrp Ht. split.
  - intros fuel fname. now apply (parse_function_stuck _ 2 t).
  - intros fuel. unfold parse.
    apply (parse_program_items_stuck items Hok []
             (ty :: name :: lparen :: t :: rest)).
    clear fuel. intros fuel program. cbn [app length Nat.add].
    set (tokens := (items_tokens items ++ ty :: name :: lparen :: t :: rest)%list).
    set (n := length (items_tokens items)).
    assert (H0 : nth_error tokens n = Some ty).
    { unfold tokens, n. rewrite <- (Nat.add_0_r (length _)).
      now rewrite nth_error_after. }
    assert (H1 : nth_error tokens (n + 1) = Some name).
    { unfold tokens, n. now rewrite nth_error_after. }
    assert (H2 : nth_error tokens (n + 1 + 1) = Some lparen).
    { unfold tokens, n. rewrite <- Nat.add_assoc. now rewrite nth_error_after. }
    assert (H3 : nth_error tokens (n + 1 + 1 + 1) = Some t).
    { unfold tokens, n. rewrite <- !Nat.add_assoc. now rewrite nth_error_after. }
    destruct fuel as [|fuel]; [reflexivity|].
    cbn [parse_program]. unfold bind at 1, current_token at 1.
    rewrite H0, Hty. unfold bind at 1.
    destruct fuel as [|fuel]; [reflexivity|].
    cbn [parse_declaration_or_function]. unfold bind, current_token, consume.
    rewrite H0. cbn [get_type ret]. rewrite Hty, H1, H2. cbn [get_type ret].
    rewrite Hlp. cbn [String.eqb Ascii.eqb Bool.eqb get_value ret].
    now rewrite (parse_function_stuck tokens (n + 1 + 1) t H3 Hrp Ht).
Qed.

Lemma X17_parameter_loop_witness :
  let ty := mkToken "T_Void" "void" 1 1 4 in
  let name := mkToken "T_Identifier" "f" 1 6 6 in
  let lparen := mkToken "T_LParen" "(" 1 7 7 in
  let t := mkToken "T_Identifier" "x" 1 8 8 in
  let rest := [mkToken "T_RParen" ")" 1 9 9] in
  (forall fuel fname,
      parse_function (ty :: name :: lparen :: t :: rest) fuel fname 2 = OutOfFuel)
  /\ forall fuel,
       parse fuel (items_tokens [] ++ ty :: name :: lparen :: t :: rest)
       = OutOfFuel.
Proof.
  cbv zeta.
  apply (X17_parameter_loop_never_ends
           [] (mkToken "T_Void" "void" 1 1 4) (mkToken "T_Identifier" "f" 1 6 6)
           (mkToken "T_LParen" "(" 1 7 7) (mkToken "T_Identifier" "x" 1 8 8)
           [mkToken "T_RParen" ")" 1 9 9]).
  - constructor.
  - reflexivity.
  - reflexivity.
  - discriminate.
  - reflexivity.
Defined.

Lemma nth_error_skipn_hd (A : Type) (l : list A) (p : nat) :
  nth_error l p = hd_error (skipn p l).
Proof.
  revert l; induction p as [|p IH]; intros l.
  - now destruct l.
  - destruct l as [|y l]; [reflexivity|]. cbn. apply IH.
Qed.

Lemma parameters_then_not_comma (ps : list parameter) (rparen : Token)
    (post : list Token) :
  Forall parameter_ok ps ->
  type rparen = "T_RParen" ->
  exists t rest,
    (parameters_tokens ps ++ rparen :: post)%list = t :: rest
    /\ (type t =? "T_Comma") = false.
Proof.
  intros Hok Hrp. destruct ps as [|p ps].
  - exists rparen, post. split; [reflexivity|]. now rewrite Hrp.
  - inversion Hok as [|? ? [Hty _] _]; subst.
    eexists (p_type p), _. split; [reflexivity|].
    cbn [In] in Hty. destruct Hty as [E|[E|[]]]; now rewrite <- E.
Qed.

Lemma parse_parameters_reads (tokens : list Token) (ps : list parameter) :
  Forall parameter_ok ps ->
  forall (position fuel : nat) (function : string) (rparen : Token)
         (post : list Token),
    skipn position tokens = (parameters_tokens ps ++ rparen :: post)%list ->
    type rparen = "T_RParen" ->
    length ps < fuel ->
    parse_parameters tokens fuel function position
    = Ok (function ++ parameters_text ps,
          position + length (parameters_tokens ps)).
Proof.
  induction 1 as [|p ps Hp Hps IH];
    intros position fuel function rparen post Hskip Hrp Hfuel;
    (destruct fuel as [|fuel]; [cbn in Hfuel; lia|]).
  - cbn [parameters_tokens flat_map app] in Hskip.
    apply nth_error_skipn in Hskip.
    cbn [parse_parameters]. unfold bind at 1, current_token at 1.
    rewrite Hskip. cbn [present_and_not]. rewrite Hrp. cbn.
    now rewrite str_app_nil_r, Nat.add_0_r.
  - cbn [length] in Hfuel.
    cbn [parameters_tokens flat_map parameters_text fold_right] in *.
    fold (parameters_tokens ps) in *. fold (parameters_text ps).
    destruct Hp as [Hty Hcomma].
    unfold parameter_tokens in Hskip. cbn [app] in Hskip.
    assert (H0 := nth_error_skipn _ _ _ _ _ Hskip).
    apply skipn_step in Hskip.
    assert (H1 := nth_error_skipn _ _ _ _ _ Hskip).
    apply skipn_step in Hskip.
    cbn [parse_parameters]. unfold bind at 1, current_token at 1.
    rewrite H0. unfold parameter_text. rewrite length_app.
    unfold parameter_tokens at 1. cbn [length].
    cbn [In] in Hty.
    assert (Hnot : present_and_not "T_RParen" (Some (p_type p)) = true
                   /\ type_in (type (p_type p)) ["T_Int"; "T_Bool"] = true).
    { destruct Hty as [E|[E|[]]]; cbn [present_and_not]; rewrite <- E;
        split; reflexivity. }
    destruct Hnot as [Hn1 Hn2]. rewrite Hn1.
    unfold bind at 1. cbn [get_type ret]. rewrite Hn2.
    unfold bind at 1, consume at 1. unfold bind at 1, current_token at 1.
    rewrite H1. unfold bind at 1. cbn [get_value ret].
    unfold bind at 1, consume at 1. unfold bind at 1, current_token at 1.
    destruct (p_comma p) as [c|].
    + cbn [app] in Hskip.
      assert (H2 := nth_error_skipn _ _ _ _ _ Hskip).
      apply skipn_step in Hskip.
      rewrite H2. unfold bind at 1. cbn [get_type ret]. rewrite Hcomma.
      cbn [String.eqb Ascii.eqb Bool.eqb].
      unfold bind at 1, consume at 1.
      rewrite (IH (position + 1 + 1 + 1) fuel _ rparen post Hskip Hrp)
        by lia.
      rewrite !str_app_assoc. cbn [length]. f_equal. f_equal. lia.
    + cbn [app] in Hskip.
      destruct (parameters_then_not_comma ps rparen post Hps Hrp)
        as [t [rest [Heq Hnc]]].
      assert (H2 : nth_error tokens (position + 1 + 1) = Some t).
      { rewrite nth_error_skipn_hd, Hskip, Heq. reflexivity. }
      rewrite H2. unfold bind at 1. cbn [get_type ret]. rewrite Hnc.
      rewrite (IH (position + 1 + 1) fuel _ rparen post Hskip Hrp) by lia.
      rewrite !str_app_assoc. cbn [length]. f_equal. f_equal. lia.
Qed.

(** [parse_function] over a well-formed parameter list. *)
Lemma parse_function_reads :
  forall (tokens : list Token) (position fuel : nat) (name : string)
         (lparen rparen : Token) (ps : list parameter) (post : list Token),
    Forall parameter_ok ps ->
    skipn position tokens
    = (lparen :: parameters_tokens ps ++ rparen :: post)%list ->
    type rparen = "T_RParen" ->
    length ps < fuel ->
    let function := nl ++ "    Function: " ++ name ++ parameters_text ps in
    let after := position + 1 + length (parameters_tokens ps) + 1 in
    parse_function tokens (S fuel) name position
    = if present_and "T_LBrace" (hd_error post)
      then (block <- parse_block tokens fuel ;; ret (function ++ block)) after
      else Ok (function, after).
Proof.
  intros tokens position fuel name lparen rparen ps post Hok Hskip Hrp Hfuel.
  cbv zeta. apply skipn_step in Hskip.
  cbn [parse_function]. unfold bind at 1, consume at 1. unfold bind at 1.
  rewrite (parse_parameters_reads tokens ps Hok (position + 1) fuel _
             rparen post Hskip Hrp Hfuel).
  apply skipn_steps in Hskip. apply skipn_step in Hskip.
  unfold bind at 1, consume at 1. unfold bind at 1, current_token at 1.
  rewrite nth_error_skipn_hd, Hskip. rewrite !str_app_assoc.
  destruct (present_and "T_LBrace" (hd_error post)); reflexivity.
Qed.

(** X18: [parse_function] reads parameter lists.  Started on the opening
    bracket (which it consumes unchecked), over any number of parameters, each
    an [int] or [bool] token, one more token read as the name and a comma or
    not, up to a [)], it builds the [Function:] line and one [Parameter:] line
    per parameter in order (the type shown as [t_t_int] or [t_t_bool]),
    consumes the [)], and then appends a block if [{] follows and returns the
    lines alone if not. *)
Theorem X18_parameter_lists_are_read :
  forall (tokens : list Token) (position fuel : nat) (name : string)
         (lparen rparen : Token) (ps : list parameter) (post : list Token),
    Forall parameter_ok ps ->
    skipn position tokens
    = (lparen :: parameters_tokens ps ++ rparen :: post)%list ->
    type rparen = "T_RParen" ->
    length ps < fuel ->
    let function := nl ++ "    Function: " ++ name ++ parameters_text ps in
    let after := position + 1 + length (parameters_tokens ps) + 1 in
    parse_function tokens (S fuel) name position
    = if present_and "T_LBrace" (hd_error post)
      then (block <- parse_block tokens fuel ;; ret (function ++ block)) after
      else Ok (function, after).
Proof. exact parse_function_reads. Qed.

Lemma X18_parameter_lists_witness :
  let lparen := mkToken "T_LParen" "(" 1 7 7 in
  let rparen := mkToken "T_RParen" ")" 1 20 20 in
  let semi := mkToken "T_Semicolon" ";" 1 21 21 in
  let ps := [mkParameter (mkToken "T_Int" "int" 1 8 10)
                         (mkToken "T_Identifier" "a" 1 12 12)
                         (Some (mkToken "T_Comma" "," 1 13 13));
             mkParameter (mkToken "T_Bool" "bool" 1 15 18)
                         (mkToken "T_Identifier" "b" 1 19 19) None] in
  parse_function (lparen :: parameters_tokens ps ++ [rparen; semi])%list
                 (S 3) "f" 0
  = if present_and "T_LBrace" (hd_error [semi])
    then (block <- parse_block
                     (lparen :: parameters_tokens ps ++ [rparen; semi])%list 3 ;;
          ret ((nl ++ "    Function: " ++ "f" ++ parameters_text ps) ++ block))
           (0 + 1 + length (parameters_tokens ps) + 1)
    else Ok (nl ++ "    Function: " ++ "f" ++ parameters_text ps,
             0 + 1 + length (parameters_tokens ps) + 1).
Proof.
  cbv zeta.
  apply (X18_parameter_lists_are_read
           _ 0 3 "f" (mkToken "T_LParen" "(" 1 7 7)
           (mkToken "T_RParen" ")" 1 20 20)
           [mkParameter (mkToken "T_Int" "int" 1 8 10)
                        (mkToken "T_Identifier" "a" 1 12 12)
                        (Some (mkToken "T_Comma" "," 1 13 13));
            mkParameter (mkToken "T_Bool" "bool" 1 15 18)
                        (mkToken "T_Identifier" "b" 1 19 19) None]
           [mkToken "T_Semicolon" ";" 1 21 21]).
  - repeat constructor; cbn; tauto.
  - reflexivity.
  - reflexivity.
  - cbn. lia.
Defined.

(** * The parser under the recursion limit *)

Lemma bind_ok (A B : Type) (m : M A) (k : A -> M B) (p p' : nat) (a : A) :
  m p = Ok (a, p') -> bind m k p = k a p'.
Proof. intros H. unfold bind. now rewrite H. Qed.

(** ** Expressions *)

(** A well-formed expression that fits under the limit, read from where its
    tokens start. *)
Lemma limited_expression_reads (tokens : list Token) (e : expr) :
  expr_ok e ->
  forall (position frames : nat) (post : list Token),
    skipn position tokens = (expr_tokens e ++ post)%list ->
    expr_depth e + 2 <= frames ->
    Limited.parse_expression tokens frames position
    = Ok (Some (expr_text e), position + length (expr_tokens e)).
Proof.
  induction e as [t | op l IHl r IHr | op e IH];
    intros Hok position frames post Hskip Hframes;
    (destruct frames as [|below]; [lia|]);
    cbn [Limited.parse_expression];
    (destruct below as [|below]; [cbn [expr_depth] in Hframes; lia|]);
    cbn [Limited.current_token Limited.consume];
    cbn [expr_ok expr_tokens expr_depth expr_text length] in *.
  - cbn [app] in Hskip. apply nth_error_skipn in Hskip.
    unfold bind at 1, current_token at 1.
    rewrite Hskip. unfold bind at 1. cbn [get_type ret].
    cbn [In] in Hok.
    destruct Hok as [E|[E|[]]]; rewrite <- E; reflexivity.
  - destruct Hok as [Hop [Hl Hr]]. cbn [app] in Hskip.
    assert (Hnth := nth_error_skipn _ _ _ _ _ Hskip).
    apply skipn_step in Hskip. rewrite <- app_assoc in Hskip.
    assert (Hskip' := skipn_steps _ _ _ _ _ Hskip).
    assert (El := IHl Hl (position + 1) (S below) _ Hskip ltac:(lia)).
    assert (Er := IHr Hr (position + 1 + length (expr_tokens l)) (S below) _
                      Hskip' ltac:(lia)).
    unfold bind at 1, current_token at 1.
    rewrite Hnth. unfold bind at 1. cbn [get_type ret].
    rewrite length_app.
    replace (position + S (length (expr_tokens l) + length (expr_tokens r)))
      with (position + 1 + length (expr_tokens l) + length (expr_tokens r))
      by lia.
    cbn [In] in Hop.
    destruct Hop as [E|[E|[E|[E|[E|[E|[]]]]]]]; rewrite <- E;
      cbn [type_in existsb String.eqb Ascii.eqb Bool.eqb orb andb operator_label];
      unfold bind, get_value, ret, consume; rewrite El, Er; reflexivity.
  - destruct Hok as [Hop Hok]. cbn [app] in Hskip.
    assert (Hnth := nth_error_skipn _ _ _ _ _ Hskip).
    apply skipn_step in Hskip.
    assert (Ee := IH Hok (position + 1) (S below) _ Hskip ltac:(lia)).
    unfold bind at 1, current_token at 1.
    rewrite Hnth. unfold bind at 1. cbn [get_type ret]. rewrite Hop.
    cbn [type_in existsb String.eqb Ascii.eqb Bool.eqb orb andb].
    unfold bind, ret, consume. rewrite Ee.
    replace (position + S (length (expr_tokens e)))
      with (position + 1 + length (expr_tokens e)) by lia.
    reflexivity.
Qed.

(** An expression nested deeper than the frames left. *)
Lemma limited_expression_too_deep (tokens : list Token) (e : expr) :
  expr_ok e ->
  forall (position frames : nat) (post : list Token),
    skipn position tokens = (expr_tokens e ++ post)%list ->
    frames < expr_depth e + 2 ->
    Limited.parse_expression tokens frames position = Raise RecursionError.
Proof.
  induction e as [t | op l IHl r IHr | op e IH];
    intros Hok position frames post Hskip Hframes;
    (destruct frames as [|below]; [reflexivity|]);
    cbn [Limited.parse_expression];
    (destruct below as [|below]; [reflexivity|]);
    cbn [Limited.current_token Limited.consume];
    cbn [expr_ok expr_tokens expr_depth expr_text length] in *.
  - lia.
  - destruct Hok as [Hop [Hl Hr]]. cbn [app] in Hskip.
    assert (Hnth := nth_error_skipn _ _ _ _ _ Hskip).
    apply skipn_step in Hskip. rewrite <- app_assoc in Hskip.
    assert (Hskip' := skipn_steps _ _ _ _ _ Hskip).
    assert (Hsub : Limited.parse_expression tokens (S below) (position + 1)
                   = Raise RecursionError
                   \/ (Limited.parse_expression tokens (S below) (position + 1)
                       = Ok (Some (expr_text l),
                             position + 1 + length (expr_tokens l))
                       /\ Limited.parse_expression tokens (S below)
                            (position + 1 + length (expr_tokens l))
                          = Raise RecursionError)).
    { destruct (Nat.lt_ge_cases (S below) (expr_depth l + 2)) as [Hdeep | Hfits].
      - left. now apply (IHl Hl _ _ _ Hskip).
      - right. split.
        + now apply (limited_expression_reads tokens l Hl _ _ _ Hskip).
        + apply (IHr Hr _ _ _ Hskip'). lia. }
    unfold bind at 1, current_token at 1.
    rewrite Hnth. unfold bind at 1. cbn [get_type ret].
    cbn [In] in Hop.
    destruct Hop as [E|[E|[E|[E|[E|[E|[]]]]]]]; rewrite <- E;
      cbn [type_in existsb String.eqb Ascii.eqb Bool.eqb orb andb];
      unfold bind, get_value, ret, consume;
      (destruct Hsub as [-> | [-> ->]]; reflexivity).
  - destruct Hok as [Hop Hok]. cbn [app] in Hskip.
    assert (Hnth := nth_error_skipn _ _ _ _ _ Hskip).
    apply skipn_step in Hskip.
    assert (Ee := IH Hok (position + 1) (S below) _ Hskip ltac:(lia)).
    unfold bind at 1, current_token at 1.
    rewrite Hnth. unfold bind at 1. cbn [get_type ret]. rewrite Hop.
    cbn [type_in existsb String.eqb Ascii.eqb Bool.eqb orb andb].
    unfold bind, ret, consume. now rewrite Ee.
Qed.

(** X13: [parse_expression] reads prefix expressions, as deep as the stack
    lets it.  For every expression tree whose leaves are integer or
    identifier tokens and whose inner nodes are operator tokens
    ([+ - && || <= >= == !=] with two operands, [!] with one), started where
    the tokens of the tree in prefix order begin: when the depth of the tree
    plus two frames (its own and the one of [current_token]) fit under the
    recursion limit with one frame to spare, it returns the text of the tree
    (the operator line, then its operands, each after twelve spaces whatever
    the depth) and leaves the cursor right after these tokens; when they do
    not fit, it raises [RecursionError]. *)
Theorem X13_prefix_expressions_are_read :
  forall (tokens : list Token) (e : expr) (position frames : nat)
         (post : list Token),
    expr_ok e ->
    skipn position tokens = (expr_tokens e ++ post)%list ->
    (expr_depth e + 2 < frames ->
     Limited.parse_expression tokens frames position
     = Ok (Some (expr_text e), position + length (expr_tokens e)))
    /\ (frames < expr_depth e + 2 ->
        Limited.parse_expression tokens frames position
        = Raise RecursionError).
Proof.
  intros tokens e position frames post Hok Hskip. split; intros Hframes.
  - apply limited_expression_reads with (post := post); [assumption..|lia].
  - exact (limited_expression_too_deep tokens e Hok position frames post
             Hskip Hframes).
Qed.

Lemma X13_prefix_expressions_witness :
  let plus := mkToken "T_Add" "+" 1 1 1 in
  let a := mkToken "T_Identifier" "a" 1 3 3 in
  let le := mkToken "T_LessEqual" "<=" 1 5 6 in
  let b := mkToken "T_Identifier" "b" 1 8 8 in
  let one := mkToken "T_IntConstant" "1" 1 10 10 in
  let semi := mkToken "T_Semicolon" ";" 1 11 11 in
  let e := Binary plus (Leaf a) (Binary le (Leaf b) (Leaf one)) in
  Limited.parse_expression [plus; a; le; b; one; semi] 5 0
  = Ok (Some (expr_text e), 0 + 5)
  /\ Limited.parse_expression [plus; a; le; b; one; semi] 3 0
     = Raise RecursionError.
Proof.
  cbv zeta. split.
  - apply (proj1 (X13_prefix_expressions_are_read
             _ (Binary (mkToken "T_Add" "+" 1 1 1)
                       (Leaf (mkToken "T_Identifier" "a" 1 3 3))
                       (Binary (mkToken "T_LessEqual" "<=" 1 5 6)
                               (Leaf (mkToken "T_Identifier" "b" 1 8 8))
                               (Leaf (mkToken "T_IntConstant" "1" 1 10 10))))
             0 5 [mkToken "T_Semicolon" ";" 1 11 11]
             ltac:(cbn; intuition) eq_refl)).
    cbn. lia.
  - apply (proj2 (X13_prefix_expressions_are_read
             _ (Binary (mkToken "T_Add" "+" 1 1 1)
                       (Leaf (mkToken "T_Identifier" "a" 1 3 3))
                       (Binary (mkToken "T_LessEqual" "<=" 1 5 6)
                               (Leaf (mkToken "T_Identifier" "b" 1 8 8))
                               (Leaf (mkToken "T_IntConstant" "1" 1 10 10))))
             0 3 [mkToken "T_Semicolon" ";" 1 11 11]
             ltac:(cbn; intuition) eq_refl)).
    cbn. lia.
Defined.

(** ** Parameter lists *)

Lemma limited_parameters_read (tokens : list Token) (below : nat)
    (ps : list parameter) :
  Forall parameter_ok ps ->
  forall (position turns : nat) (function : string) (rparen : Token)
         (post : list Token),
    skipn position tokens = (parameters_tokens ps ++ rparen :: post)%list ->
    type rparen = "T_RParen" ->
    length ps < turns ->
    Limited.parse_parameters tokens (S below) turns function position
    = Ok (function ++ parameters_text ps,
          position + length (parameters_tokens ps)).
Proof.
  induction 1 as [|p ps Hp Hps IH];
    intros position turns function rparen post Hskip Hrp Hturns;
    (destruct turns as [|turns]; [cbn in Hturns; lia|]);
    cbn [Limited.parse_parameters Limited.current_token Limited.consume].
  - cbn [parameters_tokens flat_map app] in Hskip.
    apply nth_error_skipn in Hskip.
    unfold bind at 1, current_token at 1.
    rewrite Hskip. cbn [present_and_not]. rewrite Hrp. cbn.
    now rewrite str_app_nil_r, Nat.add_0_r.
  - cbn [length] in Hturns.
    cbn [parameters_tokens flat_map parameters_text fold_right] in *.
    fold (parameters_tokens ps) in *. fold (parameters_text ps).
    destruct Hp as [Hty Hcomma].
    unfold parameter_tokens in Hskip. cbn [app] in Hskip.
    assert (H0 := nth_error_skipn _ _ _ _ _ Hskip).
    apply skipn_step in Hskip.
    assert (H1 := nth_error_skipn _ _ _ _ _ Hskip).
    apply skipn_step in Hskip.
    unfold bind at 1, current_token at 1.
    rewrite H0. unfold parameter_text. rewrite length_app.
    unfold parameter_tokens at 1. cbn [length].
    cbn [In] in Hty.
    assert (Hnot : present_and_not "T_RParen" (Some (p_type p)) = true
                   /\ type_in (type (p_type p)) ["T_Int"; "T_Bool"] = true).
    { destruct Hty as [E|[E|[]]]; cbn [present_and_not]; rewrite <- E;
        split; reflexivity. }
    destruct Hnot as [Hn1 Hn2]. rewrite Hn1.
    unfold bind at 1. cbn [get_type ret]. rewrite Hn2.
    unfold bind at 1, consume at 1. unfold bind at 1, current_token at 1.
    rewrite H1. unfold bind at 1. cbn [get_value ret].
    unfold bind at 1, consume at 1. unfold bind at 1, current_token at 1.
    destruct (p_comma p) as [c|].
    + cbn [app] in Hskip.
      assert (H2 := nth_error_skipn _ _ _ _ _ Hskip).
      apply skipn_step in Hskip.
      rewrite H2. unfold bind at 1. cbn [get_type ret]. rewrite Hcomma.
      cbn [String.eqb Ascii.eqb Bool.eqb].
      unfold bind at 1, consume at 1.
      rewrite (IH (position + 1 + 1 + 1) turns _ rparen post Hskip Hrp)
        by lia.
      rewrite !str_app_assoc. cbn [length]. f_equal. f_equal. lia.
    + cbn [app] in Hskip.
      destruct (parameters_then_not_comma ps rparen post Hps Hrp)
        as [t [rest [Heq Hnc]]].
      assert (H2 : nth_error tokens (position + 1 + 1) = Some t).
      { rewrite nth_error_skipn_hd, Hskip, Heq. reflexivity. }
      rewrite H2. unfold bind at 1. cbn [get_type ret]. rewrite Hnc.
      rewrite (IH (position + 1 + 1) turns _ rparen post Hskip Hrp) by lia.
      rewrite !str_app_assoc. cbn [length]. f_equal. f_equal. lia.
Qed.

Lemma limited_function_reads :
  forall (tokens : list Token) (fuel position below : nat) (name : string)
         (lparen rparen : Token) (ps : list parameter) (post : list Token),
    Forall parameter_ok ps ->
    skipn position tokens
    = (lparen :: parameters_tokens ps ++ rparen :: post)%list ->
    type rparen = "T_RParen" ->
    length ps < fuel ->
    let function := nl ++ "    Function: " ++ name ++ parameters_text ps in
    let after := position + 1 + length (parameters_tokens ps) + 1 in
    Limited.parse_function tokens fuel (S (S below)) name position
    = if present_and "T_LBrace" (hd_error post)
      then (block <- Limited.parse_block tokens fuel (S below) ;;
            ret (function ++ block)) after
      else Ok (function, after).
Proof.
  intros tokens fuel position below name lparen rparen ps post Hok Hskip Hrp Hfuel.
  cbv zeta. apply skipn_step in Hskip.
  cbn [Limited.parse_function Limited.current_token Limited.consume].
  unfold bind at 1, consume at 1. unfold bind at 1.
  rewrite (limited_parameters_read tokens below ps Hok (position + 1) fuel _
             rparen post Hskip Hrp Hfuel).
  apply skipn_steps in Hskip. apply skipn_step in Hskip.
  unfold bind at 1, consume at 1. unfold bind at 1, current_token at 1.
  rewrite nth_error_skipn_hd, Hskip. rewrite !str_app_assoc.
  destruct (present_and "T_LBrace" (hd_error post)); reflexivity.
Qed.

(** ** Blocks *)

Section LimitedStatements.

Variable tokens : list Token.
Variable fuel : nat.

Lemma limited_block_call (below position : nat) :
  Limited.parse_block tokens fuel (S (S below)) position
  = (consume ;;;
     block <- block_loop tokens fuel (S below) fuel "" ;;
     consume ;;;
     ret block) position.
Proof. reflexivity. Qed.

(** One turn of the loop of [parse_block] on a token that is not [}]. *)
Lemma block_loop_turn (below turns position : nat) (block : string) (t : Token) :
  nth_error tokens position = Some t ->
  type t <> "T_RBrace" ->
  block_loop tokens fuel (S below) (S turns) block position
  = (block <-
       Limited.statement tokens
         (Limited.parse_declaration_or_function tokens fuel (S below))
         (Limited.parse_if_else tokens fuel (S below)) (S below)
         (type t) block ;;
     consume ;;;
     block_loop tokens fuel (S below) turns block) position.
Proof.
  intros Hnth Hrb. unfold block_loop.
  cbn [Limited.parse_statements Limited.current_token Limited.consume].
  unfold bind at 1, current_token at 1. rewrite Hnth.
  cbn [present_and_not]. apply String.eqb_neq in Hrb. rewrite Hrb.
  cbn [negb]. unfold bind at 1. cbn [get_type ret]. reflexivity.
Qed.

Lemma block_loop_done (below turns position : nat) (block : string) (t : Token) :
  nth_error tokens position = Some t ->
  type t = "T_RBrace" ->
  block_loop tokens fuel (S below) (S turns) block position
  = Ok (block, position).
Proof.
  intros Hnth Hrb. unfold block_loop.
  cbn [Limited.parse_statements Limited.current_token].
  unfold bind at 1, current_token at 1. rewrite Hnth.
  cbn [present_and_not]. rewrite Hrb. reflexivity.
Qed.

Lemma limited_statement_return (below turns position : nat) (block : string)
    (kw : Token) (e : expr) (terminator : Token) (post : list Token) :
  type kw = "T_Return" -> expr_ok e ->
  skipn position tokens = (kw :: expr_tokens e ++ terminator :: post)%list ->
  expr_depth e + 2 <= below ->
  block_loop tokens fuel (S below) (S turns) block position
  = block_loop tokens fuel (S below) turns
      (block ++ nl ++ "        Return:" ++ nl ++ "            " ++ expr_text e)
      (position + 1 + length (expr_tokens e) + 1).
Proof.
  intros Hkw He Hskip Hframes.
  assert (H0 := nth_error_skipn _ _ _ _ _ Hskip). apply skipn_step in Hskip.
  rewrite (block_loop_turn below turns position block kw H0)
    by (rewrite Hkw; discriminate).
  unfold Limited.statement. rewrite Hkw.
  cbn [type_in existsb String.eqb Ascii.eqb Bool.eqb orb].
  assert (Hr : Limited.parse_return tokens (S below) position
               = Ok (nl ++ "        Return:" ++ nl ++ "            "
                        ++ expr_text e,
                     position + 1 + length (expr_tokens e))).
  { destruct below as [|below]; [lia|].
    cbn [Limited.parse_return Limited.consume]. unfold bind, consume.
    now rewrite (limited_expression_reads tokens e He (position + 1) _ _ Hskip). }
  unfold bind at 1. unfold bind at 1. rewrite Hr. cbn [ret].
  reflexivity.
Qed.

Lemma limited_statement_print (below turns position : nat) (block : string)
    (kw : Token) (e : expr) (terminator : Token) (post : list Token) :
  type kw = "T_Print" -> expr_ok e ->
  skipn position tokens = (kw :: expr_tokens e ++ terminator :: post)%list ->
  expr_depth e + 2 <= below ->
  block_loop tokens fuel (S below) (S turns) block position
  = block_loop tokens fuel (S below) turns
      (block ++ nl ++ "        Print:" ++ nl ++ "            " ++ expr_text e)
      (position + 1 + length (expr_tokens e) + 1).
Proof.
  intros Hkw He Hskip Hframes.
  assert (H0 := nth_error_skipn _ _ _ _ _ Hskip). apply skipn_step in Hskip.
  rewrite (block_loop_turn below turns position block kw H0)
    by (rewrite Hkw; discriminate).
  unfold Limited.statement. rewrite Hkw.
  cbn [type_in existsb String.eqb Ascii.eqb Bool.eqb orb].
  assert (Hr : Limited.parse_print tokens (S below) position
               = Ok (nl ++ "        Print:" ++ nl ++ "            "
                        ++ expr_text e,
                     position + 1 + length (expr_tokens e))).
  { destruct below as [|below]; [lia|].
    cbn [Limited.parse_print Limited.consume]. unfold bind, consume.
    now rewrite (limited_expression_reads tokens e He (position + 1) _ _ Hskip). }
  unfold bind at 1. unfold bind at 1. rewrite Hr. cbn [ret].
  reflexivity.
Qed.

Lemma limited_expression_leaf (below position : nat) (x : Token) :
  nth_error tokens position = Some x ->
  type x = "T_Identifier" ->
  Limited.parse_expression tokens (S (S below)) position
  = Ok (Some ("FieldAccess: " ++ value x), position + 1).
Proof.
  intros Hnth Hx. cbn [Limited.parse_expression Limited.current_token].
  unfold bind at 1, current_token at 1. rewrite Hnth.
  unfold bind at 1. cbn [get_type ret]. rewrite Hx. reflexivity.
Qed.

Lemma limited_statement_assign (below turns position : nat) (block : string)
    (x eq : Token) (e : expr) (terminator : Token) (post : list Token) :
  type x = "T_Identifier" -> type eq = "T_Assign" -> expr_ok e ->
  skipn position tokens
  = (x :: eq :: expr_tokens e ++ terminator :: post)%list ->
  expr_depth e + 2 <= below ->
  block_loop tokens fuel (S below) (S turns) block position
  = block_loop tokens fuel (S below) turns
      (block ++ nl ++ "        ExpressionStatement:" ++ nl
             ++ "            AssignExpr: =" ++ nl
             ++ "                " ++ ("FieldAccess: " ++ value x) ++ nl
             ++ "                " ++ expr_text e)
      (position + 1 + 1 + length (expr_tokens e) + 1).
Proof.
  intros Hx Heq He Hskip Hframes.
  assert (H0 := nth_error_skipn _ _ _ _ _ Hskip). apply skipn_step in Hskip.
  assert (H1 := nth_error_skipn _ _ _ _ _ Hskip). apply skipn_step in Hskip.
  rewrite (block_loop_turn below turns position block x H0)
    by (rewrite Hx; discriminate).
  unfold Limited.statement. rewrite Hx.
  cbn [type_in existsb String.eqb Ascii.eqb Bool.eqb orb].
  destruct below as [|[|below]]; [lia|lia|].
  assert (Hr : Limited.parse_expression_statement tokens (S (S (S below)))
                 position
               = Ok (Some (nl ++ "        ExpressionStatement:" ++ nl
                              ++ "            AssignExpr: =" ++ nl
                              ++ "                "
                              ++ ("FieldAccess: " ++ value x) ++ nl
                              ++ "                " ++ expr_text e),
                     position + 1 + 1 + length (expr_tokens e))).
  { cbn [Limited.parse_expression_statement Limited.current_token
         Limited.consume].
    rewrite (bind_ok _ _ _ _ _ _ _
               (limited_expression_leaf below position x H0 Hx)).
    unfold bind at 1, current_token at 1. rewrite H1.
    unfold bind at 1. cbn [get_type ret]. rewrite Heq.
    cbn [String.eqb Ascii.eqb Bool.eqb].
    unfold bind at 1, consume at 1.
    rewrite (bind_ok _ _ _ _ _ _ _
               (limited_expression_reads tokens e He (position + 1 + 1)
                  (S (S below)) _ Hskip Hframes)).
    reflexivity. }
  unfold bind at 1. unfold bind at 1. rewrite Hr. cbn [add_str ret].
  reflexivity.
Qed.

Lemma limited_statement_bare (below turns position : nat) (block : string)
    (x terminator : Token) (post : list Token) :
  type x = "T_Identifier" -> type terminator <> "T_Assign" ->
  skipn position tokens = (x :: terminator :: post)%list ->
  2 <= below ->
  block_loop tokens fuel (S below) (S turns) block position
  = block_loop tokens fuel (S below) turns (block ++ "FieldAccess: " ++ value x)
      (position + 1 + 1).
Proof.
  intros Hx Hterm Hskip Hframes.
  assert (H0 := nth_error_skipn _ _ _ _ _ Hskip). apply skipn_step in Hskip.
  assert (H1 := nth_error_skipn _ _ _ _ _ Hskip).
  rewrite (block_loop_turn below turns position block x H0)
    by (rewrite Hx; discriminate).
  unfold Limited.statement. rewrite Hx.
  cbn [type_in existsb String.eqb Ascii.eqb Bool.eqb orb].
  destruct below as [|[|below]]; [lia|lia|].
  assert (Hr : Limited.parse_expression_statement tokens (S (S (S below)))
                 position
               = Ok (Some ("FieldAccess: " ++ value x), position + 1)).
  { cbn [Limited.parse_expression_statement Limited.current_token].
    rewrite (bind_ok _ _ _ _ _ _ _
               (limited_expression_leaf below position x H0 Hx)).
    unfold bind at 1, current_token at 1. rewrite H1.
    unfold bind at 1. cbn [get_type ret].
    apply String.eqb_neq in Hterm. rewrite Hterm. reflexivity. }
  unfold bind at 1. unfold bind at 1. rewrite Hr. cbn [add_str ret].
  reflexivity.
Qed.

Lemma limited_statement_ignored (below turns position : nat) (block : string)
    (t : Token) (post : list Token) :
  type_in (type t)
    ["T_RBrace"; "T_Int"; "T_Void"; "T_If"; "T_Return"; "T_Print";
     "T_Identifier"] = false ->
  skipn position tokens = (t :: post)%list ->
  block_loop tokens fuel (S below) (S turns) block position
  = block_loop tokens fuel (S below) turns block (position + 1).
Proof.
  intros Hty Hskip.
  assert (H0 := nth_error_skipn _ _ _ _ _ Hskip).
  repeat (rewrite type_in_cons in Hty;
          apply orb_false_iff in Hty; destruct Hty as [? Hty]).
  rewrite (block_loop_turn below turns position block t H0)
    by (now apply String.eqb_neq).
  unfold Limited.statement. cbn [type_in existsb].
  repeat match goal with H : (_ =? _) = false |- _ => rewrite H; clear H end.
  reflexivity.
Qed.

(** A type keyword, any token, a semicolon: one [Declaration] line. *)
Lemma limited_declaration (below position : nat) (ty name semi : Token) :
  nth_error tokens position = Some ty ->
  nth_error tokens (position + 1) = Some name ->
  nth_error tokens (position + 1 + 1) = Some semi ->
  type_in (type ty) ["T_Int"; "T_Void"] = true ->
  type semi = "T_Semicolon" ->
  Limited.parse_declaration_or_function tokens fuel (S (S below)) position
  = Ok (Some (nl ++ "    Declaration: " ++ value name), position + 1 + 1 + 1).
Proof.
  intros H0 H1 H2 Hty Hsemi.
  cbn [Limited.parse_declaration_or_function Limited.current_token
       Limited.consume].
  unfold bind, current_token, consume.
  rewrite H0. cbn [get_type ret]. rewrite Hty, H1, H2. cbn [get_type ret].
  rewrite Hsemi. reflexivity.
Qed.

Lemma limited_statement_declaration (below turns position : nat)
    (block : string) (ty name semi after : Token) (post : list Token) :
  In (type ty) ["T_Int"; "T_Void"] -> type semi = "T_Semicolon" ->
  skipn position tokens = (ty :: name :: semi :: after :: post)%list ->
  1 <= below ->
  block_loop tokens fuel (S below) (S turns) block position
  = block_loop tokens fuel (S below) turns
      (block ++ nl ++ "    Declaration: " ++ value name)
      (position + 1 + 1 + 1 + 1).
Proof.
  intros Hty Hsemi Hskip Hframes.
  assert (H0 := nth_error_skipn _ _ _ _ _ Hskip). apply skipn_step in Hskip.
  assert (H1 := nth_error_skipn _ _ _ _ _ Hskip). apply skipn_step in Hskip.
  assert (H2 := nth_error_skipn _ _ _ _ _ Hskip).
  assert (Hin : type_in (type ty) ["T_Int"; "T_Void"] = true
                /\ type ty <> "T_RBrace").
  { cbn [In] in Hty. destruct Hty as [E|[E|[]]]; rewrite <- E;
      split; [reflexivity | discriminate | reflexivity | discriminate]. }
  destruct Hin as [Hin Hrb].
  rewrite (block_loop_turn below turns position block ty H0 Hrb).
  unfold Limited.statement. rewrite Hin.
  destruct below as [|below]; [lia|].
  unfold bind at 1. unfold bind at 1.
  rewrite (limited_declaration below position ty name semi H0 H1 H2 Hin Hsemi).
  cbn [add_str ret]. reflexivity.
Qed.

(** An [if] statement whose block is read as [body_text]. *)
Lemma limited_statement_if (below turns position : nat) (block : string)
    (kw : Token) (cond : expr) (body_text : string) (n : nat)
    (after : Token) (post post' : list Token) :
  type kw = "T_If" -> expr_ok cond ->
  skipn position tokens = (kw :: expr_tokens cond ++ post)%list ->
  expr_depth cond + 2 <= below ->
  Limited.parse_block tokens fuel below
    (position + 1 + length (expr_tokens cond))
  = Ok (body_text, n) ->
  skipn n tokens = (after :: post')%list ->
  type after <> "T_Else" ->
  block_loop tokens fuel (S below) (S turns) block position
  = block_loop tokens fuel (S below) turns
      (block ++ if_else_text (Some (expr_text cond)) body_text "") (n + 1).
Proof.
  intros Hkw Hc Hskip Hframes Hbody Hafter Helse.
  assert (H0 := nth_error_skipn _ _ _ _ _ Hskip). apply skipn_step in Hskip.
  assert (Ha := nth_error_skipn _ _ _ _ _ Hafter).
  rewrite (block_loop_turn below turns position block kw H0)
    by (rewrite Hkw; discriminate).
  unfold Limited.statement. rewrite Hkw.
  cbn [type_in existsb String.eqb Ascii.eqb Bool.eqb orb].
  assert (Hr : Limited.parse_if_else tokens fuel (S below) position
               = Ok (if_else_text (Some (expr_text cond)) body_text "", n)).
  { cbn [Limited.parse_if_else].
    destruct below as [|below']; [lia|].
    cbn [Limited.consume Limited.current_token].
    unfold bind at 1, consume at 1.
    rewrite (bind_ok _ _ _ _ _ _ _
               (limited_expression_reads tokens cond Hc (position + 1) _
                  _ Hskip Hframes)).
    rewrite (bind_ok _ _ _ _ _ _ _ Hbody).
    unfold bind at 1, current_token at 1. rewrite Ha.
    cbn [present_and]. apply String.eqb_neq in Helse. rewrite Helse.
    reflexivity. }
  unfold bind at 1. unfold bind at 1. rewrite Hr. cbn [ret].
  reflexivity.
Qed.

End LimitedStatements.

Lemma stmt_tokens_nonempty (s : stmt) : 1 <= length (stmt_tokens s).
Proof. destruct s; cbn [stmt_tokens length]; lia. Qed.

Lemma stmts_frames_positive (ss : stmts) : 1 <= stmts_frames ss.
Proof.
  induction ss as [|s rest IH]; cbn [stmts_frames]; lia.
Qed.

Lemma limited_block_of_statements (tokens : list Token) (fuel : nat)
    (body : stmts) :
  (forall (position below turns : nat) (block : string) (rbrace : Token)
          (post : list Token),
      skipn position tokens = (stmts_tokens body ++ rbrace :: post)%list ->
      type rbrace = "T_RBrace" ->
      stmts_frames body <= S below ->
      length (stmts_tokens body) < turns ->
      length (stmts_tokens body) < fuel ->
      block_loop tokens fuel (S below) turns block position
      = Ok (block ++ stmts_text body, position + length (stmts_tokens body))) ->
  forall (position frames : nat) (lbrace rbrace : Token) (post : list Token),
    skipn position tokens
    = (lbrace :: stmts_tokens body ++ rbrace :: post)%list ->
    type rbrace = "T_RBrace" ->
    length (stmts_tokens body) < fuel ->
    stmts_frames body < frames ->
    Limited.parse_block tokens fuel frames position
    = Ok (stmts_text body, position + 1 + length (stmts_tokens body) + 1).
Proof.
  intros Hloop position frames lbrace rbrace post Hskip Hrb Hfuel Hframes.
  assert (Hpos := stmts_frames_positive body).
  destruct frames as [|[|below]]; [lia|lia|].
  apply skipn_step in Hskip.
  rewrite limited_block_call. unfold bind at 1, consume at 1.
  rewrite (bind_ok _ _ _ _ _ _ _
             (Hloop (position + 1) below fuel "" rbrace post Hskip Hrb
                    ltac:(lia) Hfuel Hfuel)).
  reflexivity.
Qed.

Lemma limited_statements_are_read (tokens : list Token) (fuel : nat) :
  (forall s : stmt,
      stmt_ok s ->
      forall (position below turns : nat) (block : string) (post : list Token),
        skipn position tokens = (stmt_tokens s ++ post)%list ->
        stmt_frames s <= S below ->
        length (stmt_tokens s) <= fuel ->
        block_loop tokens fuel (S below) (S turns) block position
        = block_loop tokens fuel (S below) turns (block ++ stmt_text s)
            (position + length (stmt_tokens s)))
  /\ (forall ss : stmts,
        stmts_ok ss ->
        forall (position below turns : nat) (block : string) (rbrace : Token)
               (post : list Token),
          skipn position tokens = (stmts_tokens ss ++ rbrace :: post)%list ->
          type rbrace = "T_RBrace" ->
          stmts_frames ss <= S below ->
          length (stmts_tokens ss) < turns ->
          length (stmts_tokens ss) < fuel ->
          block_loop tokens fuel (S below) turns block position
          = Ok (block ++ stmts_text ss, position + length (stmts_tokens ss))).
Proof.
  apply stmt_mutual_ind.
  - (* return *)
    intros kw e terminator [Hkw He] position below turns block post
           Hskip Hframes Hfuel.
    cbn [stmt_tokens stmt_text stmt_frames length] in *.
    cbn [app] in Hskip. rewrite <- app_assoc in Hskip. cbn [app] in Hskip.
    rewrite (limited_statement_return tokens fuel below turns position block
               kw e terminator post Hkw He Hskip) by lia.
    f_equal. rewrite length_app. cbn [length]. lia.
  - (* print *)
    intros kw e terminator [Hkw He] position below turns block post
           Hskip Hframes Hfuel.
    cbn [stmt_tokens stmt_text stmt_frames length] in *.
    cbn [app] in Hskip. rewrite <- app_assoc in Hskip. cbn [app] in Hskip.
    rewrite (limited_statement_print tokens fuel below turns position block
               kw e terminator post Hkw He Hskip) by lia.
    f_equal. rewrite length_app. cbn [length]. lia.
  - (* assignment *)
    intros x eq e terminator [Hx [Heq He]] position below turns block post
           Hskip Hframes Hfuel.
    cbn [stmt_tokens stmt_text stmt_frames length] in *.
    cbn [app] in Hskip. rewrite <- app_assoc in Hskip. cbn [app] in Hskip.
    rewrite (limited_statement_assign tokens fuel below turns position block
               x eq e terminator post Hx Heq He Hskip) by lia.
    f_equal. rewrite length_app. cbn [length]. lia.
  - (* bare identifier *)
    intros x terminator [Hx Hterm] position below turns block post
           Hskip Hframes Hfuel.
    cbn [stmt_tokens stmt_text stmt_frames length app] in *.
    rewrite (limited_statement_bare tokens fuel below turns position block
               x terminator post Hx Hterm Hskip) by lia.
    f_equal. lia.
  - (* ignored token *)
    intros t Hty position below turns block post Hskip Hframes Hfuel.
    cbn [stmt_ok stmt_tokens stmt_text stmt_frames length app] in *.
    rewrite (limited_statement_ignored tokens fuel below turns position block
               t post Hty Hskip).
    now rewrite str_app_nil_r.
  - (* if *)
    intros kw cond lbrace body IHbody rbrace after
           [Hkw [Hc [Hbody [Hrb Helse]]]] position below turns block post
           Hskip Hframes Hfuel.
    cbn [stmt_tokens stmt_text stmt_frames length] in *.
    rewrite !length_app in Hfuel. cbn [length] in Hfuel.
    rewrite length_app in Hfuel. cbn [length] in Hfuel.
    cbn [app] in Hskip.
    assert (Hskip' := Hskip). apply skipn_step in Hskip'.
    rewrite <- app_assoc in Hskip'. apply skipn_steps in Hskip'.
    assert (Hblock :
      Limited.parse_block tokens fuel below
        (position + 1 + length (expr_tokens cond))
      = Ok (stmts_text body,
            position + 1 + length (expr_tokens cond) + 1
              + length (stmts_tokens body) + 1)).
    { cbn [app] in Hskip'. rewrite <- app_assoc in Hskip'. cbn [app] in Hskip'.
      apply (limited_block_of_statements tokens fuel body (IHbody Hbody) _ below
               lbrace rbrace (after :: post) Hskip' Hrb); lia. }
    assert (Hafter :
      skipn (position + 1 + length (expr_tokens cond) + 1
               + length (stmts_tokens body) + 1) tokens = after :: post).
    { cbn [app] in Hskip'. apply skipn_step in Hskip'.
      rewrite <- app_assoc in Hskip'. apply skipn_steps in Hskip'.
      cbn [app] in Hskip'. now apply skipn_step in Hskip'. }
    rewrite <- app_assoc in Hskip.
    rewrite (limited_statement_if tokens fuel below turns position block kw cond
               (stmts_text body) _ after _ post Hkw Hc Hskip ltac:(lia)
               Hblock Hafter Helse).
    f_equal. rewrite !length_app. cbn [length]. rewrite length_app.
    cbn [length]. lia.
  - (* declaration *)
    intros ty name semi after [Hty Hsemi] position below turns block post
           Hskip Hframes Hfuel.
    cbn [stmt_tokens stmt_text stmt_frames length app] in *.
    rewrite (limited_statement_declaration tokens fuel below turns position
               block ty name semi after post Hty Hsemi Hskip) by lia.
    f_equal. lia.
  - (* no statement left *)
    intros _ position below turns block rbrace post Hskip Hrb Hframes
           Hturns Hfuel.
    cbn [stmts_tokens stmts_text stmts_frames length app] in *.
    destruct turns as [|turns]; [lia|].
    apply nth_error_skipn in Hskip.
    rewrite (block_loop_done tokens fuel below turns position block rbrace
               Hskip Hrb).
    now rewrite str_app_nil_r, Nat.add_0_r.
  - (* one statement, then the rest *)
    intros s IHs rest IHrest [Hs Hrest] position below turns block rbrace post
           Hskip Hrb Hframes Hturns Hfuel.
    cbn [stmts_tokens stmts_text stmts_frames] in *.
    rewrite length_app in Hturns, Hfuel.
    assert (Hne := stmt_tokens_nonempty s).
    destruct turns as [|turns]; [lia|].
    rewrite <- app_assoc in Hskip.
    rewrite (IHs Hs position below turns block _ Hskip) by lia.
    apply skipn_steps in Hskip.
    rewrite (IHrest Hrest _ below turns _ rbrace post Hskip Hrb) by lia.
    rewrite str_app_assoc, length_app. f_equal. f_equal. lia.
Qed.

Lemma limited_blocks_are_read :
  forall (tokens : list Token) (body : stmts) (position fuel frames : nat)
         (lbrace rbrace : Token) (post : list Token),
    stmts_ok body ->
    skipn position tokens
    = (lbrace :: stmts_tokens body ++ rbrace :: post)%list ->
    type rbrace = "T_RBrace" ->
    length (stmts_tokens body) < fuel ->
    stmts_frames body < frames ->
    Limited.parse_block tokens fuel frames position
    = Ok (stmts_text body, position + 1 + length (stmts_tokens body) + 1).
Proof.
  intros tokens body position fuel frames lbrace rbrace post Hok Hskip Hrb
         Hfuel Hframes.
  apply (limited_block_of_statements tokens fuel body
           (proj2 (limited_statements_are_read tokens fuel) body Hok)
           position frames lbrace rbrace post Hskip Hrb Hfuel Hframes).
Qed.

(** X19: [parse_block] reads lists of statements.  Started on the opening
    bracket (consumed unchecked), over statements of these forms up to a [}]:
    [return] or [Print] with a prefix expression; an identifier, [=] and a
    prefix expression; an identifier alone; an [if] with a prefix expression
    and a block of such statements; a declaration (type, name, semicolon); or
    a token no statement starts with, which is ignored.  After each statement
    one more token is consumed whatever it is: the terminator of a simple
    statement, and the token after the [}] of an [if] or after the semicolon
    of a declaration, which is therefore lost.  When the nesting of the
    statements fits under the recursion limit ([stmts_frames], and the frame
    of [parse_block]) with one frame to spare, the block's text is the texts
    of the statements in order, and the cursor ends after the [}]. *)
Theorem X19_blocks_are_read :
  forall (tokens : list Token) (body : stmts) (position fuel frames : nat)
         (lbrace rbrace : Token) (post : list Token),
    stmts_ok body ->
    skipn position tokens
    = (lbrace :: stmts_tokens body ++ rbrace :: post)%list ->
    type rbrace = "T_RBrace" ->
    length (stmts_tokens body) < fuel ->
    stmts_frames body + 1 < frames ->
    Limited.parse_block tokens fuel frames position
    = Ok (stmts_text body, position + 1 + length (stmts_tokens body) + 1).
Proof.
  intros tokens body position fuel frames lbrace rbrace post Hok Hskip Hrb
         Hfuel Hframes.
  apply limited_blocks_are_read with (lbrace := lbrace) (rbrace := rbrace)
                                     (post := post); try assumption.
  lia.
Qed.

Lemma X19_blocks_witness :
  let semi := mkToken "T_Semicolon" ";" 1 1 1 in
  let x := mkToken "T_Identifier" "x" 1 1 1 in
  let body :=
    SCons (SDecl (mkToken "T_Int" "int" 1 1 3) x semi semi)
     (SCons (SAssign x (mkToken "T_Assign" "=" 1 1 1)
                     (Binary (mkToken "T_Add" "+" 1 1 1)
                             (Leaf (mkToken "T_Identifier" "a" 1 1 1))
                             (Leaf (mkToken "T_IntConstant" "1" 1 1 1)))
                     semi)
     (SCons (SIf (mkToken "T_If" "if" 1 1 2)
                 (Binary (mkToken "T_LessEqual" "<=" 1 1 2) (Leaf x)
                         (Leaf (mkToken "T_IntConstant" "9" 1 1 1)))
                 (mkToken "T_LBrace" "{" 1 1 1)
                 (SCons (SPrint (mkToken "T_Print" "Print" 1 1 5) (Leaf x) semi)
                        SNil)
                 (mkToken "T_RBrace" "}" 1 1 1) semi)
     (SCons (SReturn (mkToken "T_Return" "return" 1 1 6) (Leaf x) semi)
            SNil))) in
  Limited.parse_block
    (mkToken "T_LBrace" "{" 1 1 1
       :: stmts_tokens body ++ [mkToken "T_RBrace" "}" 1 1 1])%list 24 7 0
  = Ok (stmts_text body, 0 + 1 + length (stmts_tokens body) + 1).
Proof.
  cbv zeta.
  apply (X19_blocks_are_read _ _ 0 24 7 (mkToken "T_LBrace" "{" 1 1 1)
           (mkToken "T_RBrace" "}" 1 1 1) []).
  - cbn. intuition discriminate.
  - reflexivity.
  - reflexivity.
  - cbn. lia.
  - cbn. lia.
Defined.

(** ** Whole programs *)

Section LimitedProgram.

Variable tokens : list Token.
Variable fuel : nat.

Lemma limited_program_skip (below turns position : nat) (program : string)
    (t : Token) :
  nth_error tokens position = Some t ->
  type_in (type t) ["T_Int"; "T_Void"] = false ->
  Limited.parse_program tokens fuel (S below) (S turns) program position
  = Limited.parse_program tokens fuel (S below) turns program (position + 1).
Proof.
  intros Hnth Hty. cbn [Limited.parse_program Limited.current_token Limited.consume].
  unfold bind at 1, current_token. rewrite Hnth, Hty. reflexivity.
Qed.

Lemma limited_program_done (below turns position : nat) (program : string) :
  nth_error tokens position = None ->
  Limited.parse_program tokens fuel (S below) (S turns) program position
  = Ok (program, position).
Proof.
  intros Hnth. cbn [Limited.parse_program Limited.current_token].
  unfold bind at 1, current_token. rewrite Hnth. reflexivity.
Qed.

Lemma limited_program_call (below turns position position' : nat)
    (program piece : string) (ty : Token) :
  nth_error tokens position = Some ty ->
  type_in (type ty) ["T_Int"; "T_Void"] = true ->
  Limited.parse_declaration_or_function tokens fuel (S below) position
  = Ok (Some piece, position') ->
  Limited.parse_program tokens fuel (S below) (S turns) program position
  = Limited.parse_program tokens fuel (S below) turns (program ++ piece)
      position'.
Proof.
  intros H0 Hty Hd. cbn [Limited.parse_program Limited.current_token].
  unfold bind at 1, current_token at 1. rewrite H0, Hty.
  rewrite (bind_ok _ _ _ _ _ _ _ Hd). reflexivity.
Qed.

Lemma limited_declaration_is_function (position below : nat)
    (ty name lparen : Token) (post : list Token) :
  skipn position tokens = (ty :: name :: lparen :: post)%list ->
  type_in (type ty) ["T_Int"; "T_Void"] = true ->
  type lparen = "T_LParen" ->
  Limited.parse_declaration_or_function tokens fuel (S (S below)) position
  = (function <- Limited.parse_function tokens fuel (S below) (value name) ;;
     ret (Some function)) (position + 1 + 1).
Proof.
  intros Hskip Hty Hlp.
  assert (H0 := nth_error_skipn _ _ _ _ _ Hskip). apply skipn_step in Hskip.
  assert (H1 := nth_error_skipn _ _ _ _ _ Hskip). apply skipn_step in Hskip.
  assert (H2 := nth_error_skipn _ _ _ _ _ Hskip).
  cbn [Limited.parse_declaration_or_function Limited.current_token
       Limited.consume].
  unfold bind at 1, current_token at 1. rewrite H0.
  unfold bind at 1. cbn [get_type ret]. rewrite Hty.
  unfold bind at 1, consume at 1. unfold bind at 1, current_token at 1.
  rewrite H1. unfold bind at 1, consume at 1.
  unfold bind at 1, current_token at 1. rewrite H2.
  unfold bind at 1. cbn [get_type ret]. rewrite Hlp.
  cbn [String.eqb Ascii.eqb Bool.eqb].
  unfold bind at 1. cbn [get_value ret]. reflexivity.
Qed.

End LimitedProgram.

Lemma parameters_tokens_length (ps : list parameter) :
  length ps <= length (parameters_tokens ps).
Proof.
  induction ps as [|p ps IH]; [cbn; lia|].
  cbn [parameters_tokens flat_map length]. fold (parameters_tokens ps).
  rewrite length_app. unfold parameter_tokens. cbn [length]. lia.
Qed.

Lemma limited_program_units (tokens : list Token) (fuel : nat)
    (us : list unit_item) :
  Forall unit_ok us ->
  forall (position below turns : nat) (program : string),
    skipn position tokens = units_tokens us ->
    units_frames us <= S below ->
    length (units_tokens us) < turns ->
    length (units_tokens us) < fuel ->
    Limited.parse_program tokens fuel (S below) turns program position
    = Ok (program ++ units_text us, position + length (units_tokens us)).
Proof.
  induction 1 as [|u us Hu Hus IH];
    intros position below turns program Hskip Hframes Hturns Hfuel;
    (destruct turns as [|turns]; [lia|]).
  - cbn [units_tokens flat_map units_text fold_right length] in *.
    rewrite limited_program_done
      by (rewrite nth_error_skipn_hd, Hskip; reflexivity).
    now rewrite str_app_nil_r, Nat.add_0_r.
  - cbn [units_tokens flat_map units_text fold_right units_frames] in *.
    fold (units_tokens us) in *. fold (units_text us).
    fold (units_frames us) in Hframes.
    rewrite length_app in Hturns, Hfuel. rewrite length_app.
    destruct u as [t | ty name semi
                   | ty name lparen ps rparen lbrace body rbrace
                   | ty name lparen ps rparen after];
      cbn [unit_ok unit_tokens unit_text unit_frames length] in *.
    + (* a skipped token *)
      cbn [app] in Hskip. assert (H0 := nth_error_skipn _ _ _ _ _ Hskip).
      apply skipn_step in Hskip.
      rewrite (limited_program_skip tokens fuel below turns position program
                 t H0 Hu).
      rewrite (IH (position + 1) below turns program Hskip) by lia.
      f_equal. f_equal. lia.
    + (* a declaration *)
      destruct Hu as [Hty Hsemi]. cbn [app] in Hskip.
      assert (H0 := nth_error_skipn _ _ _ _ _ Hskip).
      assert (Hskip1 := skipn_step _ _ _ _ _ Hskip).
      assert (H1 := nth_error_skipn _ _ _ _ _ Hskip1).
      assert (Hskip2 := skipn_step _ _ _ _ _ Hskip1).
      assert (H2 := nth_error_skipn _ _ _ _ _ Hskip2).
      assert (Hskip3 := skipn_step _ _ _ _ _ Hskip2).
      destruct below as [|below]; [lia|].
      rewrite (limited_program_call tokens fuel _ turns position _ program _ ty
                 H0 Hty
                 (limited_declaration tokens fuel below position ty name semi
                    H0 H1 H2 Hty Hsemi)).
      rewrite (IH (position + 1 + 1 + 1) (S below) turns _ Hskip3) by lia.
      rewrite str_app_assoc. f_equal. f_equal. lia.
    + (* a function with its block *)
      destruct Hu as [Hty [Hlp [Hps [Hrp [Hlb [Hbody Hrb]]]]]].
      cbn [app] in Hskip.
      assert (H0 := nth_error_skipn _ _ _ _ _ Hskip).
      assert (Hsf := stmts_frames_positive body).
      assert (Hpl := parameters_tokens_length ps).
      rewrite !length_app in Hfuel. cbn [length] in Hfuel.
      rewrite length_app in Hfuel. cbn [length] in Hfuel.
      destruct below as [|[|below]]; [lia|lia|].
      assert (Hd :
        Limited.parse_declaration_or_function tokens fuel (S (S (S below)))
          position
        = Ok (Some (nl ++ "    Function: " ++ value name ++ parameters_text ps
                       ++ stmts_text body),
              position + 1 + 1 + 1 + length (parameters_tokens ps) + 1 + 1
                + length (stmts_tokens body) + 1)).
      { rewrite (limited_declaration_is_function tokens fuel position _ ty name
                   lparen _ Hskip Hty Hlp).
        assert (Hskip2 : skipn (position + 1 + 1) tokens
                         = lparen :: parameters_tokens ps
                             ++ rparen
                                  :: (lbrace :: stmts_tokens body
                                        ++ rbrace :: units_tokens us)).
        { apply skipn_step in Hskip. apply skipn_step in Hskip.
          rewrite Hskip. cbn [app]. f_equal.
          rewrite <- !app_assoc. cbn [app]. f_equal. f_equal. f_equal.
          now rewrite <- app_assoc. }
        assert (Hf := limited_function_reads tokens fuel (position + 1 + 1)
                        below (value name) lparen rparen ps _ Hps Hskip2 Hrp
                        ltac:(lia)).
        cbv zeta in Hf. cbn [hd_error present_and] in Hf.
        rewrite Hlb in Hf. cbn [String.eqb Ascii.eqb Bool.eqb] in Hf.
        apply skipn_step in Hskip2. apply skipn_steps in Hskip2.
        apply skipn_step in Hskip2.
        assert (Hb := limited_blocks_are_read tokens body _ fuel (S below)
                        lbrace rbrace (units_tokens us) Hbody Hskip2 Hrb
                        ltac:(lia) ltac:(lia)).
        rewrite (bind_ok _ _ _ _ _ _ _ Hb) in Hf.
        rewrite (bind_ok _ _ _ _ _ _ _ Hf). cbn [ret].
        rewrite !str_app_assoc. reflexivity. }
      rewrite (limited_program_call tokens fuel _ turns _ _ program _ ty
                 H0 Hty Hd).
      assert (Hrest :
        skipn (position + 1 + 1 + 1 + length (parameters_tokens ps) + 1 + 1
                 + length (stmts_tokens body) + 1) tokens = units_tokens us).
      { do 3 apply skipn_step in Hskip. rewrite <- app_assoc in Hskip.
        apply skipn_steps in Hskip. cbn [app] in Hskip.
        do 2 apply skipn_step in Hskip. rewrite <- app_assoc in Hskip.
        apply skipn_steps in Hskip. cbn [app] in Hskip.
        now apply skipn_step in Hskip. }
      rewrite !length_app in Hturns. cbn [length] in Hturns.
      rewrite length_app in Hturns. cbn [length] in Hturns.
      rewrite (IH _ (S (S below)) turns _ Hrest) by lia.
      rewrite !str_app_assoc. f_equal. f_equal.
      rewrite !length_app. cbn [length]. rewrite length_app. cbn [length]. lia.
    + (* a function without a block *)
      destruct Hu as [Hty [Hlp [Hps [Hrp Hafter]]]].
      cbn [app] in Hskip.
      assert (H0 := nth_error_skipn _ _ _ _ _ Hskip).
      assert (Hpl := parameters_tokens_length ps).
      rewrite !length_app in Hfuel, Hturns. cbn [length] in Hfuel, Hturns.
      destruct below as [|[|below]]; [lia|lia|].
      assert (Hnb : present_and "T_LBrace" (Some after) = false
                    /\ type_in (type after) ["T_Int"; "T_Void"] = false).
      { rewrite type_in_cons in Hafter. apply orb_false_iff in Hafter.
        destruct Hafter as [Hlb Hafter]. cbn [present_and]. now split. }
      destruct Hnb as [Hnb Hnt].
      assert (Hd :
        Limited.parse_declaration_or_function tokens fuel (S (S (S below)))
          position
        = Ok (Some (nl ++ "    Function: " ++ value name ++ parameters_text ps),
              position + 1 + 1 + 1 + length (parameters_tokens ps) + 1)).
      { rewrite (limited_declaration_is_function tokens fuel position _ ty name
                   lparen _ Hskip Hty Hlp).
        assert (Hskip2 : skipn (position + 1 + 1) tokens
                         = lparen :: parameters_tokens ps
                             ++ rparen :: (after :: units_tokens us)).
        { apply skipn_step in Hskip. apply skipn_step in Hskip.
          rewrite Hskip. cbn [app]. f_equal.
          rewrite <- !app_assoc. reflexivity. }
        assert (Hf := limited_function_reads tokens fuel (position + 1 + 1)
                        below (value name) lparen rparen ps _ Hps Hskip2 Hrp
                        ltac:(lia)).
        cbv zeta in Hf. cbn [hd_error] in Hf. rewrite Hnb in Hf.
        rewrite (bind_ok _ _ _ _ _ _ _ Hf). cbn [ret]. reflexivity. }
      rewrite (limited_program_call tokens fuel _ turns _ _ program _ ty
                 H0 Hty Hd).
      assert (Hrest :
        skipn (position + 1 + 1 + 1 + length (parameters_tokens ps) + 1) tokens
        = after :: units_tokens us).
      { do 3 apply skipn_step in Hskip. rewrite <- app_assoc in Hskip.
        apply skipn_steps in Hskip. cbn [app] in Hskip.
        now apply skipn_step in Hskip. }
      assert (Ha := nth_error_skipn _ _ _ _ _ Hrest).
      apply skipn_step in Hrest.
      destruct turns as [|turns]; [lia|].
      rewrite (limited_program_skip tokens fuel _ turns _ _ after Ha Hnt).
      rewrite (IH _ (S (S below)) turns _ Hrest) by lia.
      rewrite !str_app_assoc. f_equal. f_equal.
      rewrite !length_app. cbn [length]. lia.
Qed.

Lemma units_frames_positive (us : list unit_item) : 1 <= units_frames us.
Proof.
  unfold units_frames. induction us as [|u us IH]; cbn [fold_right]; lia.
Qed.

Lemma limited_programs_are_read :
  forall (us : list unit_item) (fuel frames : nat),
    Forall unit_ok us ->
    length (units_tokens us) < fuel ->
    units_frames us < frames ->
    Limited.parse fuel frames (units_tokens us)
    = Ok ("Program:" ++ units_text us, length (units_tokens us)).
Proof.
  intros us fuel frames Hok Hfuel Hframes.
  assert (Hpos := units_frames_positive us).
  destruct frames as [|[|below]]; [lia|lia|]. unfold Limited.parse.
  now rewrite (limited_program_units (units_tokens us) fuel us Hok 0 below fuel
                 "Program:") by (reflexivity || lia).
Qed.

(** X20: [parse] reads whole programs.  On the tokens of any sequence of
    units, each a skipped token, a declaration, a function with a parameter
    list and a block of statements, or a function without a block, nested
    within the recursion limit ([units_frames], and the frame of [parse]) with
    one frame to spare, [parse] returns [Program:] followed by the texts of
    the units in order and has consumed every token. *)
Theorem X20_programs_are_read :
  forall (us : list unit_item) (fuel frames : nat),
    Forall unit_ok us ->
    length (units_tokens us) < fuel ->
    units_frames us + 1 < frames ->
    Limited.parse fuel frames (units_tokens us)
    = Ok ("Program:" ++ units_text us, length (units_tokens us)).
Proof.
  intros us fuel frames Hok Hfuel Hframes.
  apply limited_programs_are_read; [assumption | assumption | lia].
Qed.

Lemma X20_programs_witness :
  let us :=
    [UDecl (mkToken "T_Int" "int" 1 1 3) (mkToken "T_Identifier" "x" 1 5 5)
           (mkToken "T_Semicolon" ";" 1 6 6);
     UPrototype (mkToken "T_Void" "void" 2 1 4)
                (mkToken "T_Identifier" "g" 2 6 6)
                (mkToken "T_LParen" "(" 2 7 7)
                [mkParameter (mkToken "T_Bool" "bool" 2 8 11)
                             (mkToken "T_Identifier" "b" 2 13 13) None]
                (mkToken "T_RParen" ")" 2 14 14)
                (mkToken "T_Semicolon" ";" 2 15 15);
     UFunction (mkToken "T_Void" "void" 3 1 4)
               (mkToken "T_Identifier" "f" 3 6 6)
               (mkToken "T_LParen" "(" 3 7 7)
               [mkParameter (mkToken "T_Int" "int" 3 8 10)
                            (mkToken "T_Identifier" "a" 3 12 12) None]
               (mkToken "T_RParen" ")" 3 13 13)
               (mkToken "T_LBrace" "{" 3 15 15)
               (SCons (SReturn (mkToken "T_Return" "return" 3 17 22)
                               (Binary (mkToken "T_Add" "+" 3 24 24)
                                       (Leaf (mkToken "T_Identifier" "a" 3 26 26))
                                       (Leaf (mkToken "T_Identifier" "x" 3 28 28)))
                               (mkToken "T_Semicolon" ";" 3 29 29)) SNil)
               (mkToken "T_RBrace" "}" 3 31 31)] in
  tokenize ("int x;" ++ nl ++ "void g(bool b);" ++ nl
              ++ "void f(int a) { return + a x; }")
  = Tokens (units_tokens us)
  /\ Limited.parse 24 9 (units_tokens us)
     = Ok ("Program:" ++ units_text us, length (units_tokens us))
  /\ "Program:" ++ units_text us
     = "Program:" ++ nl ++ "    Declaration: x"
         ++ nl ++ "    Function: g"
         ++ nl ++ "        Parameter: t_t_bool b"
         ++ nl ++ "    Function: f"
         ++ nl ++ "        Parameter: t_t_int a"
         ++ nl ++ "        Return:"
         ++ nl ++ "            ArithmeticExpr: +"
         ++ nl ++ "            FieldAccess: a"
         ++ nl ++ "            FieldAccess: x".
Proof.
  cbv zeta. split; [vm_compute; reflexivity|]. split; [|reflexivity].
  apply X20_programs_are_read.
  - repeat constructor; cbn; tauto.
  - cbn. lia.
  - cbn. lia.
Defined.

(** ** The cursor *)

Section LimitedCursor.

Variable tokens : list Token.
Variable fuel : nat.











End LimitedCursor.

(** ** The top-level loop (C1) *)

Section TopLevel.

Variable tokens : list Token.
Variable fuel : nat.
Variable below : nat.





End TopLevel.



(** ** The limit and the budget *)

Lemma within_limit_refl (A : Type) (m : M A) : within_limit m m.
Proof. intros position _ _. reflexivity. Qed.

Lemma within_limit_raise (A : Type) (m : M A) :
  within_limit (raise RecursionError) m.
Proof. intros position H _. now contradiction H. Qed.

Lemma within_limit_out_of_fuel (A : Type) (m : M A) :
  within_limit out_of_fuel m.
Proof. intros position _ H. now contradiction H. Qed.

Lemma within_limit_bind (A B : Type) (m m' : M A) (k k' : A -> M B) :
  within_limit m m' -> (forall a, within_limit (k a) (k' a)) ->
  within_limit (bind m k) (bind m' k').
Proof.
  intros Hm Hk position H1 H2. unfold bind in *.
  destruct (m position) as [[a p]| e |] eqn:E.
  - rewrite (Hm position) by (rewrite E; discriminate). rewrite E.
    now apply Hk.
  - assert (He : e <> RecursionError) by (intros ->; now apply H1).
    rewrite (Hm position); rewrite E; try discriminate; [reflexivity|].
    intros H. inversion H. now apply He.
  - now contradiction H2.
Qed.

Ltac limit :=
  repeat first
    [ assumption
    | apply within_limit_refl
    | apply within_limit_raise
    | apply within_limit_out_of_fuel
    | match goal with
      | H : forall _, within_limit _ _ |- within_limit _ _ => apply H
      end
    | apply within_limit_bind; [|intros ?]
    | match goal with
      | |- within_limit (if ?b then _ else _) (if ?b then _ else _) =>
          destruct b
      | |- within_limit (match ?x with _ => _ end) (match ?x with _ => _ end) =>
          destruct x
      end ].

Section Refinement.

Variable tokens : list Token.
Variable fuel : nat.

Lemma current_within_limit (frames : nat) :
  within_limit (Limited.current_token tokens frames) (current_token tokens).
Proof. destruct frames; [apply within_limit_raise | apply within_limit_refl]. Qed.

Lemma consume_within_limit (frames : nat) :
  within_limit (Limited.consume frames) consume.
Proof. destruct frames; [apply within_limit_raise | apply within_limit_refl]. Qed.

Lemma expression_within_limit (frames : nat) :
  forall n, frames <= n ->
    within_limit (Limited.parse_expression tokens frames)
                 (parse_expression tokens n).
Proof.
  pose proof current_within_limit as Hc.
  pose proof consume_within_limit as Hk.
  induction frames as [|below IH]; intros n Hn; [apply within_limit_raise|].
  destruct n as [|n]; [lia|].
  specialize (IH n ltac:(lia)).
  cbn [Limited.parse_expression parse_expression]. limit.
Qed.

Lemma return_within_limit (frames n : nat) :
  frames <= n ->
  within_limit (Limited.parse_return tokens frames) (parse_return tokens n).
Proof.
  intros Hn. pose proof consume_within_limit as Hk.
  destruct frames as [|below]; [apply within_limit_raise|].
  pose proof (expression_within_limit below n ltac:(lia)) as He.
  cbn [Limited.parse_return]. unfold parse_return. limit.
Qed.

Lemma print_within_limit (frames n : nat) :
  frames <= n ->
  within_limit (Limited.parse_print tokens frames) (parse_print tokens n).
Proof.
  intros Hn. pose proof consume_within_limit as Hk.
  destruct frames as [|below]; [apply within_limit_raise|].
  pose proof (expression_within_limit below n ltac:(lia)) as He.
  cbn [Limited.parse_print]. unfold parse_print. limit.
Qed.

Lemma expression_statement_within_limit (frames n : nat) :
  frames <= n ->
  within_limit (Limited.parse_expression_statement tokens frames)
               (parse_expression_statement tokens n).
Proof.
  intros Hn. pose proof consume_within_limit as Hk.
  pose proof current_within_limit as Hc.
  destruct frames as [|below]; [apply within_limit_raise|].
  pose proof (expression_within_limit below n ltac:(lia)) as He.
  cbn [Limited.parse_expression_statement]. unfold parse_expression_statement.
  limit.
Qed.

Lemma parameters_within_limit (below : nat) :
  forall turns n function,
    turns <= n ->
    within_limit (Limited.parse_parameters tokens below turns function)
                 (parse_parameters tokens n function).
Proof.
  pose proof current_within_limit as Hc.
  pose proof consume_within_limit as Hk.
  induction turns as [|turns IH]; intros n function Hn;
    [apply within_limit_out_of_fuel|].
  destruct n as [|n]; [lia|].
  assert (IH' : forall function,
             within_limit (Limited.parse_parameters tokens below turns function)
                          (parse_parameters tokens n function))
    by (intros f; apply IH; lia).
  cbn [Limited.parse_parameters parse_parameters]. limit.
Qed.

Lemma covering_le (frames : nat) : frames <= covering fuel frames.
Proof. unfold covering. nia. Qed.

Lemma statements_within_limit (below : nat) :
  (forall n, covering fuel below <= n ->
     within_limit (Limited.parse_declaration_or_function tokens fuel below)
                  (parse_declaration_or_function tokens n)
     /\ within_limit (Limited.parse_if_else tokens fuel below)
                     (parse_if_else tokens n)) ->
  forall turns n block,
    covering fuel below + turns <= n ->
    within_limit
      (Limited.parse_statements tokens
         (Limited.statement tokens
            (Limited.parse_declaration_or_function tokens fuel below)
            (Limited.parse_if_else tokens fuel below) below)
         below turns block)
      (parse_statements tokens n block).
Proof.
  intros Hprod.
  pose proof current_within_limit as Hc.
  pose proof consume_within_limit as Hk.
  pose proof (covering_le below) as Hcov.
  induction turns as [|turns IH]; intros n block Hn;
    [apply within_limit_out_of_fuel|].
  destruct n as [|n]; [lia|].
  assert (IH' : forall block,
             within_limit
               (Limited.parse_statements tokens
                  (Limited.statement tokens
                     (Limited.parse_declaration_or_function tokens fuel below)
                     (Limited.parse_if_else tokens fuel below) below)
                  below turns block)
               (parse_statements tokens n block))
    by (intros b; apply IH; lia).
  destruct (Hprod n ltac:(lia)) as [Hd Hi].
  pose proof (return_within_limit below n ltac:(lia)) as Hr.
  pose proof (print_within_limit below n ltac:(lia)) as Hp.
  pose proof (expression_statement_within_limit below n ltac:(lia)) as Hx.
  cbn [Limited.parse_statements parse_statements]. unfold Limited.statement.
  limit.
Qed.

Lemma productions_within_limit (frames : nat) :
  forall n, covering fuel frames <= n ->
    within_limit (Limited.parse_declaration_or_function tokens fuel frames)
                 (parse_declaration_or_function tokens n)
    /\ (forall name,
           within_limit (Limited.parse_function tokens fuel frames name)
                        (parse_function tokens n name))
    /\ within_limit (Limited.parse_block tokens fuel frames)
                    (parse_block tokens n)
    /\ within_limit (Limited.parse_if_else tokens fuel frames)
                    (parse_if_else tokens n).
Proof.
  pose proof current_within_limit as Hc.
  pose proof consume_within_limit as Hk.
  induction frames as [|below IH]; intros n Hn.
  - repeat split; intros; apply within_limit_raise.
  - assert (Hstep : covering fuel (S below) = covering fuel below + fuel + 1)
      by (unfold covering; lia).
    pose proof (covering_le below) as Hcov.
    destruct n as [|n]; [lia|].
    destruct (IH n ltac:(lia)) as [Hd [Hf [Hb Hi]]].
    pose proof (expression_within_limit below n ltac:(lia)) as He.
    pose proof (parameters_within_limit below fuel n) as Hprm.
    assert (Hprm' : forall function,
               within_limit (Limited.parse_parameters tokens below fuel function)
                            (parse_parameters tokens n function))
      by (intros f; apply Hprm; lia).
    assert (Hs : forall block,
               within_limit
                 (Limited.parse_statements tokens
                    (Limited.statement tokens
                       (Limited.parse_declaration_or_function tokens fuel below)
                       (Limited.parse_if_else tokens fuel below) below)
                    below fuel block)
                 (parse_statements tokens n block)).
    { intros block. apply statements_within_limit; [|lia].
      intros m Hm. destruct (IH m Hm) as [Hd' [_ [_ Hi']]]. now split. }
    repeat split; intros.
    + cbn [Limited.parse_declaration_or_function parse_declaration_or_function].
      limit.
    + cbn [Limited.parse_function parse_function]. limit.
    + cbn [Limited.parse_block parse_block]. limit.
    + cbn [Limited.parse_if_else parse_if_else]. limit.
Qed.

Lemma program_within_limit (below : nat) :
  forall turns n program,
    covering fuel below + turns <= n ->
    within_limit (Limited.parse_program tokens fuel below turns program)
                 (parse_program tokens n program).
Proof.
  pose proof current_within_limit as Hc.
  pose proof consume_within_limit as Hk.
  induction turns as [|turns IH]; intros n program Hn;
    [apply within_limit_out_of_fuel|].
  destruct n as [|n]; [lia|].
  assert (IH' : forall program,
             within_limit (Limited.parse_program tokens fuel below turns program)
                          (parse_program tokens n program))
    by (intros p; apply IH; lia).
  pose proof (proj1 (productions_within_limit below n ltac:(lia))) as Hd.
  cbn [Limited.parse_program parse_program]. limit.
Qed.

End Refinement.

Lemma parse_within_limit :
  forall (tokens : list Token) (fuel frames n : nat),
    covering fuel frames <= n ->
    Limited.parse fuel frames tokens <> Raise RecursionError ->
    Limited.parse fuel frames tokens <> OutOfFuel ->
    parse n tokens = Limited.parse fuel frames tokens.
Proof.
  intros tokens fuel frames n Hn H1 H2.
  destruct frames as [|below]; [now contradiction H1|].
  unfold Limited.parse, parse in *.
  apply (program_within_limit tokens fuel below fuel n "Program:");
    [unfold covering in *; lia | assumption | assumption].
Qed.

(** ** Where the top-level loop fails (C1) *)



(** X21: the recursion limit only adds [RecursionError].  Whenever [parse]
    under the limit returns, or raises another exception, [parse] without the
    limit does the same, within any budget that covers the frames and the
    turns of the loops: what is proved of a run of [Parser.parse] is what the
    code does as long as the interpreter's stack is deep enough. *)
Theorem X21_limit_only_adds_recursion_error :
  forall (tokens : list Token) (fuel frames n : nat),
    covering fuel frames <= n ->
    Limited.parse fuel frames tokens <> Raise RecursionError ->
    Limited.parse fuel frames tokens <> OutOfFuel ->
    parse n tokens = Limited.parse fuel frames tokens.
Proof. exact parse_within_limit. Qed.

Lemma X21_limit_witness :
  let tokens := [mkToken "T_Int" "int" 1 1 3; mkToken "T_Identifier" "x" 1 5 5;
                 mkToken "T_Assign" "=" 1 7 7] in
  parse 15 tokens = Limited.parse 4 3 tokens
  /\ Limited.parse 4 3 tokens = Raise TypeError.
Proof.
  cbv zeta. split; [|reflexivity].
  apply X21_limit_only_adds_recursion_error.
  - vm_compute. lia.
  - vm_compute. discriminate.
  - vm_compute. discriminate.
Defined.
